(** * hmonitors: the layout pipeline of [hmonitors.py]

    A shallow embedding of the monitor-layout code of [hmonitors.py]
    ([Monitor], [select_monitors], [get_upmost_leftmost_monitor],
    [set_position] and [setup_monitors]) and the properties of its
    specification that concern graph construction, anchor discovery,
    recursive placement and normalisation; then the code around it
    ([EventListener.start], the event loop and the configuration watcher of
    [main], [kill_existing_instances]) with the input and the answers of the
    system as explicit arguments, and further properties of both.

    Conventions of the embedding.
    - A Python [dict] is an association list in insertion order; its keys
      are unique, and the operations below keep them so.
    - [sys.exit(1)] and the uncaught Python exceptions are the two kinds of
      abnormal termination of a pass; both are values of [pyerr].
    - A position is held by the code as the string [f'{x}x{y}'] and read
      back with [int(s.split('x')[i])]; formatting an integer and parsing it
      again is the identity, so a concrete position is a pair of integers.
      The sentinels ['auto'] and ['preferred'] and the unset value [None]
      are separate constructors, and reading them the way the code does
      raises what Python raises.
    - Strings are sequences of code points below 256.
    - The inputs are well formed, and the types say so: the configuration
      is the mapping [config['monitors']], a match is a list of one-pair
      mappings, a directive is a string, and a display record of the
      enumeration carries its name, width and height. What the code raises
      on YAML or JSON of another shape is outside the embedding. *)

From Stdlib Require Import List String Ascii ZArith QArith Bool Lia Arith.
Import ListNotations.
Local Open Scope string_scope.
Local Open Scope Z_scope.

Set Implicit Arguments.

(** ** Python values, errors and the result monad *)

(** Scalar values of the YAML configuration and of the JSON enumeration. A
    finite float is its exact rational value. *)
Inductive pyval : Type :=
| PyNone
| PyStr (s : string)
| PyInt (z : Z)
| PyBool (b : bool)
| PyFloat (q : Q).

(** Numeric view used by Python's [==] across [bool], [int] and [float]. *)
Definition py_num (v : pyval) : option Q :=
  match v with
  | PyNone => None
  | PyStr _ => None
  | PyInt z => Some (inject_Z z)
  | PyBool b => Some (if b then 1%Q else 0%Q)
  | PyFloat q => Some q
  end.

(** [a == b]. *)
Definition py_eqb (a b : pyval) : bool :=
  match a, b with
  | PyNone, PyNone => true
  | PyStr s, PyStr t => String.eqb s t
  | _, _ =>
      match py_num a, py_num b with
      | Some p, Some q => Qeq_bool p q
      | _, _ => false
      end
  end.

(** The reasons for which the code calls [sys.exit(1)]. *)
Inductive fatal : Type :=
| NoMatchKey (monitor : string)
| AmbiguousMatch
| InvalidAlign (monitor : string)
| MonitorNotFound (relative_to : string).

Inductive pyerr : Type :=
| SysExit (why : fatal)
| AttributeError
| KeyError
| IndexError
| ValueError
| RecursionError.

Inductive result (A : Type) : Type :=
| Ok (a : A)
| Err (e : pyerr).
Arguments Ok {A} a.
Arguments Err {A} e.

Definition bind {A B : Type} (r : result A) (k : A -> result B) : result B :=
  match r with
  | Ok a => k a
  | Err e => Err e
  end.

Notation "x <- c ;; k" := (bind c (fun x => k))
  (at level 61, c at next level, right associativity).

(** ** Strings: [str.split()] and [sub in s] *)

(** The code points below 256 on which [str.isspace] holds. *)
Definition is_space (c : ascii) : bool :=
  let n := nat_of_ascii c in
  ((9 <=? n) && (n <=? 13) || (28 <=? n) && (n <=? 32)
   || (n =? 133) || (n =? 160))%nat.

(** [s.split()]: the maximal runs of non-space characters; [cur] is the run
    being read. *)
Fixpoint split_from (cur : string) (s : string) : list string :=
  match s with
  | EmptyString => if String.eqb cur "" then [] else [cur]
  | String c s' =>
      if is_space c
      then (if String.eqb cur "" then split_from "" s'
            else cur :: split_from "" s')
      else split_from (cur ++ String c "") s'
  end.

Definition py_split (s : string) : list string := split_from "" s.

(** [sub in s] on strings. *)
Fixpoint contains (sub s : string) : bool :=
  prefix sub s ||
  match s with
  | EmptyString => false
  | String _ s' => contains sub s'
  end.

(** [l[i]] on a list. *)
Definition py_index {A : Type} (l : list A) (i : nat) : result A :=
  match nth_error l i with
  | Some a => Ok a
  | None => Err IndexError
  end.

(** Truthiness of an optional string: [None] and [''] are false. *)
Definition truthy (o : option string) : bool :=
  match o with
  | Some s => negb (String.eqb s "")
  | None => false
  end.

(** ** class Monitor *)

Inductive resolution_t : Type :=
| ResUnset
| ResPreferred
| ResWH (w h : Z).

Inductive position_t : Type :=
| PosUnset
| PosAuto
| PosXY (x y : Z).

Record Monitor : Type := mkMonitor {
  id : string;
  name : string;
  above : option string;
  below : option string;
  left : option string;
  right : option string;
  resolution : resolution_t;
  position : position_t;
  align : string;
  scale : pyval;
  extra : option string
}.

(** [Monitor.__init__]. *)
Definition new_Monitor (i n : string) : Monitor :=
  {| id := i; name := n; above := None; below := None; left := None;
     right := None; resolution := ResUnset; position := PosUnset;
     align := "center"; scale := PyInt 1; extra := None |}.

Definition set_above (v : string) (m : Monitor) : Monitor :=
  {| id := id m; name := name m; above := Some v; below := below m;
     left := left m; right := right m; resolution := resolution m;
     position := position m; align := align m; scale := scale m;
     extra := extra m |}.

Definition set_below (v : string) (m : Monitor) : Monitor :=
  {| id := id m; name := name m; above := above m; below := Some v;
     left := left m; right := right m; resolution := resolution m;
     position := position m; align := align m; scale := scale m;
     extra := extra m |}.

Definition set_left (v : string) (m : Monitor) : Monitor :=
  {| id := id m; name := name m; above := above m; below := below m;
     left := Some v; right := right m; resolution := resolution m;
     position := position m; align := align m; scale := scale m;
     extra := extra m |}.

Definition set_right (v : string) (m : Monitor) : Monitor :=
  {| id := id m; name := name m; above := above m; below := below m;
     left := left m; right := Some v; resolution := resolution m;
     position := position m; align := align m; scale := scale m;
     extra := extra m |}.

Definition set_resolution (v : resolution_t) (m : Monitor) : Monitor :=
  {| id := id m; name := name m; above := above m; below := below m;
     left := left m; right := right m; resolution := v;
     position := position m; align := align m; scale := scale m;
     extra := extra m |}.

(** [Monitor.set_position], and the assignment [monitor.position = ...]. *)
Definition set_pos (v : position_t) (m : Monitor) : Monitor :=
  {| id := id m; name := name m; above := above m; below := below m;
     left := left m; right := right m; resolution := resolution m;
     position := v; align := align m; scale := scale m;
     extra := extra m |}.

Definition set_scale (v : pyval) (m : Monitor) : Monitor :=
  {| id := id m; name := name m; above := above m; below := below m;
     left := left m; right := right m; resolution := resolution m;
     position := position m; align := align m; scale := v;
     extra := extra m |}.

Definition set_extra (v : string) (m : Monitor) : Monitor :=
  {| id := id m; name := name m; above := above m; below := below m;
     left := left m; right := right m; resolution := resolution m;
     position := position m; align := align m; scale := scale m;
     extra := Some v |}.

Definition valid_aligns : list string :=
  ["left"; "right"; "top"; "bottom"; "center"].

(** [Monitor.set_align]: a value outside the five names ends the process. *)
Definition set_align (v : pyval) (m : Monitor) : result Monitor :=
  match v with
  | PyStr s =>
      if existsb (String.eqb s) valid_aligns
      then Ok {| id := id m; name := name m; above := above m;
                 below := below m; left := left m; right := right m;
                 resolution := resolution m; position := position m;
                 align := s; scale := scale m; extra := extra m |}
      else Err (SysExit (InvalidAlign (name m)))
  | _ => Err (SysExit (InvalidAlign (name m)))
  end.

(** ** The [monitors] dictionary *)

Definition monitors : Type := list (string * Monitor).

(** [monitors.get(k)]. *)
Fixpoint get (k : string) (ms : monitors) : option Monitor :=
  match ms with
  | [] => None
  | (k', m) :: rest => if String.eqb k' k then Some m else get k rest
  end.

(** [k in monitors]. *)
Definition mem (k : string) (ms : monitors) : bool :=
  match get k ms with
  | Some _ => true
  | None => false
  end.

(** [monitors[k]]. *)
Definition getitem (k : string) (ms : monitors) : result Monitor :=
  match get k ms with
  | Some m => Ok m
  | None => Err KeyError
  end.

(** [monitors[k] = v]: replaces in place, or appends a new key. *)
Fixpoint setitem (k : string) (v : Monitor) (ms : monitors) : monitors :=
  match ms with
  | [] => [(k, v)]
  | (k', m) :: rest =>
      if String.eqb k' k then (k', v) :: rest else (k', m) :: setitem k v rest
  end.

(** A mutation [f] of the object stored under [k]. The keys are unique, so
    the entries under [k] are one entry at most. *)
Definition update (k : string) (f : Monitor -> Monitor) (ms : monitors)
  : monitors :=
  map (fun e => if String.eqb (fst e) k then (fst e, f (snd e)) else e) ms.

(** ** Inputs: the enumeration and the configuration *)

(** One record of [hyprctl monitors all -j]: the three keys the code reads,
    and the remaining keys. *)
Record display : Type := mkDisplay {
  d_name : string;
  d_width : Z;
  d_height : Z;
  d_other : list (string * pyval)
}.

Fixpoint assoc (k : string) (l : list (string * pyval)) : option pyval :=
  match l with
  | [] => None
  | (k', v) :: rest => if String.eqb k' k then Some v else assoc k rest
  end.

(** The record as the dictionary the code sees. *)
Definition d_get (d : display) (k : string) : option pyval :=
  if String.eqb k "name" then Some (PyStr (d_name d))
  else if String.eqb k "width" then Some (PyInt (d_width d))
  else if String.eqb k "height" then Some (PyInt (d_height d))
  else assoc k (d_other d).

(** One entry of [config['monitors']]; [None] is a key that is absent. Each
    element of [match] is a one-item mapping, held as its item, and
    [position] is a string. *)
Record monitor_config : Type := mkConfig {
  c_match : option (list (string * pyval));
  c_position : option string;
  c_align : option pyval;
  c_scale : option pyval
}.

Definition config : Type := list (string * monitor_config).

(** ** select_monitors *)

Definition match_found (mt : list (string * pyval)) (d : display) : bool :=
  forallb (fun kv =>
             match d_get d (fst kv) with
             | Some v => py_eqb v (snd kv)
             | None => false
             end) mt.

Definition select_monitors (ds : list display) (mt : list (string * pyval))
  : result (option display) :=
  let selected_monitor := filter (match_found mt) ds in
  if (1 <? List.length selected_monitor)%nat
  then Err (SysExit AmbiguousMatch)
  else Ok (hd_error selected_monitor).

(** ** setup_monitors, first loop: match the monitors *)

Fixpoint match_monitors (ds : list display) (cfg : config) (ms : monitors)
  : result monitors :=
  match cfg with
  | [] => Ok ms
  | (monitor, mc) :: rest =>
      match c_match mc with
      | None => Err (SysExit (NoMatchKey monitor))
      | Some mt =>
          selected_monitor <- select_monitors ds mt ;;
          match selected_monitor with
          | None => match_monitors ds rest ms
          | Some d =>
              let m := set_resolution (ResWH (d_width d) (d_height d))
                         (new_Monitor (d_name d) monitor) in
              m' <- match c_align mc with
                    | Some a => set_align a m
                    | None => Ok m
                    end ;;
              match_monitors ds rest (setitem monitor m' ms)
          end
      end
  end.

(** ** setup_monitors, second loop: organize the monitors *)

(** The five [if '...' in position] blocks, in the order of the source. *)
Definition wire_above (monitor relative_to position : string) (ms : monitors)
  : monitors :=
  if contains "above" position
  then update relative_to (set_above monitor)
         (update monitor (set_below relative_to) ms)
  else ms.

Definition wire_below (monitor relative_to position : string) (ms : monitors)
  : monitors :=
  if contains "below" position
  then update relative_to (set_below monitor)
         (update monitor (set_above relative_to) ms)
  else ms.

Definition wire_left_of (monitor relative_to position : string)
  (ms : monitors) : monitors :=
  if contains "left-of" position
  then update relative_to (set_left monitor)
         (update monitor (set_right relative_to) ms)
  else ms.

Definition wire_right_of (monitor relative_to position : string)
  (ms : monitors) : monitors :=
  if contains "right-of" position
  then update relative_to (set_right monitor)
         (update monitor (set_left relative_to) ms)
  else ms.

Definition wire_same_as (monitor relative_to position : string)
  (ms : monitors) : result monitors :=
  if contains "same-as" position
  then
    let ms1 := update monitor (set_pos PosAuto) ms in
    let ms2 := update monitor (set_resolution ResPreferred) ms1 in
    let ms3 := update monitor (set_scale (PyStr "1")) ms2 in
    r <- getitem relative_to ms3 ;;
    Ok (update monitor (set_extra ("mirror," ++ id r)) ms3)
  else Ok ms.

(** The body of [if 'position' in monitor_config]. *)
Definition wire_position (monitor position : string) (ms : monitors)
  : result monitors :=
  relative_to <- py_index (py_split position) 1 ;;
  if negb (mem relative_to ms)
  then Err (SysExit (MonitorNotFound relative_to))
  else
    wire_same_as monitor relative_to position
      (wire_right_of monitor relative_to position
         (wire_left_of monitor relative_to position
            (wire_below monitor relative_to position
               (wire_above monitor relative_to position ms)))).

Definition organize_one (monitor : string) (mc : monitor_config)
  (ms : monitors) : result monitors :=
  ms1 <- match c_position mc with
         | Some position => wire_position monitor position ms
         | None => Ok ms
         end ;;
  Ok match c_scale mc with
     | Some s => update monitor (set_scale s) ms1
     | None => ms1
     end.

Fixpoint organize_monitors (cfg : config) (ms : monitors) : result monitors :=
  match cfg with
  | [] => Ok ms
  | (monitor, mc) :: rest =>
      if negb (mem monitor ms) then organize_monitors rest ms
      else ms' <- organize_one monitor mc ms ;; organize_monitors rest ms'
  end.

(** The Constraint Graph Builder: both loops. *)
Definition build_graph (cfg : config) (ds : list display) : result monitors :=
  ms <- match_monitors ds cfg [] ;;
  organize_monitors cfg ms.

(** ** get_upmost_leftmost_monitor *)

Definition is_auto (p : position_t) : bool :=
  match p with
  | PosAuto => true
  | _ => false
  end.

(** [not m.above and not m.left], for a monitor that is not ['auto']. *)
Definition is_candidate (m : Monitor) : bool :=
  negb (is_auto (position m))
  && negb (truthy (above m)) && negb (truthy (left m)).

(** Returns the key of the monitor found; [None] when the loop falls
    through. *)
Fixpoint get_upmost_leftmost_monitor (ms : monitors) : option string :=
  match ms with
  | [] => None
  | (k, m) :: rest =>
      if is_auto (position m) then get_upmost_leftmost_monitor rest
      else if negb (truthy (above m)) && negb (truthy (left m)) then Some k
      else get_upmost_leftmost_monitor rest
  end.

(** ** set_position *)

(** [int(r.split('x')[0])] and [int(r.split('x')[1])] on a resolution. *)
Definition res_w (r : resolution_t) : result Z :=
  match r with
  | ResWH w _ => Ok w
  | ResPreferred => Err ValueError
  | ResUnset => Err AttributeError
  end.

Definition res_h (r : resolution_t) : result Z :=
  match r with
  | ResWH _ h => Ok h
  | ResPreferred => Err IndexError
  | ResUnset => Err AttributeError
  end.

(** The position handed to the right neighbour. *)
Definition next_right (monitor right_monitor : Monitor) (pos : Z * Z)
  : result (Z * Z) :=
  next_position_x <- res_w (resolution monitor) ;;
  next_position_y <-
    (if String.eqb (align right_monitor) "top" then Ok (snd pos)
     else if String.eqb (align right_monitor) "bottom" then
       h <- res_h (resolution monitor) ;;
       rh <- res_h (resolution right_monitor) ;;
       Ok (h - rh)
     else
       h <- res_h (resolution monitor) ;;
       rh <- res_h (resolution right_monitor) ;;
       Ok ((h - rh) / 2)) ;;
  Ok (next_position_x, next_position_y).

(** The position handed to the neighbour below. *)
Definition next_below (monitor below_monitor : Monitor) (pos : Z * Z)
  : result (Z * Z) :=
  next_position_x <-
    (if String.eqb (align below_monitor) "left" then Ok (fst pos)
     else if String.eqb (align below_monitor) "right" then
       w <- res_w (resolution monitor) ;;
       bw <- res_w (resolution below_monitor) ;;
       Ok (w - bw)
     else
       w <- res_w (resolution monitor) ;;
       bw <- res_w (resolution below_monitor) ;;
       Ok ((w - bw) / 2)) ;;
  next_position_y <- res_h (resolution monitor) ;;
  Ok (next_position_x, next_position_y).

(** [set_position(monitors, monitors[k], f'{x}x{y}')]. The monitor object is
    named by its key. [fuel] bounds the depth of the recursion, as the
    interpreter's recursion limit does. *)
Fixpoint set_position (fuel : nat) (ms : monitors) (k : string) (pos : Z * Z)
  : result monitors :=
  match fuel with
  | O => Err RecursionError
  | S fuel' =>
      let ms0 := update k (set_pos (PosXY (fst pos) (snd pos))) ms in
      monitor <- getitem k ms0 ;;
      ms1 <-
        (if truthy (right monitor) then
           match right monitor with
           | Some r =>
               right_monitor <- getitem r ms0 ;;
               next_position <- next_right monitor right_monitor pos ;;
               set_position fuel' ms0 r next_position
           | None => Ok ms0
           end
         else Ok ms0) ;;
      monitor <- getitem k ms1 ;;
      if truthy (below monitor) then
        match below monitor with
        | Some b =>
            below_monitor <- getitem b ms1 ;;
            next_position <- next_below monitor below_monitor pos ;;
            set_position fuel' ms1 b next_position
        | None => Ok ms1
        end
      else Ok ms1
  end.

(** ** setup_monitors, normalisation *)

(** [int(p.split('x')[0])] and [int(p.split('x')[1])] on a position. *)
Definition pos_x (p : position_t) : result Z :=
  match p with
  | PosXY x _ => Ok x
  | PosAuto => Err ValueError
  | PosUnset => Err AttributeError
  end.

Definition pos_y (p : position_t) : result Z :=
  match p with
  | PosXY _ y => Ok y
  | PosAuto => Err IndexError
  | PosUnset => Err AttributeError
  end.

(** The list comprehension [[int(...) for monitor in monitors if
    monitors[monitor].position != 'auto']]. *)
Fixpoint coords (rd : position_t -> result Z) (ms : monitors)
  : result (list Z) :=
  match ms with
  | [] => Ok []
  | (_, m) :: rest =>
      if is_auto (position m) then coords rd rest
      else v <- rd (position m) ;; l <- coords rd rest ;; Ok (v :: l)
  end.

(** [min(l)]. *)
Definition py_min (l : list Z) : result Z :=
  match l with
  | [] => Err ValueError
  | a :: rest => Ok (fold_left Z.min rest a)
  end.

(** The two loops [for monitor in monitors: ... position = f'{x}x{y}']; they
    visit every monitor, the ['auto'] ones as well. *)
Fixpoint shift_by (dx dy : Z) (ms : monitors) : result monitors :=
  match ms with
  | [] => Ok []
  | (k, m) :: rest =>
      x <- pos_x (position m) ;;
      y <- pos_y (position m) ;;
      rest' <- shift_by dx dy rest ;;
      Ok ((k, set_pos (PosXY (x - dx) (y - dy)) m) :: rest')
  end.

(** [min([... for monitor in monitors if ...])]. *)
Definition min_coord (rd : position_t -> result Z) (ms : monitors)
  : result Z :=
  l <- coords rd ms ;; py_min l.

Definition normalize (ms : monitors) : result monitors :=
  min_x <- min_coord pos_x ms ;;
  min_y <- min_coord pos_y ms ;;
  ms1 <- (if min_x <? 0 then shift_by min_x 0 ms else Ok ms) ;;
  if min_y <? 0 then shift_by 0 min_y ms1 else Ok ms1.

(** ** setup_monitors *)

(** The Layout Resolver from a given anchor: [set_position] from ['0x0'],
    then the normalisation. [set_position(monitors, None)] fails on its first
    statement. *)
Definition resolve_from (fuel : nat) (ms : monitors) (anchor : option string)
  : result monitors :=
  match anchor with
  | None => Err AttributeError
  | Some k => ms1 <- set_position fuel ms k (0, 0) ;; normalize ms1
  end.

Definition resolve (fuel : nat) (ms : monitors) : result monitors :=
  resolve_from fuel ms (get_upmost_leftmost_monitor ms).

(** The whole pass. The value returned is the dictionary whose monitors are
    applied, in order, by [apply_configuration]; on [Err] nothing is
    applied. *)
Definition setup_monitors (fuel : nat) (cfg : config) (ds : list display)
  : result monitors :=
  ms <- build_graph cfg ds ;;
  resolve fuel ms.


(** ** Auxiliary definitions used in the proofs *)

(** The keys of the dictionary, in order. *)
Definition keys (ms : monitors) : list string := map fst ms.

(** What one [if '...' in position] block does to the monitor stored under
    [k]: [f] on the declaring monitor, then [g] on the referenced one. *)
Definition pair_effect (c : bool) (monitor relative_to k : string)
  (f g : Monitor -> Monitor) (m : Monitor) : Monitor :=
  if c then
    let m1 := if String.eqb k monitor then f m else m in
    if String.eqb k relative_to then g m1 else m1
  else m.

(** The [same-as] block on the monitor stored under [k]; [i] is the
    identifier of the referenced monitor. *)
Definition same_as_effect (c : bool) (monitor k i : string) (m : Monitor)
  : Monitor :=
  if c && String.eqb k monitor
  then set_extra ("mirror," ++ i)
         (set_scale (PyStr "1") (set_resolution ResPreferred
            (set_pos PosAuto m)))
  else m.

(** The monitor stored under [k] after the four directional blocks. *)
Definition directions_effect (monitor relative_to directive k : string)
  (m : Monitor) : Monitor :=
  pair_effect (contains "right-of" directive) monitor relative_to k
    (set_left relative_to) (set_right monitor)
    (pair_effect (contains "left-of" directive) monitor relative_to k
       (set_right relative_to) (set_left monitor)
       (pair_effect (contains "below" directive) monitor relative_to k
          (set_above relative_to) (set_below monitor)
          (pair_effect (contains "above" directive) monitor relative_to k
             (set_below relative_to) (set_above monitor) m))).

(** An alignment value accepted by [Monitor.set_align]. *)
Definition valid_align (v : pyval) : bool :=
  match v with
  | PyStr s => existsb (String.eqb s) valid_aligns
  | _ => false
  end.

(** The errors that end a pass during graph construction: [sys.exit(1)], or
    the [IndexError] of a directive of fewer than two words. *)
Definition build_error (e : pyerr) : Prop :=
  e = IndexError \/ exists why, e = SysExit why.

(** Two records that differ in their four links at most. *)
Definition same_core (m m' : Monitor) : Prop :=
  id m' = id m /\ name m' = name m /\ resolution m' = resolution m /\
  position m' = position m /\ align m' = align m /\ scale m' = scale m /\
  extra m' = extra m.

(** The record the first loop stores under [k] for the display [d]. *)
Definition initial_record (d : display) (k : string) (m : Monitor) : Prop :=
  id m = d_name d /\ name m = k /\
  above m = None /\ below m = None /\ left m = None /\ right m = None /\
  resolution m = ResWH (d_width d) (d_height d) /\
  position m = PosUnset /\ scale m = PyInt 1 /\ extra m = None /\
  In (align m) valid_aligns.

(** The effect of the normalisation on one record: a concrete position is
    moved by [(dx, dy)]. *)
Definition shift_entry (dx dy : Z) (e : string * Monitor)
  : string * Monitor :=
  (fst e,
   match position (snd e) with
   | PosXY x y => set_pos (PosXY (x - dx) (y - dy)) (snd e)
   | _ => snd e
   end).

Definition is_concrete (e : string * Monitor) : Prop :=
  exists x y, position (snd e) = PosXY x y.

(** A mapping with every position forgotten: what the traversal reads. *)
Definition skeleton (ms : monitors) : monitors :=
  map (fun e => (fst e, set_pos PosUnset (snd e))) ms.

(** The assignments [monitor.position = f'{x}x{y}'] of one traversal, in
    the order in which they are made. *)
Definition trace : Type := list (string * (Z * Z)).

Definition assign (a : string * (Z * Z)) (ms : monitors) : monitors :=
  update (fst a) (set_pos (PosXY (fst (snd a)) (snd (snd a)))) ms.

Definition apply_trace (t : trace) (ms : monitors) : monitors :=
  fold_left (fun s a => assign a s) t ms.

(** The last position a trace assigns to the key [k]. *)
Fixpoint last_pos (t : trace) (k : string) : option position_t :=
  match t with
  | [] => None
  | a :: t' =>
      match last_pos t' k with
      | Some p => Some p
      | None =>
          if String.eqb k (fst a)
          then Some (PosXY (fst (snd a)) (snd (snd a)))
          else None
      end
  end.

Definition entry_after (t : trace) (e : string * Monitor)
  : string * Monitor :=
  (fst e,
   match last_pos t (fst e) with
   | Some p => set_pos p (snd e)
   | None => snd e
   end).

(** Positions as the graph builder leaves them. *)
Definition fresh (ms : monitors) : Prop :=
  Forall (fun e => position (snd e) = PosUnset \/ position (snd e) = PosAuto)
    ms.

(** [a]'s right neighbour is [b], and the traversal follows the link. *)
Definition has_right (ms : monitors) (a b : string) : Prop :=
  exists m, get a ms = Some m /\ right m = Some b /\ b <> "".

(** An error that reaches the caller as a Python exception, not as
    [sys.exit(1)]. *)
Definition uncaught_exception (e : pyerr) : Prop :=
  match e with
  | SysExit _ => False
  | _ => True
  end.

(** No monitor has [c] as its right or below neighbour. *)
Definition no_pred (c : string) (ms : monitors) : Prop :=
  forall p mp, get p ms = Some mp ->
               right mp <> Some c /\ below mp <> Some c.

(** Every right (below) neighbour has a left (above) neighbour that the code
    sees as set. *)
Definition links_ok (ms : monitors) : Prop :=
  forall p mp c,
    get p ms = Some mp ->
    (right mp = Some c ->
     exists mc, get c ms = Some mc /\ truthy (left mc) = true) /\
    (below mp = Some c ->
     exists mc, get c ms = Some mc /\ truthy (above mc) = true).

(** Two records with the same four links. *)
Definition same_links (m m' : Monitor) : Prop :=
  above m = above m' /\ below m = below m' /\ left m = left m' /\
  right m = right m'.

(** ** Example inputs *)

Definition by_name (n : string) : option (list (string * pyval)) :=
  Some [("name", PyStr n)].

Definition declare (n : string) (directive : option string)
  (a s : option pyval) : monitor_config :=
  {| c_match := by_name n; c_position := directive; c_align := a;
     c_scale := s |}.

Definition dp1 : display := mkDisplay "DP-1" 1920 1080 [].
Definition dp2 : display := mkDisplay "DP-2" 1280 1024 [].
Definition dp3 : display := mkDisplay "DP-3" 1024 768 [].
Definition dp4 : display := mkDisplay "DP-4" 1280 2000 [].
Definition dp5 : display := mkDisplay "DP-5" 800 600 [].

Definition displays : list display := [dp1; dp2; dp3; dp4; dp5].

(** The positions of a mapping, for reading results. *)
Definition positions (ms : monitors) : list (string * position_t) :=
  map (fun e => (fst e, position (snd e))) ms.

(** Three displays in a row: B right of A, C right of B. *)
Definition cfg_row : config :=
  [("A", declare "DP-1" None None None);
   ("B", declare "DP-2" (Some "right-of A") None None);
   ("C", declare "DP-3" (Some "right-of B") None None)].

(** X is right of Y, and no physical display matches Y. *)
Definition cfg_absent : config :=
  [("Y", declare "HDMI-A-1" None None None);
   ("X", declare "DP-2" (Some "right-of Y") None None)].

(** M mirrors A and declares a scale. *)
Definition cfg_mirror_scaled : config :=
  [("A", declare "DP-1" None None None);
   ("M", declare "DP-2" (Some "same-as A") None (Some (PyInt 2)))].

(** An alignment that is not one of the five names. *)
Definition cfg_bad_align : config :=
  [("A", declare "DP-1" None (Some (PyStr "middle")) None)].

(** B is taller than A and centred on it, so its y is negative. *)
Definition cfg_tall : config :=
  [("A", declare "DP-1" None None None);
   ("B", declare "DP-4" (Some "right-of A") None None)].

(** The same, with a mirror of A. *)
Definition cfg_tall_mirror : config :=
  [("A", declare "DP-1" None None None);
   ("B", declare "DP-4" (Some "right-of A") None None);
   ("M", declare "DP-2" (Some "same-as A") None None)].

(** Two displays, each declared left of the other. *)
Definition cfg_cycle : config :=
  [("A", declare "DP-3" (Some "left-of B") None None);
   ("B", declare "DP-2" (Some "left-of A") None None)].

(** The same two declarations, followed by Q right of A and P above B. *)
Definition cfg_cycle_rewired : config :=
  [("A", declare "DP-3" (Some "left-of B") None None);
   ("B", declare "DP-2" (Some "left-of A") None None);
   ("Q", declare "DP-5" (Some "right-of A") None None);
   ("P", declare "DP-1" (Some "above B") None None)].

(** Two displays without any directive. *)
Definition cfg_two_anchors : config :=
  [("A", declare "DP-1" None None None);
   ("B", declare "DP-2" None None None)].

(** A display whose logical name is the empty string, declared left of B:
    the left link of B is the empty string, which [not] takes for no
    neighbour. *)
Definition cfg_empty_name : config :=
  [("", declare "DP-1" (Some "left-of B") None None);
   ("B", declare "DP-2" None None None)].

(** B is left of its own mirror M; Z has no directive. *)
Definition cfg_mirror_right : config :=
  [("B", declare "DP-1" (Some "left-of M") None None);
   ("M", declare "DP-2" (Some "same-as B") None None);
   ("Z", declare "DP-3" None None None)].

(** A display whose name contains a direction keyword, and one below it. *)
Definition cfg_keyword_name : config :=
  [("DP-above", declare "DP-1" None None None);
   ("B", declare "DP-2" (Some "below DP-above") None None)].

(** The graph the builder returns for [cfg_tall], the mapping the traversal
    makes of it, and the resolved mapping. *)
Definition tall_A : Monitor :=
  set_right "B" (set_resolution (ResWH 1920 1080) (new_Monitor "DP-1" "A")).

Definition tall_B : Monitor :=
  set_left "A" (set_resolution (ResWH 1280 2000) (new_Monitor "DP-4" "B")).

Definition built_tall : monitors := [("A", tall_A); ("B", tall_B)].

Definition placed_tall : monitors :=
  [("A", set_pos (PosXY 0 0) tall_A);
   ("B", set_pos (PosXY 1920 (-460)) tall_B)].

Definition resolved_tall : monitors :=
  [("A", set_pos (PosXY 0 460) tall_A);
   ("B", set_pos (PosXY 1920 0) tall_B)].

(** The records of the first loop for [cfg_keyword_name]. *)
Definition matched_keyword_name : monitors :=
  [("DP-above", set_resolution (ResWH 1920 1080)
                  (new_Monitor "DP-1" "DP-above"));
   ("B", set_resolution (ResWH 1280 1024) (new_Monitor "DP-2" "B"))].

(** The records the builder returns for [cfg_two_anchors]. *)
Definition rec_A : Monitor :=
  set_resolution (ResWH 1920 1080) (new_Monitor "DP-1" "A").

Definition rec_B : Monitor :=
  set_resolution (ResWH 1280 1024) (new_Monitor "DP-2" "B").

(** The record the builder returns for M in [cfg_mirror_scaled]. *)
Definition rec_M : Monitor :=
  {| id := "DP-2"; name := "M"; above := None; below := None; left := None;
     right := None; resolution := ResPreferred; position := PosAuto;
     align := "center"; scale := PyInt 2; extra := Some "mirror,DP-1" |}.

(** The graph the builder returns for [cfg_cycle]. *)
Definition cycle_A : Monitor :=
  set_left "B" (set_right "B"
    (set_resolution (ResWH 1024 768) (new_Monitor "DP-3" "A"))).

Definition cycle_B : Monitor :=
  set_right "A" (set_left "A"
    (set_resolution (ResWH 1280 1024) (new_Monitor "DP-2" "B"))).

(** ** setup_monitors, the apply loop *)

(** The list [applied] of the loop [for monitor in monitors:
    apply_configuration(...); applied.append(monitors[monitor].name)]. *)
Definition applied_names (ms : monitors) : list string :=
  map (fun e => name (snd e)) ms.

(** [", ".join(applied)]. *)
Fixpoint join_names (l : list string) : string :=
  match l with
  | [] => ""
  | [a] => a
  | a :: rest => a ++ ", " ++ join_names rest
  end.

(** The summary handed to [send_notification]; [None] when [applied] is
    empty and no notification is sent. *)
Definition notification (ms : monitors) : option string :=
  match applied_names ms with
  | [] => None
  | l => Some ("Applied configuration for monitors: " ++ join_names l)
  end.

(** ** EventListener.start *)

Definition newline : ascii := "010"%char.

(** [buffer.split(b'\n', 1)], guarded by [b'\n' in buffer]: the bytes before
    the first newline and the bytes after it; [None] without a newline. *)
Fixpoint split_line (buffer : string) : option (string * string) :=
  match buffer with
  | EmptyString => None
  | String c rest =>
      if Ascii.eqb c newline then Some ("", rest)
      else match split_line rest with
           | Some (data, buffer') => Some (String c data, buffer')
           | None => None
           end
  end.

(** The loop [while b'\n' in buffer: data, buffer = buffer.split(b'\n', 1);
    yield data]: the records yielded and the buffer that is left. Each round
    shortens the buffer, so its length bounds the number of rounds. *)
Fixpoint drain_rounds (rounds : nat) (buffer : string)
  : list string * string :=
  match rounds with
  | O => ([], buffer)
  | S rounds' =>
      match split_line buffer with
      | None => ([], buffer)
      | Some (data, buffer') =>
          let (records, left) := drain_rounds rounds' buffer' in
          (data :: records, left)
      end
  end.

Definition drain (buffer : string) : list string * string :=
  drain_rounds (String.length buffer) buffer.

(** The loop [while True: new_data = await reader.read(8192); ...] over the
    chunks the socket delivers; an empty chunk is the end of the stream. The
    records are the byte strings before [decode]. *)
Fixpoint read_loop (buffer : string) (chunks : list string) : list string :=
  match chunks with
  | [] => []
  | new_data :: rest =>
      if String.eqb new_data "" then []
      else
        let (records, buffer') := drain (buffer ++ new_data) in
        (records ++ read_loop buffer' rest)%list
  end.

(** [data.decode('utf-8')] on each record; the generator ends at the first
    record that does not decode. *)
Fixpoint decode_records (decode : string -> option string)
  (records : list string) : list string :=
  match records with
  | [] => []
  | data :: rest =>
      match decode data with
      | Some event => event :: decode_records decode rest
      | None => []
      end
  end.

(** The events of [EventListener.start]. *)
Definition start (decode : string -> option string) (chunks : list string)
  : list string :=
  "connect" :: decode_records decode (read_loop "" chunks).

(** ** main: the event loop and the configuration watcher *)

(** [any(event_name in event for event_name in ['monitoradded',
    'monitorremoved'])]. *)
Definition is_monitor_event (event : string) : bool :=
  existsb (fun event_name => contains event_name event)
    ["monitoradded"; "monitorremoved"].

(** One round of [monitor_config_changes] after its sleep. [stat] is the
    result of [os.path.getmtime], [None] when it raises. The value returned
    is the new [last_mtime] and whether the configuration is re-applied. A
    modification time is the exact value of the float. *)
Definition poll (last_mtime : option Q) (stat : option Q)
  : option Q * bool :=
  match stat with
  | None => (last_mtime, false)
  | Some mtime =>
      match last_mtime with
      | None => (Some mtime, false)
      | Some last =>
          if negb (Qeq_bool mtime last) then (Some mtime, true)
          else (last_mtime, false)
      end
  end.

(** What one round of the watcher meets: the result of [os.path.getmtime],
    [None] when it raises, and whether [setup_monitors], if it is run in
    this round, ends with [sys.exit(1)]. [SystemExit] is not an [Exception]:
    the [except Exception] around the call does not catch it, and the
    watcher ends there. Every other failure of the pass is caught and
    logged. *)
Definition round : Type := (option Q * bool)%type.

(** The rounds of [monitor_config_changes]: the modification times at which
    the configuration is re-applied. *)
Fixpoint watch (last_mtime : option Q) (rounds : list round) : list Q :=
  match rounds with
  | [] => []
  | (stat, exits) :: rest =>
      let (last_mtime', reapply) := poll last_mtime stat in
      match stat with
      | Some mtime =>
          if reapply
          then mtime :: (if exits then [] else watch last_mtime' rest)
          else watch last_mtime' rest
      | None => watch last_mtime' rest
      end
  end.

(** ** kill_existing_instances *)

Inductive signal : Type := SIGTERM | SIGKILL.

(** [if pid == current: continue], in the three loops over [pids]. *)
Definition others (current : Z) (pids : list Z) : list Z :=
  filter (fun pid => negb (pid =? current)) pids.

(** The list [alive] of one round of the wait loop. [probe pid] is whether
    [os.kill(pid, 0)] returns without [OSError]. *)
Definition alive_in (probe : Z -> bool) (current : Z) (pids : list Z)
  : list Z :=
  filter probe (others current pids).

(** The loop [for _ in range(6): alive = [...]; if not alive: return;
    time.sleep(0.5)] over the probes of its rounds: [None] when the function
    has returned from inside the loop, the last [alive] otherwise. *)
Fixpoint wait_loop (probes : list (Z -> bool)) (current : Z)
  (pids alive : list Z) : option (list Z) :=
  match probes with
  | [] => Some alive
  | probe :: rest =>
      match alive_in probe current pids with
      | [] => None
      | alive' => wait_loop rest current pids alive'
      end
  end.

(** The signals the function tries to send, in order. [query] is the list
    of pids parsed from the output of [pgrep], [None] when the function
    returns before the loops (the query fails, finds nothing or prints
    something that is not a number); [probe i] answers the probes of round
    [i] of the wait loop. A signal that cannot be delivered is logged or
    skipped, and the loops go on. *)
Definition kill_existing_instances (query : option (list Z)) (current : Z)
  (probe : nat -> Z -> bool) : list (signal * Z) :=
  match query with
  | None => []
  | Some pids =>
      (map (pair SIGTERM) (others current pids) ++
       match wait_loop (map probe (seq 0 6)) current pids [] with
       | None => []
       | Some alive => map (pair SIGKILL) alive
       end)%list
  end.

(** ** Auxiliary definitions for the further properties *)

(** The declared display [mc] matches exactly one physical display. *)
Definition is_selected (ds : list display) (e : string * monitor_config)
  : bool :=
  match c_match (snd e) with
  | Some mt =>
      match select_monitors ds mt with
      | Ok (Some _) => true
      | _ => false
      end
  | None => false
  end.

(** No character of the string is white space. *)
Fixpoint no_space (s : string) : bool :=
  match s with
  | EmptyString => true
  | String c s' => negb (is_space c) && no_space s'
  end.

(** No byte of the string is a newline. *)
Fixpoint no_newline (s : string) : bool :=
  match s with
  | EmptyString => true
  | String c s' => negb (Ascii.eqb c newline) && no_newline s'
  end.

(** The records with their newlines, followed by what is left: the bytes
    they were cut from. *)
Fixpoint unsplit (records : list string) (left : string) : string :=
  match records with
  | [] => left
  | data :: rest => data ++ String newline (unsplit rest left)
  end.

(** Every link of every record names a key of the mapping. *)
Definition links_closed (ms : monitors) : Prop :=
  forall p mp c,
    get p ms = Some mp ->
    above mp = Some c \/ below mp = Some c \/ left mp = Some c \/
    right mp = Some c ->
    mem c ms = true.

(** The bytes of a sequence of chunks. *)
Fixpoint join_chunks (chunks : list string) : string :=
  match chunks with
  | [] => ""
  | c :: rest => c ++ join_chunks rest
  end.

(** The rounds in which [getmtime] did not raise. *)
Definition successful_rounds (rounds : list round) : list round :=
  filter (fun r => match fst r with Some _ => true | None => false end)
    rounds.

(** The modification time of the last successful read of the rounds, the
    baseline [last] when no read succeeded. *)
Fixpoint previous_read (last : Q) (rounds : list round) : Q :=
  match rounds with
  | [] => last
  | (Some mtime, _) :: rest => previous_read mtime rest
  | (None, _) :: rest => previous_read last rest
  end.

(** Each modification time differs from the one before it, the first from
    [last]. *)
Fixpoint each_differs (last : Q) (l : list Q) : Prop :=
  match l with
  | [] => True
  | m :: rest => Qeq_bool m last = false /\ each_differs m rest
  end.

(** Example chunks of the event stream. *)
Definition chunk_head : string := "monitoradd".

Definition chunk_tail : string :=
  "ed>>DP-1" ++ String newline ("workspace>>2" ++ String newline "focus").

(** The [if 'scale' in monitor_config] block on the monitor stored under
    [k]. *)
Definition scale_effect (mc : monitor_config) (monitor k : string)
  (m : Monitor) : Monitor :=
  match c_scale mc with
  | Some v => if String.eqb k monitor then set_scale v m else m
  | None => m
  end.

(** What a record of the built graph owes to the physical display [d] that
    its declaration matched. *)
Definition record_of (d : display) (k : string) (m : Monitor) : Prop :=
  id m = d_name d /\ name m = k /\ In (align m) valid_aligns /\
  ((position m = PosUnset /\
    resolution m = ResWH (d_width d) (d_height d) /\ extra m = None) \/
   (position m = PosAuto /\ resolution m = ResPreferred /\
    exists i, extra m = Some ("mirror," ++ i))).

(** Y is declared but not attached; B is right of A. *)
Definition cfg_partial : config :=
  [("A", declare "DP-1" None None None);
   ("Y", declare "HDMI-A-1" (Some "left-of A") None None);
   ("B", declare "DP-2" (Some "right-of A") None None)].

Definition built_partial : monitors :=
  [("A", set_right "B" rec_A); ("B", set_left "A" rec_B)].

(** What in the configuration accounts for a [sys.exit(1)] of the graph
    builder, by the message it logs. *)
Definition exit_cause (cfg : config) (ds : list display) (why : fatal)
  : Prop :=
  match why with
  | NoMatchKey monitor =>
      exists mc, In (monitor, mc) cfg /\ c_match mc = None
  | AmbiguousMatch =>
      exists monitor mc mt,
        In (monitor, mc) cfg /\ c_match mc = Some mt /\
        (2 <= List.length (filter (match_found mt) ds))%nat
  | InvalidAlign monitor =>
      exists mc mt d a,
        In (monitor, mc) cfg /\ c_match mc = Some mt /\
        select_monitors ds mt = Ok (Some d) /\
        c_align mc = Some a /\ valid_align a = false
  | MonitorNotFound relative_to =>
      exists monitor mc directive,
        In (monitor, mc) cfg /\ c_position mc = Some directive /\
        py_index (py_split directive) 1 = Ok relative_to /\
        forall mc' mt d,
          In (relative_to, mc') cfg -> c_match mc' = Some mt ->
          select_monitors ds mt <> Ok (Some d)
  end.

(** The same for every way the embedded builder fails: its only exception
    is the [IndexError] of a directive of fewer than two words. *)
Definition error_cause (cfg : config) (ds : list display) (e : pyerr)
  : Prop :=
  match e with
  | SysExit why => exit_cause cfg ds why
  | IndexError =>
      exists monitor mc directive,
        In (monitor, mc) cfg /\ c_position mc = Some directive /\
        nth_error (py_split directive) 1 = None
  | _ => False
  end.

(** A mapping with a right and a below neighbour of A. *)
Definition corner : monitors :=
  [("A", set_below "C" (set_right "B" rec_A));
   ("B", set_left "A" rec_B);
   ("C", set_above "A"
           (set_resolution (ResWH 1024 768) (new_Monitor "DP-3" "C")))].

(** Two declarations, neither of which matches a connected display. *)
Definition cfg_unplugged : config :=
  [("Y", declare "HDMI-A-1" None None None);
   ("Z", declare "HDMI-A-2" (Some "right-of Y") None None)].

(** A declaration whose match selects no display at all. *)
Definition selects_nothing (ds : list display)
  (e : string * monitor_config) : Prop :=
  exists mt, c_match (snd e) = Some mt /\ select_monitors ds mt = Ok None.

(** A position the compositor can be given after normalisation: [auto], or
    coordinates that are not negative. *)
Definition on_screen (p : position_t) : Prop :=
  match p with
  | PosAuto => True
  | PosXY x y => 0 <= x /\ 0 <= y
  | PosUnset => False
  end.
(** * Properties *)

(** ** The result monad *)

Lemma bind_Ok {A B : Type} (r : result A) (k : A -> result B) (b : B) :
  bind r k = Ok b -> exists a, r = Ok a /\ k a = Ok b.
Proof.
  destruct r as [a | e]; simpl; intros H; [eauto | discriminate].
Qed.

Lemma bind_Err_l {A B : Type} (r : result A) (k : A -> result B) (e : pyerr) :
  r = Err e -> bind r k = Err e.
Proof. intros ->. reflexivity. Qed.

(** Inverts a hypothesis [bind r k = Ok b] into its two halves. *)
Ltac inv_bind H :=
  let a := fresh "a" in
  let Ha := fresh "Ha" in
  apply bind_Ok in H; destruct H as [a [Ha H]].

(** The same, with the names of the value and of its equation. *)
Tactic Notation "bind_inv" hyp(H) "as" ident(a) ident(Ha) :=
  apply bind_Ok in H; destruct H as [a [Ha H]].

(** ** The dictionary *)

Lemma get_In (k : string) (ms : monitors) (m : Monitor) :
  get k ms = Some m -> In (k, m) ms.
Proof.
  induction ms as [| [k' m'] rest IH]; simpl; [discriminate |].
  destruct (String.eqb_spec k' k) as [-> | Hne].
  - intros [= ->]. now left.
  - intros H. right. auto.
Qed.

Lemma In_get (k : string) (ms : monitors) (m : Monitor) :
  NoDup (keys ms) -> In (k, m) ms -> get k ms = Some m.
Proof.
  induction ms as [| [k' m'] rest IH]; simpl; [tauto |].
  intros Hnd [Heq | Hin].
  - inversion Heq; subst. now rewrite String.eqb_refl.
  - inversion Hnd as [| ? ? Hnot Hnd']; subst.
    destruct (String.eqb_spec k' k) as [-> | Hne]; [| auto].
    exfalso. apply Hnot. change k with (fst (k, m)). now apply in_map.
Qed.

Lemma mem_keys (k : string) (ms : monitors) :
  mem k ms = true <-> In k (keys ms).
Proof.
  unfold mem. induction ms as [| [k' m'] rest IH]; simpl.
  - split; [discriminate | tauto].
  - destruct (String.eqb_spec k' k) as [-> | Hne].
    + split; auto.
    + rewrite IH. split; [auto | intros [H | H]; [contradiction | exact H]].
Qed.

Lemma mem_get (k : string) (ms : monitors) :
  mem k ms = true <-> exists m, get k ms = Some m.
Proof.
  unfold mem. destruct (get k ms) as [m |].
  - split; eauto.
  - split; [discriminate | intros [m H]; discriminate].
Qed.

Lemma mem_same_keys (k : string) (ms ms' : monitors) :
  keys ms' = keys ms -> mem k ms' = mem k ms.
Proof.
  intros Hk.
  destruct (mem k ms) eqn:E.
  - apply mem_keys. rewrite Hk. now apply mem_keys.
  - destruct (mem k ms') eqn:E'; [| reflexivity].
    apply mem_keys in E'. rewrite Hk in E'. apply mem_keys in E'. congruence.
Qed.

Lemma keys_update (k : string) (f : Monitor -> Monitor) (ms : monitors) :
  keys (update k f ms) = keys ms.
Proof.
  unfold keys, update. rewrite map_map. apply map_ext.
  intros [k' m]; simpl. now destruct (String.eqb k' k).
Qed.

Lemma get_update (k k' : string) (f : Monitor -> Monitor) (ms : monitors) :
  get k (update k' f ms) =
  if String.eqb k k' then option_map f (get k ms) else get k ms.
Proof.
  induction ms as [| [k0 m0] rest IH]; simpl.
  - now destruct (String.eqb k k').
  - destruct (String.eqb_spec k0 k') as [-> | Hne]; simpl.
    + destruct (String.eqb_spec k' k) as [-> | Hne'].
      * now rewrite String.eqb_refl.
      * rewrite IH. reflexivity.
    + destruct (String.eqb_spec k0 k) as [-> | Hne'].
      * destruct (String.eqb_spec k k') as [-> | _]; [contradiction | easy].
      * apply IH.
Qed.

Lemma get_update_same (k : string) (f : Monitor -> Monitor) (ms : monitors) :
  get k (update k f ms) = option_map f (get k ms).
Proof. now rewrite get_update, String.eqb_refl. Qed.

Lemma get_update_other (k k' : string) (f : Monitor -> Monitor)
  (ms : monitors) :
  k <> k' -> get k (update k' f ms) = get k ms.
Proof.
  intros Hne. rewrite get_update.
  destruct (String.eqb_spec k k'); [contradiction | reflexivity].
Qed.

Lemma mem_update (k k' : string) (f : Monitor -> Monitor) (ms : monitors) :
  mem k (update k' f ms) = mem k ms.
Proof. apply mem_same_keys, keys_update. Qed.

Lemma keys_setitem_new (k : string) (v : Monitor) (ms : monitors) :
  mem k ms = false -> keys (setitem k v ms) = (keys ms ++ [k])%list.
Proof.
  unfold mem. induction ms as [| [k' m'] rest IH]; simpl; [reflexivity |].
  destruct (String.eqb_spec k' k) as [-> | Hne]; [discriminate |].
  intros H. simpl. now rewrite IH.
Qed.

Lemma keys_setitem_old (k : string) (v : Monitor) (ms : monitors) :
  mem k ms = true -> keys (setitem k v ms) = keys ms.
Proof.
  unfold mem. induction ms as [| [k' m'] rest IH]; simpl; [discriminate |].
  destruct (String.eqb_spec k' k) as [-> | Hne]; [reflexivity |].
  intros H. simpl. now rewrite IH.
Qed.

Lemma get_setitem (k k' : string) (v : Monitor) (ms : monitors) :
  get k (setitem k' v ms) = if String.eqb k' k then Some v else get k ms.
Proof.
  induction ms as [| [k0 m0] rest IH]; simpl.
  - reflexivity.
  - destruct (String.eqb_spec k0 k') as [-> | Hne]; simpl.
    + now destruct (String.eqb k' k).
    + destruct (String.eqb_spec k0 k) as [-> | Hne'].
      * destruct (String.eqb_spec k' k) as [-> | _]; [contradiction | easy].
      * apply IH.
Qed.

Lemma mem_setitem (k k' : string) (v : Monitor) (ms : monitors) :
  mem k (setitem k' v ms) = String.eqb k' k || mem k ms.
Proof.
  unfold mem. rewrite get_setitem. now destruct (String.eqb k' k).
Qed.


(** ** select_monitors and the first loop *)

Lemma set_align_invalid (a : pyval) (m : Monitor) :
  valid_align a = false -> set_align a m = Err (SysExit (InvalidAlign (name m))).
Proof.
  unfold set_align, valid_align. destruct a as [| s | | |]; try reflexivity.
  intros ->. reflexivity.
Qed.

Lemma set_align_Err (a : pyval) (m : Monitor) (e : pyerr) :
  set_align a m = Err e -> e = SysExit (InvalidAlign (name m)).
Proof.
  unfold set_align. destruct a as [| s | | |]; try congruence.
  destruct (existsb (String.eqb s) valid_aligns); congruence.
Qed.

Lemma select_monitors_Err (ds : list display) (mt : list (string * pyval))
  (e : pyerr) :
  select_monitors ds mt = Err e -> e = SysExit AmbiguousMatch.
Proof.
  unfold select_monitors. destruct (_ <? _)%nat; congruence.
Qed.

Lemma select_monitors_some_match (ds : list display)
  (mt : list (string * pyval)) (d : display) :
  In d ds -> match_found mt d = true ->
  select_monitors ds mt = Err (SysExit AmbiguousMatch) \/
  exists d', select_monitors ds mt = Ok (Some d').
Proof.
  intros Hin Hm. unfold select_monitors.
  destruct (_ <? _)%nat; [now left | right].
  assert (Hf : In d (filter (match_found mt) ds))
    by (apply filter_In; auto).
  destruct (filter (match_found mt) ds) as [| d' l]; [destruct Hf |].
  now exists d'.
Qed.

Lemma match_monitors_Err (ds : list display) (cfg : config) (ms : monitors)
  (e : pyerr) :
  match_monitors ds cfg ms = Err e -> exists why, e = SysExit why.
Proof.
  revert ms. induction cfg as [| [monitor mc] rest IH]; intros ms; simpl.
  - discriminate.
  - destruct (c_match mc) as [mt |]; [| intros [= <-]; eauto].
    destruct (select_monitors ds mt) as [[d |] | e'] eqn:Hsel; simpl.
    + destruct (c_align mc) as [a |]; simpl.
      * destruct (set_align a _) as [m' | e'] eqn:Ha; simpl.
        -- apply IH.
        -- intros [= <-]. apply set_align_Err in Ha. eauto.
      * apply IH.
    + apply IH.
    + intros [= <-]. apply select_monitors_Err in Hsel. eauto.
Qed.

(** A display that is matched and declares an invalid alignment stops the
    first loop. *)
Lemma match_monitors_invalid_align (ds : list display) (cfg : config)
  (ms : monitors) (monitor : string) (mc : monitor_config)
  (mt : list (string * pyval)) (a : pyval) (d : display) :
  In (monitor, mc) cfg -> c_match mc = Some mt -> c_align mc = Some a ->
  valid_align a = false -> In d ds -> match_found mt d = true ->
  exists why, match_monitors ds cfg ms = Err (SysExit why).
Proof.
  intros Hin Hmt Hal Hinv Hd Hfound. revert ms.
  induction cfg as [| [k c] rest IH]; intros ms; [destruct Hin |].
  destruct Hin as [Heq | Hin].
  - inversion Heq; subst k c. simpl. rewrite Hmt.
    destruct (select_monitors_some_match ds mt d Hd Hfound)
      as [-> | [d' ->]]; simpl; [eauto |].
    rewrite Hal. rewrite set_align_invalid by assumption. simpl. eauto.
  - specialize (IH Hin).
    destruct (match_monitors ds ((k, c) :: rest) ms) as [ms' | e] eqn:E.
    + exfalso. simpl in E.
      destruct (c_match c) as [mt0 |]; [| discriminate].
      destruct (select_monitors ds mt0) as [[d0 |] | e'];
        simpl in E; try discriminate.
      * destruct (c_align c) as [a0 |]; simpl in E.
        -- destruct (set_align a0 _) as [m' | e']; simpl in E;
             [| discriminate].
           destruct (IH (setitem k m' ms)) as [why Hw]. congruence.
        -- match type of E with
           | match_monitors _ _ ?s = _ => destruct (IH s) as [why Hw]
           end. congruence.
      * destruct (IH ms) as [why Hw]. congruence.
    + apply match_monitors_Err in E. destruct E as [why ->]. eauto.
Qed.

(** The keys after the first loop: those already present and the declared
    names whose match selected a display. *)
Lemma match_monitors_mem (ds : list display) (cfg : config)
  (ms0 ms : monitors) (k : string) :
  match_monitors ds cfg ms0 = Ok ms ->
  (mem k ms = true <->
   mem k ms0 = true \/
   exists mc mt d, In (k, mc) cfg /\ c_match mc = Some mt /\
                   select_monitors ds mt = Ok (Some d)).
Proof.
  revert ms0. induction cfg as [| [monitor mc] rest IH]; intros ms0; simpl.
  - intros [= ->]. split; [auto |].
    intros [H | (mc & mt & d & [] & _)]. exact H.
  - destruct (c_match mc) as [mt |] eqn:Hmt; [| discriminate].
    destruct (select_monitors ds mt) as [[d |] | e'] eqn:Hsel; simpl;
      [| | discriminate].
    + destruct (match c_align mc with Some a => set_align a _ | None => _ end)
        as [m' | e'] eqn:Ha; simpl; [| discriminate].
      intros H. rewrite (IH _ H). rewrite mem_setitem.
      split.
      * intros [Hk | (mc' & mt' & d' & Hin & H1 & H2)].
        -- apply orb_true_iff in Hk. destruct Hk as [Hk | Hk]; [| auto].
           apply String.eqb_eq in Hk. subst k. right.
           exists mc, mt, d. auto.
        -- right. exists mc', mt', d'. auto.
      * intros [Hk | (mc' & mt' & d' & [Heq | Hin] & H1 & H2)].
        -- left. rewrite Hk. apply orb_true_r.
        -- inversion Heq; subst. left. now rewrite String.eqb_refl.
        -- right. exists mc', mt', d'. auto.
    + intros H. rewrite (IH _ H). split.
      * intros [Hk | (mc' & mt' & d' & Hin & H1 & H2)]; [auto |].
        right. exists mc', mt', d'. auto.
      * intros [Hk | (mc' & mt' & d' & [Heq | Hin] & H1 & H2)]; [auto | |].
        -- inversion Heq; subst. congruence.
        -- right. exists mc', mt', d'. auto.
Qed.

(** ** The wiring of one directive *)

Lemma get_pair_update (c : bool) (monitor relative_to k : string)
  (f g : Monitor -> Monitor) (ms : monitors) :
  get k (if c then update relative_to g (update monitor f ms) else ms) =
  option_map (pair_effect c monitor relative_to k f g) (get k ms).
Proof.
  unfold pair_effect. destruct c.
  - rewrite !get_update.
    destruct (String.eqb k relative_to), (String.eqb k monitor),
      (get k ms); reflexivity.
  - now destruct (get k ms).
Qed.

Lemma wire_same_as_Ok (monitor relative_to directive : string)
  (ms : monitors) (r0 : Monitor) :
  get relative_to ms = Some r0 ->
  exists ms',
    wire_same_as monitor relative_to directive ms = Ok ms' /\
    forall k, get k ms' =
              option_map (same_as_effect (contains "same-as" directive)
                            monitor k (id r0)) (get k ms).
Proof.
  intros Hr. unfold wire_same_as, same_as_effect.
  destruct (contains "same-as" directive); simpl.
  - unfold getitem. rewrite !get_update, Hr.
    destruct (String.eqb relative_to monitor); simpl;
      (eexists; split; [reflexivity |]);
      intros k; rewrite !get_update;
      destruct (String.eqb k monitor), (get k ms); reflexivity.
  - exists ms. split; [reflexivity |]. intros k. now destruct (get k ms).
Qed.

Lemma get_wire_above (monitor relative_to directive k : string)
  (ms : monitors) :
  get k (wire_above monitor relative_to directive ms) =
  option_map (pair_effect (contains "above" directive) monitor relative_to k
                (set_below relative_to) (set_above monitor)) (get k ms).
Proof. apply get_pair_update. Qed.

Lemma get_wire_below (monitor relative_to directive k : string)
  (ms : monitors) :
  get k (wire_below monitor relative_to directive ms) =
  option_map (pair_effect (contains "below" directive) monitor relative_to k
                (set_above relative_to) (set_below monitor)) (get k ms).
Proof. apply get_pair_update. Qed.

Lemma get_wire_left_of (monitor relative_to directive k : string)
  (ms : monitors) :
  get k (wire_left_of monitor relative_to directive ms) =
  option_map (pair_effect (contains "left-of" directive) monitor relative_to
                k (set_right relative_to) (set_left monitor)) (get k ms).
Proof. apply get_pair_update. Qed.

Lemma get_wire_right_of (monitor relative_to directive k : string)
  (ms : monitors) :
  get k (wire_right_of monitor relative_to directive ms) =
  option_map (pair_effect (contains "right-of" directive) monitor relative_to
                k (set_left relative_to) (set_right monitor)) (get k ms).
Proof. apply get_pair_update. Qed.

Lemma get_wire_directions (monitor relative_to directive k : string)
  (ms : monitors) :
  get k (wire_right_of monitor relative_to directive
           (wire_left_of monitor relative_to directive
              (wire_below monitor relative_to directive
                 (wire_above monitor relative_to directive ms)))) =
  option_map (directions_effect monitor relative_to directive k) (get k ms).
Proof.
  rewrite get_wire_right_of, get_wire_left_of, get_wire_below,
    get_wire_above.
  now destruct (get k ms).
Qed.

Lemma id_directions_effect (monitor relative_to directive k : string)
  (m : Monitor) :
  id (directions_effect monitor relative_to directive k m) = id m.
Proof.
  unfold directions_effect, pair_effect.
  destruct (contains "right-of" directive), (contains "left-of" directive),
    (contains "below" directive), (contains "above" directive),
    (String.eqb k monitor), (String.eqb k relative_to); reflexivity.
Qed.

(** [wire_position] succeeds as soon as the directive has a second word that
    names a known monitor, and its effect on every monitor is the composition
    of the five blocks. *)
Lemma wire_position_Ok (monitor directive relative_to : string)
  (ms : monitors) (r0 : Monitor) :
  py_index (py_split directive) 1 = Ok relative_to ->
  get relative_to ms = Some r0 ->
  exists ms',
    wire_position monitor directive ms = Ok ms' /\
    forall k, get k ms' =
              option_map
                (fun m => same_as_effect (contains "same-as" directive)
                            monitor k (id r0)
                            (directions_effect monitor relative_to directive
                               k m))
                (get k ms).
Proof.
  intros Hidx Hr.
  unfold wire_position. rewrite Hidx. cbn [bind].
  assert (Hmem : mem relative_to ms = true) by (apply mem_get; eauto).
  rewrite Hmem. cbn [negb].
  match goal with
  | |- context [wire_same_as _ _ _ ?s] =>
      destruct (@wire_same_as_Ok monitor relative_to directive s
                  (directions_effect monitor relative_to directive
                     relative_to r0)) as [ms' [Hw Hget]]
  end.
  { now rewrite get_wire_directions, Hr. }
  exists ms'. split; [exact Hw |].
  intros k. rewrite Hget, get_wire_directions, id_directions_effect.
  now destruct (get k ms).
Qed.

(** C10. The directive is classified by the keywords it contains, anywhere
    in the string, and the five tests are independent: as soon as the second
    word names a known display, the block succeeds and the links (or the
    mirror fields) of every keyword the string contains are in the result,
    several pairs between the same two displays when several keywords
    occur. *)
Theorem wire_position_fires_every_branch
  (monitor directive relative_to : string) (ms : monitors) :
  py_index (py_split directive) 1 = Ok relative_to ->
  mem monitor ms = true ->
  mem relative_to ms = true ->
  exists ms' m r r0,
    wire_position monitor directive ms = Ok ms' /\
    get monitor ms' = Some m /\ get relative_to ms' = Some r /\
    get relative_to ms = Some r0 /\
    (contains "above" directive = true ->
     below m = Some relative_to /\ above r = Some monitor) /\
    (contains "below" directive = true ->
     above m = Some relative_to /\ below r = Some monitor) /\
    (contains "left-of" directive = true ->
     right m = Some relative_to /\ left r = Some monitor) /\
    (contains "right-of" directive = true ->
     left m = Some relative_to /\ right r = Some monitor) /\
    (contains "same-as" directive = true ->
     position m = PosAuto /\ resolution m = ResPreferred /\
     scale m = PyStr "1" /\ extra m = Some ("mirror," ++ id r0)).
Proof.
  intros Hidx Hm Hr.
  apply mem_get in Hm. destruct Hm as [m0 Hm0].
  apply mem_get in Hr. destruct Hr as [r0 Hr0].
  destruct (@wire_position_Ok monitor directive relative_to ms r0 Hidx Hr0)
    as [ms' [Hw Hget]].
  pose proof (Hget monitor) as HM. pose proof (Hget relative_to) as HR.
  rewrite Hm0 in HM. rewrite Hr0 in HR. cbn [option_map] in HM, HR.
  eexists ms', _, _, r0. split; [exact Hw |].
  split; [exact HM |]. split; [exact HR |]. split; [exact Hr0 |].
  unfold same_as_effect, directions_effect, pair_effect.
  rewrite !String.eqb_refl.
  destruct (String.eqb_spec monitor relative_to) as [Heq | Hne].
  - subst relative_to. rewrite !String.eqb_refl.
    destruct (contains "above" directive), (contains "below" directive),
      (contains "left-of" directive), (contains "right-of" directive),
      (contains "same-as" directive); simpl;
    repeat split; intros; try reflexivity; try discriminate.
  - assert (Hne' : String.eqb relative_to monitor = false)
      by (apply String.eqb_neq; congruence).
    rewrite !Hne'.
    destruct (contains "above" directive), (contains "below" directive),
      (contains "left-of" directive), (contains "right-of" directive),
      (contains "same-as" directive); simpl;
    repeat split; intros; try reflexivity; try discriminate.
Qed.

(** ** The second loop *)

Lemma wire_position_Err (monitor directive : string) (ms : monitors)
  (e : pyerr) :
  wire_position monitor directive ms = Err e -> build_error e.
Proof.
  unfold wire_position, py_index.
  destruct (nth_error (py_split directive) 1) as [r |] eqn:Hidx;
    cbn [bind]; [| intros [= <-]; now left].
  destruct (mem r ms) eqn:Hmem; cbn [negb].
  - apply mem_get in Hmem. destruct Hmem as [r0 Hr0].
    assert (Hidx' : py_index (py_split directive) 1 = Ok r)
      by (unfold py_index; now rewrite Hidx).
    destruct (@wire_position_Ok monitor directive r ms r0 Hidx' Hr0)
      as [ms' [Hw _]].
    unfold wire_position in Hw. rewrite Hidx' in Hw. cbn [bind] in Hw.
    assert (Hmem : mem r ms = true) by (apply mem_get; eauto).
    rewrite Hmem in Hw. cbn [negb] in Hw. rewrite Hw. discriminate.
  - intros [= <-]. right. eauto.
Qed.

Lemma wire_position_mem (monitor directive : string) (ms ms' : monitors)
  (k : string) :
  wire_position monitor directive ms = Ok ms' -> mem k ms' = mem k ms.
Proof.
  intros Hw. unfold wire_position in Hw.
  destruct (py_index (py_split directive) 1) as [r |] eqn:Hidx;
    cbn [bind] in Hw; [| discriminate].
  destruct (mem r ms) eqn:Hmem; cbn [negb] in Hw; [| discriminate].
  apply mem_get in Hmem. destruct Hmem as [r0 Hr0].
  destruct (@wire_position_Ok monitor directive r ms r0 Hidx Hr0)
    as [ms2 [Hw2 Hget]].
  unfold wire_position in Hw2. rewrite Hidx in Hw2. cbn [bind] in Hw2.
  assert (Hmem : mem r ms = true) by (apply mem_get; eauto).
  rewrite Hmem in Hw2. cbn [negb] in Hw2.
  rewrite Hw in Hw2. injection Hw2 as <-.
  unfold mem. rewrite Hget. now destruct (get k ms).
Qed.

Lemma organize_one_Err (monitor : string) (mc : monitor_config)
  (ms : monitors) (e : pyerr) :
  organize_one monitor mc ms = Err e -> build_error e.
Proof.
  unfold organize_one. destruct (c_position mc) as [directive |].
  - destruct (wire_position monitor directive ms) eqn:Hw; cbn [bind].
    + discriminate.
    + intros [= <-]. eapply wire_position_Err; eauto.
  - discriminate.
Qed.

Lemma organize_one_mem (monitor : string) (mc : monitor_config)
  (ms ms' : monitors) (k : string) :
  organize_one monitor mc ms = Ok ms' -> mem k ms' = mem k ms.
Proof.
  unfold organize_one. intros H. inv_bind H. injection H as <-.
  assert (Hk : mem k a = mem k ms).
  { destruct (c_position mc) as [directive |].
    - eapply wire_position_mem; eauto.
    - now injection Ha as <-. }
  destruct (c_scale mc); [rewrite mem_update |]; exact Hk.
Qed.

Lemma organize_monitors_Err (cfg : config) (ms : monitors) (e : pyerr) :
  organize_monitors cfg ms = Err e -> build_error e.
Proof.
  revert ms. induction cfg as [| [monitor mc] rest IH]; intros ms; simpl.
  - discriminate.
  - destruct (mem monitor ms); cbn [negb]; [| apply IH].
    destruct (organize_one monitor mc ms) eqn:H1; cbn [bind].
    + apply IH.
    + intros [= <-]. eapply organize_one_Err; eauto.
Qed.

Lemma organize_monitors_mem (cfg : config) (ms ms' : monitors) (k : string) :
  organize_monitors cfg ms = Ok ms' -> mem k ms' = mem k ms.
Proof.
  revert ms. induction cfg as [| [monitor mc] rest IH]; intros ms; simpl.
  - now intros [= ->].
  - destruct (mem monitor ms); cbn [negb]; [| apply IH].
    intros H. inv_bind H. rewrite (IH _ H).
    eapply organize_one_mem; eauto.
Qed.

(** A directive that names a monitor missing from the dictionary stops the
    second loop. *)
Lemma organize_monitors_unknown (cfg : config) (ms : monitors)
  (monitor : string) (mc : monitor_config) (directive relative_to : string) :
  In (monitor, mc) cfg -> mem monitor ms = true ->
  c_position mc = Some directive ->
  py_index (py_split directive) 1 = Ok relative_to ->
  mem relative_to ms = false ->
  exists e, organize_monitors cfg ms = Err e /\ build_error e.
Proof.
  intros Hin Hm Hpos Hidx Hr. revert ms Hm Hr.
  induction cfg as [| [k c] rest IH]; intros ms Hm Hr; [destruct Hin |].
  destruct (organize_monitors ((k, c) :: rest) ms) as [ms' | e] eqn:E.
  - exfalso. simpl in E. destruct Hin as [Heq | Hin].
    + inversion Heq; subst k c. rewrite Hm in E. cbn [negb] in E.
      unfold organize_one, wire_position in E.
      rewrite Hpos, Hidx in E. cbn [bind] in E. rewrite Hr in E.
      discriminate.
    + destruct (mem k ms) eqn:Hk; cbn [negb] in E.
      * inv_bind E.
        destruct (IH Hin a) as [e [He _]].
        -- erewrite organize_one_mem; eauto.
        -- erewrite organize_one_mem; eauto.
        -- congruence.
      * destruct (IH Hin ms Hm Hr) as [e [He _]]. congruence.
  - exists e. split; [reflexivity |]. eapply organize_monitors_Err; eauto.
Qed.

Lemma build_graph_Err (cfg : config) (ds : list display) (e : pyerr) :
  build_graph cfg ds = Err e -> build_error e.
Proof.
  unfold build_graph.
  destruct (match_monitors ds cfg []) as [ms | e'] eqn:H1; cbn [bind].
  - apply organize_monitors_Err.
  - intros [= <-]. right. eapply match_monitors_Err; eauto.
Qed.

(** ** Claims on graph construction *)

(** C2, as amended. A display whose directive names a display that no
    physical display matched does not get skipped: the pass stops during
    graph construction with [sys.exit(1)] (or with the [IndexError] of an
    earlier one-word directive), so nothing is placed and nothing is
    applied. *)
Theorem unmatched_reference_is_fatal (fuel : nat) (cfg : config)
  (ds : list display) (X Y directive : string) (cx : monitor_config)
  (mt : list (string * pyval)) (d : display) :
  In (X, cx) cfg ->
  c_match cx = Some mt ->
  select_monitors ds mt = Ok (Some d) ->
  c_position cx = Some directive ->
  py_index (py_split directive) 1 = Ok Y ->
  (forall cy mt', In (Y, cy) cfg -> c_match cy = Some mt' ->
                  select_monitors ds mt' = Ok None) ->
  exists e, setup_monitors fuel cfg ds = Err e /\ build_error e.
Proof.
  intros Hin Hmt Hsel Hpos Hidx HY.
  unfold setup_monitors.
  destruct (build_graph cfg ds) as [ms | e] eqn:Hb.
  - exfalso. unfold build_graph in Hb. inv_bind Hb.
    assert (HX : mem X a = true).
    { apply (@match_monitors_mem ds cfg [] a X Ha). right. exists cx, mt, d. auto. }
    assert (HYn : mem Y a = false).
    { destruct (mem Y a) eqn:E; [| reflexivity].
      apply (@match_monitors_mem ds cfg [] a Y Ha) in E.
      destruct E as [E | (cy & mt' & d' & Hin' & H1 & H2)];
        [discriminate |].
      rewrite (HY cy mt' Hin' H1) in H2. discriminate. }
    destruct (@organize_monitors_unknown cfg a X cx directive Y
                Hin HX Hpos Hidx HYn) as [e [He _]].
    congruence.
  - exists e. split; [reflexivity |]. eapply build_graph_Err; eauto.
Qed.

(** C4, as amended. An alignment value outside the five names, declared for
    a display that some physical display matches, is not replaced by
    [center]: the pass stops in the first loop with [sys.exit(1)], and
    nothing is placed or applied. *)
Theorem invalid_align_is_fatal (fuel : nat) (cfg : config)
  (ds : list display) (monitor : string) (mc : monitor_config)
  (mt : list (string * pyval)) (a : pyval) (d : display) :
  In (monitor, mc) cfg ->
  c_match mc = Some mt ->
  c_align mc = Some a ->
  valid_align a = false ->
  In d ds ->
  match_found mt d = true ->
  exists why, setup_monitors fuel cfg ds = Err (SysExit why).
Proof.
  intros Hin Hmt Hal Hinv Hd Hfound.
  destruct (@match_monitors_invalid_align ds cfg [] monitor mc mt a d
              Hin Hmt Hal Hinv Hd Hfound) as [why Hw].
  exists why. unfold setup_monitors, build_graph. now rewrite Hw.
Qed.

(** ** What the two loops store *)

Lemma set_align_Ok (a : pyval) (m m' : Monitor) :
  set_align a m = Ok m' ->
  In (align m') valid_aligns /\
  id m' = id m /\ name m' = name m /\ above m' = above m /\
  below m' = below m /\ left m' = left m /\ right m' = right m /\
  resolution m' = resolution m /\ position m' = position m /\
  scale m' = scale m /\ extra m' = extra m.
Proof.
  unfold set_align. destruct a as [| s | | |]; try discriminate.
  destruct (existsb (String.eqb s) valid_aligns) eqn:E; [| discriminate].
  intros [= <-]. cbn. repeat split.
  apply existsb_exists in E. destruct E as [x [Hx Heq]].
  apply String.eqb_eq in Heq. now subst x.
Qed.

Lemma match_monitors_get (ds : list display) (cfg : config)
  (ms0 ms : monitors) (k : string) (m : Monitor) :
  match_monitors ds cfg ms0 = Ok ms -> get k ms = Some m ->
  get k ms0 = Some m \/
  exists mc mt d, In (k, mc) cfg /\ c_match mc = Some mt /\
                  select_monitors ds mt = Ok (Some d) /\
                  initial_record d k m.
Proof.
  revert ms0. induction cfg as [| [monitor mc] rest IH]; intros ms0; simpl.
  - intros [= ->]. auto.
  - destruct (c_match mc) as [mt |] eqn:Hmt; [| discriminate].
    destruct (select_monitors ds mt) as [[d |] | e'] eqn:Hsel; simpl;
      [| | discriminate].
    + destruct (match c_align mc with Some a => set_align a _ | None => _ end)
        as [m' | e'] eqn:Ha; simpl; [| discriminate].
      intros H Hg. destruct (IH _ H Hg) as [H0 | (mc' & mt' & d' & Hin & R)].
      * rewrite get_setitem in H0.
        destruct (String.eqb_spec monitor k) as [-> | Hne]; [| auto].
        injection H0 as ->. right. exists mc, mt, d.
        split; [now left |]. split; [exact Hmt |]. split; [exact Hsel |].
        destruct (c_align mc) as [a |].
        -- apply set_align_Ok in Ha. unfold initial_record.
           destruct Ha as (H1 & H2 & H3 & H4 & H5 & H6 & H7 & H8 & H9 & H10
                           & H11).
           rewrite H2, H3, H4, H5, H6, H7, H8, H9, H10, H11. cbn.
           repeat split; auto.
        -- injection Ha as <-. unfold initial_record. cbn.
           repeat split; auto. unfold valid_aligns. cbn. tauto.
      * right. exists mc', mt', d'. split; [now right | exact R].
    + intros H Hg. destruct (IH _ H Hg) as [H0 | (mc' & mt' & d' & Hin & R)];
        [auto |].
      right. exists mc', mt', d'. split; [now right | exact R].
Qed.

Lemma NoDup_keys_setitem (k : string) (v : Monitor) (ms : monitors) :
  NoDup (keys ms) -> NoDup (keys (setitem k v ms)).
Proof.
  intros Hnd. destruct (mem k ms) eqn:E.
  - now rewrite keys_setitem_old.
  - rewrite keys_setitem_new by assumption.
    apply NoDup_app; [exact Hnd | repeat constructor; auto | ].
    intros x Hx [<- | []]. apply mem_keys in Hx. congruence.
Qed.

Lemma match_monitors_NoDup (ds : list display) (cfg : config)
  (ms0 ms : monitors) :
  match_monitors ds cfg ms0 = Ok ms -> NoDup (keys ms0) -> NoDup (keys ms).
Proof.
  revert ms0. induction cfg as [| [monitor mc] rest IH]; intros ms0; simpl.
  - now intros [= ->].
  - destruct (c_match mc) as [mt |]; [| discriminate].
    destruct (select_monitors ds mt) as [[d |] | e']; simpl;
      [| apply IH | discriminate].
    destruct (match c_align mc with Some a => set_align a _ | None => _ end)
      as [m' | e']; simpl; [| discriminate].
    intros H Hnd. apply (IH _ H). now apply NoDup_keys_setitem.
Qed.

Lemma same_core_refl (m : Monitor) : same_core m m.
Proof. unfold same_core. tauto. Qed.

Lemma same_core_trans (m1 m2 m3 : Monitor) :
  same_core m1 m2 -> same_core m2 m3 -> same_core m1 m3.
Proof.
  unfold same_core. intros (A1 & A2 & A3 & A4 & A5 & A6 & A7)
    (B1 & B2 & B3 & B4 & B5 & B6 & B7).
  repeat split; congruence.
Qed.

Lemma same_core_directions_effect (monitor relative_to directive k : string)
  (m : Monitor) :
  same_core m (directions_effect monitor relative_to directive k m).
Proof.
  unfold directions_effect, pair_effect, same_core.
  destruct (contains "right-of" directive), (contains "left-of" directive),
    (contains "below" directive), (contains "above" directive),
    (String.eqb k monitor), (String.eqb k relative_to); cbn; tauto.
Qed.

(** Inversion of a successful [wire_position]. *)
Lemma wire_position_inv (monitor directive : string) (ms ms' : monitors) :
  wire_position monitor directive ms = Ok ms' ->
  exists relative_to r0,
    py_index (py_split directive) 1 = Ok relative_to /\
    get relative_to ms = Some r0 /\
    forall k, get k ms' =
              option_map
                (fun m => same_as_effect (contains "same-as" directive)
                            monitor k (id r0)
                            (directions_effect monitor relative_to directive
                               k m))
                (get k ms).
Proof.
  intros Hw. pose proof Hw as Hw0. unfold wire_position in Hw.
  destruct (py_index (py_split directive) 1) as [r |] eqn:Hidx;
    cbn [bind] in Hw; [| discriminate].
  destruct (mem r ms) eqn:Hmem; cbn [negb] in Hw; [| discriminate].
  apply mem_get in Hmem. destruct Hmem as [r0 Hr0].
  destruct (@wire_position_Ok monitor directive r ms r0 Hidx Hr0)
    as [ms2 [Hw2 Hget]].
  rewrite Hw0 in Hw2. injection Hw2 as <-.
  exists r, r0. auto.
Qed.

(** The effect of one iteration of the second loop on another monitor:
    links only. *)
Lemma organize_one_frame (monitor : string) (mc : monitor_config)
  (ms ms' : monitors) (k : string) (m : Monitor) :
  organize_one monitor mc ms = Ok ms' -> k <> monitor ->
  get k ms = Some m ->
  exists m', get k ms' = Some m' /\ same_core m m'.
Proof.
  unfold organize_one. intros H Hne Hg. inv_bind H. injection H as <-.
  assert (Hk : exists m', get k a = Some m' /\ same_core m m').
  { destruct (c_position mc) as [directive |].
    - apply wire_position_inv in Ha.
      destruct Ha as (r & r0 & _ & _ & Hget).
      rewrite Hget, Hg. cbn [option_map]. eexists. split; [reflexivity |].
      unfold same_as_effect.
      destruct (String.eqb_spec k monitor); [contradiction |].
      rewrite andb_false_r. apply same_core_directions_effect.
    - injection Ha as <-. exists m. split; [exact Hg | apply same_core_refl]. }
  destruct (c_scale mc); [rewrite get_update_other by assumption |];
    exact Hk.
Qed.

(** One iteration of the second loop keeps every identifier. *)
Lemma organize_one_id (monitor : string) (mc : monitor_config)
  (ms ms' : monitors) (k : string) (m : Monitor) :
  organize_one monitor mc ms = Ok ms' -> get k ms = Some m ->
  exists m', get k ms' = Some m' /\ id m' = id m.
Proof.
  unfold organize_one. intros H Hg. inv_bind H. injection H as <-.
  assert (Hk : exists m', get k a = Some m' /\ id m' = id m).
  { destruct (c_position mc) as [directive |].
    - apply wire_position_inv in Ha.
      destruct Ha as (r & r0 & _ & _ & Hget).
      rewrite Hget, Hg. cbn [option_map]. eexists. split; [reflexivity |].
      unfold same_as_effect.
      destruct (_ && _); cbn; apply same_core_directions_effect.
    - injection Ha as <-. exists m. auto. }
  destruct Hk as [m' [Hm' Hid]].
  destruct (c_scale mc) as [s |]; [| eauto].
  rewrite get_update, Hm'. destruct (String.eqb k monitor); cbn; eauto.
Qed.

Lemma organize_monitors_frame (cfg : config) (ms ms' : monitors)
  (k : string) (m : Monitor) :
  organize_monitors cfg ms = Ok ms' -> ~ In k (map fst cfg) ->
  get k ms = Some m ->
  exists m', get k ms' = Some m' /\ same_core m m'.
Proof.
  revert ms m. induction cfg as [| [monitor mc] rest IH]; intros ms m; simpl.
  - intros [= ->] _ Hg. exists m. split; [exact Hg | apply same_core_refl].
  - intros H Hnot Hg.
    assert (Hne : k <> monitor) by (intros ->; apply Hnot; now left).
    assert (Hnot' : ~ In k (map fst rest)) by (intros Hc; apply Hnot; now right).
    destruct (mem monitor ms); cbn [negb] in H; [| eapply IH; eauto].
    inv_bind H.
    destruct (@organize_one_frame monitor mc ms a k m Ha Hne Hg)
      as [m1 [Hg1 Hc1]].
    destruct (IH a m1 H Hnot' Hg1) as [m2 [Hg2 Hc2]].
    exists m2. split; [exact Hg2 |]. eapply same_core_trans; eauto.
Qed.

Lemma organize_monitors_id (cfg : config) (ms ms' : monitors)
  (k : string) (m : Monitor) :
  organize_monitors cfg ms = Ok ms' -> get k ms = Some m ->
  exists m', get k ms' = Some m' /\ id m' = id m.
Proof.
  revert ms m. induction cfg as [| [monitor mc] rest IH]; intros ms m; simpl.
  - intros [= ->] Hg. eauto.
  - intros H Hg.
    destruct (mem monitor ms); cbn [negb] in H; [| eapply IH; eauto].
    inv_bind H.
    destruct (@organize_one_id monitor mc ms a k m Ha Hg) as [m1 [Hg1 Hi1]].
    destruct (IH a m1 H Hg1) as [m2 [Hg2 Hi2]].
    exists m2. split; [exact Hg2 | congruence].
Qed.

(** The record of a [same-as] display right after its own iteration. *)
Lemma organize_one_same_as (monitor : string) (mc : monitor_config)
  (ms ms' : monitors) (directive relative_to : string) (m' : Monitor) :
  organize_one monitor mc ms = Ok ms' ->
  c_position mc = Some directive ->
  contains "same-as" directive = true ->
  py_index (py_split directive) 1 = Ok relative_to ->
  get monitor ms' = Some m' ->
  position m' = PosAuto /\ resolution m' = ResPreferred /\
  scale m' = match c_scale mc with Some s => s | None => PyStr "1" end /\
  exists r0, get relative_to ms = Some r0 /\
             extra m' = Some ("mirror," ++ id r0).
Proof.
  unfold organize_one. intros H Hpos Hc Hidx Hg.
  rewrite Hpos in H. inv_bind H. injection H as <-.
  apply wire_position_inv in Ha.
  destruct Ha as (r & r0 & Hidx' & Hr0 & Hget).
  rewrite Hidx in Hidx'. injection Hidx' as <-.
  assert (Hm : exists m1, get monitor a = Some m1 /\
                 position m1 = PosAuto /\ resolution m1 = ResPreferred /\
                 scale m1 = PyStr "1" /\
                 extra m1 = Some ("mirror," ++ id r0)).
  { destruct (get monitor a) as [m1 |] eqn:E.
    - exists m1. split; [reflexivity |].
      rewrite Hget in E. destruct (get monitor ms) as [m0 |];
        [| discriminate].
      cbn [option_map] in E. injection E as <-.
      unfold same_as_effect. rewrite Hc, String.eqb_refl. cbn. auto.
    - exfalso. destruct (c_scale mc); [rewrite get_update_same in Hg |];
        rewrite E in Hg; discriminate. }
  destruct Hm as (m1 & Hm1 & P1 & P2 & P3 & P4).
  destruct (c_scale mc) as [s |].
  - rewrite get_update_same, Hm1 in Hg. injection Hg as <-. cbn.
    repeat split; auto. exists r0. auto.
  - rewrite Hm1 in Hg. injection Hg as <-.
    repeat split; auto. exists r0. auto.
Qed.

Lemma organize_monitors_same_as (cfg : config) (ms ms' : monitors)
  (monitor : string) (mc : monitor_config) (directive relative_to : string)
  (m' : Monitor) :
  NoDup (map fst cfg) -> In (monitor, mc) cfg ->
  organize_monitors cfg ms = Ok ms' ->
  c_position mc = Some directive ->
  contains "same-as" directive = true ->
  py_index (py_split directive) 1 = Ok relative_to ->
  get monitor ms' = Some m' ->
  position m' = PosAuto /\ resolution m' = ResPreferred /\
  scale m' = match c_scale mc with Some s => s | None => PyStr "1" end /\
  exists r0 x, get relative_to ms = Some r0 /\ get relative_to ms' = Some x /\
               id x = id r0 /\ extra m' = Some ("mirror," ++ id x).
Proof.
  intros Hnd Hin H Hpos Hc Hidx Hg. revert ms H.
  induction cfg as [| [k c] rest IH]; intros ms H; [destruct Hin |].
  inversion Hnd as [| ? ? Hnot Hnd']; subst. simpl in H.
  destruct Hin as [Heq | Hin].
  - inversion Heq; subst k c. clear Heq.
    destruct (mem monitor ms) eqn:Hmem; cbn [negb] in H.
    + inv_bind H.
      assert (Hg1 : exists m1, get monitor a = Some m1).
      { apply mem_get. erewrite organize_one_mem; eauto. }
      destruct Hg1 as [m1 Hg1].
      destruct (@organize_one_same_as monitor mc ms a directive relative_to
                  m1 Ha Hpos Hc Hidx Hg1)
        as (P1 & P2 & P3 & r0 & Hr0 & P4).
      destruct (@organize_monitors_frame rest a ms' monitor m1 H Hnot Hg1)
        as [m2 [Hg2 (C1 & C2 & C3 & C4 & C5 & C6 & C7)]].
      rewrite Hg in Hg2. injection Hg2 as <-.
      destruct (@organize_one_id monitor mc ms a relative_to r0 Ha Hr0)
        as [r1 [Hr1 Hi1]].
      destruct (@organize_monitors_id rest a ms' relative_to r1 H Hr1)
        as [x [Hx Hi2]].
      repeat split; try congruence.
      exists r0, x. repeat split; congruence.
    + exfalso.
      assert (E : mem monitor ms' = mem monitor ms)
        by (eapply organize_monitors_mem; eauto).
      rewrite Hmem in E. unfold mem in E. rewrite Hg in E. discriminate.
  - destruct (mem k ms) eqn:Hmem; cbn [negb] in H.
    + inv_bind H.
      destruct (IH Hnd' Hin a H) as (P1 & P2 & P3 & r0 & x & Hr0 & Hx & Hi & P4).
      repeat split; auto.
      assert (Hr : exists r, get relative_to ms = Some r).
      { apply mem_get. erewrite <- organize_one_mem by eauto.
        apply mem_get. eauto. }
      destruct Hr as [r Hr].
      destruct (@organize_one_id k c ms a relative_to r Ha Hr)
        as [r1 [Hr1 Hi1]].
      exists r, x. repeat split; congruence.
    + apply (IH Hnd' Hin ms H).
Qed.

(** C3, as amended. The record built for a display declared [same-as X] has
    position [auto], resolution [preferred] and the extra field
    [mirror,<physical name of X>]; its scale is the scale declared for it
    when there is one, and the string [1] only when none is declared. *)
Theorem same_as_record (cfg : config) (ds : list display) (ms : monitors)
  (monitor directive X : string) (mc : monitor_config) (m : Monitor) :
  NoDup (map fst cfg) ->
  build_graph cfg ds = Ok ms ->
  In (monitor, mc) cfg ->
  c_position mc = Some directive ->
  contains "same-as" directive = true ->
  py_index (py_split directive) 1 = Ok X ->
  get monitor ms = Some m ->
  position m = PosAuto /\ resolution m = ResPreferred /\
  scale m = match c_scale mc with Some s => s | None => PyStr "1" end /\
  exists cX mtX dX,
    In (X, cX) cfg /\ c_match cX = Some mtX /\
    select_monitors ds mtX = Ok (Some dX) /\
    extra m = Some ("mirror," ++ d_name dX).
Proof.
  intros Hnd Hb Hin Hpos Hc Hidx Hg.
  unfold build_graph in Hb. inv_bind Hb.
  destruct (@organize_monitors_same_as cfg a ms monitor mc directive X m
              Hnd Hin Hb Hpos Hc Hidx Hg)
    as (P1 & P2 & P3 & r0 & x & Hr0 & Hx & Hi & P4).
  repeat split; auto.
  destruct (@match_monitors_get ds cfg [] a X r0 Ha Hr0)
    as [H0 | (cX & mtX & dX & HinX & HmX & HsX & HR)]; [discriminate |].
  exists cX, mtX, dX. repeat split; auto.
  destruct HR as (Hid & _). congruence.
Qed.

(** ** Normalisation *)

Lemma set_pos_same (m : Monitor) : set_pos (position m) m = m.
Proof. now destruct m. Qed.

Lemma shift_entry_0 (e : string * Monitor) : shift_entry 0 0 e = e.
Proof.
  destruct e as [k m]. unfold shift_entry. cbn [fst snd].
  destruct (position m) as [| | x y] eqn:E; try reflexivity.
  rewrite !Z.sub_0_r, <- E. now rewrite set_pos_same.
Qed.

Lemma map_shift_entry_0 (ms : monitors) : map (shift_entry 0 0) ms = ms.
Proof.
  induction ms as [| e rest IH]; cbn [map]; [reflexivity |].
  now rewrite shift_entry_0, IH.
Qed.

Lemma shift_entry_compose (dx dy : Z) (e : string * Monitor) :
  shift_entry 0 dy (shift_entry dx 0 e) = shift_entry dx dy e.
Proof.
  destruct e as [k m]. unfold shift_entry. cbn [fst snd].
  destruct (position m) as [| | x y] eqn:E; cbn; rewrite ?E; try reflexivity.
  now rewrite Z.sub_0_r, Z.sub_0_r.
Qed.

Lemma shift_by_map (dx dy : Z) (ms ms' : monitors) :
  shift_by dx dy ms = Ok ms' ->
  ms' = map (shift_entry dx dy) ms /\ Forall is_concrete ms.
Proof.
  revert ms'. induction ms as [| [k m] rest IH]; intros ms'; cbn.
  - intros [= <-]. auto.
  - destruct (position m) as [| | x y] eqn:E; cbn; try discriminate.
    destruct (shift_by dx dy rest) as [rest' |]; cbn; [| discriminate].
    intros [= <-]. destruct (IH rest' eq_refl) as [-> HF].
    split.
    + unfold shift_entry at 2. cbn [fst snd]. now rewrite E.
    + constructor; [| exact HF]. exists x, y. exact E.
Qed.

Lemma shift_by_concrete (dx dy : Z) (ms : monitors) :
  Forall is_concrete ms -> shift_by dx dy ms = Ok (map (shift_entry dx dy) ms).
Proof.
  induction 1 as [| [k m] rest (x & y & E) _ IH]; cbn; [reflexivity |].
  cbn in E. rewrite E. cbn. rewrite IH. cbn.
  unfold shift_entry at 2. cbn [fst snd]. now rewrite E.
Qed.

Lemma Forall_is_concrete_shift (dx dy : Z) (ms : monitors) :
  Forall is_concrete ms -> Forall is_concrete (map (shift_entry dx dy) ms).
Proof.
  induction 1 as [| [k m] rest (x & y & E) _ IH]; cbn [map]; constructor;
    [| exact IH].
  cbn in E. unfold is_concrete, shift_entry. cbn [fst snd]. rewrite E.
  cbn. eauto.
Qed.

Lemma fold_left_min_le (l : list Z) (a : Z) :
  fold_left Z.min l a <= a /\ Forall (fun x => fold_left Z.min l a <= x) l.
Proof.
  revert a. induction l as [| b l IH]; intros a; cbn.
  - split; [lia | constructor].
  - destruct (IH (Z.min a b)) as [H1 H2]. split; [lia |].
    constructor; [lia | exact H2].
Qed.

Lemma fold_left_min_In (l : list Z) (a : Z) :
  fold_left Z.min l a = a \/ In (fold_left Z.min l a) l.
Proof.
  revert a. induction l as [| b l IH]; intros a; cbn; [now left |].
  destruct (IH (Z.min a b)) as [H | H]; [| auto].
  rewrite H. destruct (Z.min_spec a b) as [[_ ->] | [_ ->]]; auto.
Qed.

Lemma py_min_spec (l : list Z) (m : Z) :
  py_min l = Ok m -> In m l /\ Forall (fun x => m <= x) l.
Proof.
  destruct l as [| a l]; cbn; [discriminate |]. intros [= <-].
  destruct (fold_left_min_le l a) as [H1 H2].
  split; [| constructor; assumption].
  destruct (fold_left_min_In l a) as [-> | H]; auto.
Qed.

Lemma fold_left_min_sub (d : Z) (l : list Z) (a : Z) :
  fold_left Z.min (map (fun x => x - d) l) (a - d) = fold_left Z.min l a - d.
Proof.
  revert a. induction l as [| b l IH]; intros a; cbn; [reflexivity |].
  rewrite <- IH. f_equal. lia.
Qed.

Lemma py_min_sub (d : Z) (l : list Z) (m : Z) :
  py_min l = Ok m -> py_min (map (fun x => x - d) l) = Ok (m - d).
Proof.
  destruct l as [| a l]; cbn; [discriminate |]. intros [= <-].
  now rewrite fold_left_min_sub.
Qed.

Lemma coords_x_shift (dx dy : Z) (ms : monitors) (xs : list Z) :
  coords pos_x ms = Ok xs ->
  coords pos_x (map (shift_entry dx dy) ms) = Ok (map (fun x => x - dx) xs).
Proof.
  revert xs. induction ms as [| [k m] rest IH]; intros xs; cbn.
  - now intros [= <-].
  - destruct (position m) as [| | x y] eqn:E; cbn; rewrite ?E; cbn.
    + discriminate.
    + apply IH.
    + destruct (coords pos_x rest) as [l |]; cbn; [| discriminate].
      intros [= <-]. now rewrite (IH l eq_refl).
Qed.

Lemma coords_y_shift (dx dy : Z) (ms : monitors) (ys : list Z) :
  coords pos_y ms = Ok ys ->
  coords pos_y (map (shift_entry dx dy) ms) = Ok (map (fun y => y - dy) ys).
Proof.
  revert ys. induction ms as [| [k m] rest IH]; intros ys; cbn.
  - now intros [= <-].
  - destruct (position m) as [| | x y] eqn:E; cbn; rewrite ?E; cbn.
    + discriminate.
    + apply IH.
    + destruct (coords pos_y rest) as [l |]; cbn; [| discriminate].
      intros [= <-]. now rewrite (IH l eq_refl).
Qed.

Lemma min_coord_x_shift (dx dy : Z) (ms : monitors) (m : Z) :
  min_coord pos_x ms = Ok m ->
  min_coord pos_x (map (shift_entry dx dy) ms) = Ok (m - dx).
Proof.
  unfold min_coord. intros H. inv_bind H.
  rewrite (@coords_x_shift dx dy ms a Ha). cbn. now apply py_min_sub.
Qed.

Lemma min_coord_y_shift (dx dy : Z) (ms : monitors) (m : Z) :
  min_coord pos_y ms = Ok m ->
  min_coord pos_y (map (shift_entry dx dy) ms) = Ok (m - dy).
Proof.
  unfold min_coord. intros H. inv_bind H.
  rewrite (@coords_y_shift dx dy ms a Ha). cbn. now apply py_min_sub.
Qed.

Lemma coords_x_In (ms : monitors) (xs : list Z) (k : string) (m : Monitor)
  (x y : Z) :
  coords pos_x ms = Ok xs -> In (k, m) ms -> position m = PosXY x y ->
  In x xs.
Proof.
  revert xs. induction ms as [| [k' m'] rest IH]; intros xs; cbn;
    [tauto |].
  intros H [Heq | Hin] Hp.
  - inversion Heq; subst. rewrite Hp in H. cbn in H.
    destruct (coords pos_x rest); cbn in H; [| discriminate].
    injection H as <-. now left.
  - destruct (is_auto (position m')); [eauto |].
    inv_bind H. inv_bind H. injection H as <-. right. eauto.
Qed.

Lemma coords_y_In (ms : monitors) (ys : list Z) (k : string) (m : Monitor)
  (x y : Z) :
  coords pos_y ms = Ok ys -> In (k, m) ms -> position m = PosXY x y ->
  In y ys.
Proof.
  revert ys. induction ms as [| [k' m'] rest IH]; intros ys; cbn;
    [tauto |].
  intros H [Heq | Hin] Hp.
  - inversion Heq; subst. rewrite Hp in H. cbn in H.
    destruct (coords pos_y rest); cbn in H; [| discriminate].
    injection H as <-. now left.
  - destruct (is_auto (position m')); [eauto |].
    inv_bind H. inv_bind H. injection H as <-. right. eauto.
Qed.

(** The coordinates can be read only when no position is unset. *)
Lemma coords_x_no_unset (ms : monitors) (xs : list Z) (k : string)
  (m : Monitor) :
  coords pos_x ms = Ok xs -> In (k, m) ms -> position m <> PosUnset.
Proof.
  revert xs. induction ms as [| [k' m'] rest IH]; intros xs; cbn;
    [tauto |].
  intros H [Heq | Hin].
  - inversion Heq; subst. intros Hp. rewrite Hp in H. discriminate.
  - destruct (is_auto (position m')); [eauto |].
    inv_bind H. inv_bind H. eauto.
Qed.

Lemma coords_x_unset (ms : monitors) (k : string) (m : Monitor) :
  In (k, m) ms -> position m = PosUnset ->
  coords pos_x ms = Err AttributeError.
Proof.
  induction ms as [| [k' m'] rest IH]; cbn; [tauto |].
  intros [Heq | Hin] Hp.
  - inversion Heq; subst. now rewrite Hp.
  - destruct (position m') as [| | x y]; cbn; auto.
    now rewrite (IH Hin Hp).
Qed.

(** The normal form of a successful normalisation. *)
Lemma normalize_map (ms ms' : monitors) :
  normalize ms = Ok ms' ->
  exists mx my,
    min_coord pos_x ms = Ok mx /\ min_coord pos_y ms = Ok my /\
    ms' = map (shift_entry (Z.min mx 0) (Z.min my 0)) ms /\
    (mx < 0 \/ my < 0 -> Forall is_concrete ms).
Proof.
  unfold normalize. intros H.
  destruct (min_coord pos_x ms) as [mx |] eqn:Hx; cbn [bind] in H;
    [| discriminate].
  destruct (min_coord pos_y ms) as [my |] eqn:Hy; cbn [bind] in H;
    [| discriminate].
  exists mx, my. split; [reflexivity |]. split; [reflexivity |].
  destruct (Z.ltb_spec mx 0) as [Hlx | Hgx].
  - destruct (shift_by mx 0 ms) as [ms1 |] eqn:H1; cbn [bind] in H;
      [| discriminate].
    apply shift_by_map in H1. destruct H1 as [-> HF].
    rewrite Z.min_l by lia.
    destruct (Z.ltb_spec my 0) as [Hly | Hgy].
    + apply shift_by_map in H. destruct H as [-> _].
      rewrite Z.min_l by lia. rewrite map_map. split; [| auto].
      apply map_ext. intros e. apply shift_entry_compose.
    + injection H as <-. rewrite Z.min_r by lia. auto.
  - cbn [bind] in H. rewrite (Z.min_r mx 0) by lia.
    destruct (Z.ltb_spec my 0) as [Hly | Hgy].
    + apply shift_by_map in H. destruct H as [-> HF].
      rewrite Z.min_l by lia. auto.
    + injection H as <-. rewrite Z.min_r by lia.
      rewrite map_shift_entry_0. split; [reflexivity | lia].
Qed.

Lemma get_map_shift_entry (dx dy : Z) (k : string) (ms : monitors) :
  get k (map (shift_entry dx dy) ms) =
  option_map (fun m => snd (shift_entry dx dy (k, m))) (get k ms).
Proof.
  induction ms as [| [k' m'] rest IH]; cbn; [reflexivity |].
  destruct (String.eqb k' k); [reflexivity | exact IH].
Qed.

(** X21. What the normalisation does when it completes: a negative minimum x
    (y) has become 0; every concrete position has moved by the same amount,
    the x by [min(min_x, 0)] and the y by [min(min_y, 0)], each decided on
    its own, so that the differences between two displays are what they
    were. *)
Lemma normalize_zero_based (ms ms' : monitors) :
  normalize ms = Ok ms' ->
  ((exists k m x y, In (k, m) ms /\ position m = PosXY x y /\ x < 0) ->
   min_coord pos_x ms' = Ok 0) /\
  ((exists k m x y, In (k, m) ms /\ position m = PosXY x y /\ y < 0) ->
   min_coord pos_y ms' = Ok 0) /\
  (exists mx my,
     min_coord pos_x ms = Ok mx /\ min_coord pos_y ms = Ok my /\
     forall k m x y,
       get k ms = Some m -> position m = PosXY x y ->
       exists m', get k ms' = Some m' /\
                  position m' = PosXY (x - Z.min mx 0) (y - Z.min my 0)) /\
  (forall k1 k2 m1 m2 x1 y1 x2 y2,
      get k1 ms = Some m1 -> position m1 = PosXY x1 y1 ->
      get k2 ms = Some m2 -> position m2 = PosXY x2 y2 ->
      exists m1' m2' x1' y1' x2' y2',
        get k1 ms' = Some m1' /\ position m1' = PosXY x1' y1' /\
        get k2 ms' = Some m2' /\ position m2' = PosXY x2' y2' /\
        x1' - x2' = x1 - x2 /\ y1' - y2' = y1 - y2).
Proof.
  intros H. apply normalize_map in H.
  destruct H as (mx & my & Hx & Hy & -> & HF).
  assert (Hmove : forall k m x y,
             get k ms = Some m -> position m = PosXY x y ->
             exists m', get k (map (shift_entry (Z.min mx 0) (Z.min my 0)) ms)
                        = Some m' /\
                        position m' = PosXY (x - Z.min mx 0) (y - Z.min my 0)).
  { intros k m x y Hg Hp. rewrite get_map_shift_entry, Hg. cbn.
    rewrite Hp. eexists. split; reflexivity. }
  split; [| split; [| split]].
  - intros (k & m & x & y & Hin & Hp & Hneg).
    assert (Hlt : mx < 0).
    { pose proof Hx as Hx'. unfold min_coord in Hx'. inv_bind Hx'.
      apply py_min_spec in Hx'. destruct Hx' as [_ Hall].
      pose proof (@coords_x_In ms a k m x y Ha Hin Hp) as Hxin.
      rewrite Forall_forall in Hall. specialize (Hall x Hxin). lia. }
    rewrite (@min_coord_x_shift (Z.min mx 0) (Z.min my 0) ms mx Hx).
    f_equal. lia.
  - intros (k & m & x & y & Hin & Hp & Hneg).
    assert (Hlt : my < 0).
    { pose proof Hy as Hy'. unfold min_coord in Hy'. inv_bind Hy'.
      apply py_min_spec in Hy'. destruct Hy' as [_ Hall].
      pose proof (@coords_y_In ms a k m x y Ha Hin Hp) as Hyin.
      rewrite Forall_forall in Hall. specialize (Hall y Hyin). lia. }
    rewrite (@min_coord_y_shift (Z.min mx 0) (Z.min my 0) ms my Hy).
    f_equal. lia.
  - exists mx, my. auto.
  - intros k1 k2 m1 m2 x1 y1 x2 y2 Hg1 Hp1 Hg2 Hp2.
    destruct (Hmove _ _ _ _ Hg1 Hp1) as [m1' [G1 P1]].
    destruct (Hmove _ _ _ _ Hg2 Hp2) as [m2' [G2 P2]].
    exists m1', m2', (x1 - Z.min mx 0), (y1 - Z.min my 0),
      (x2 - Z.min mx 0), (y2 - Z.min my 0).
    repeat split; auto; lia.
Qed.

Lemma coords_x_concrete (ms : monitors) :
  Forall is_concrete ms ->
  exists xs, coords pos_x ms = Ok xs /\ (ms <> [] -> xs <> []).
Proof.
  induction 1 as [| [k m] rest (x & y & E) _ (xs & IH & _)]; cbn.
  - exists []. split; [reflexivity | auto].
  - cbn in E. rewrite E. cbn. rewrite IH. cbn.
    exists (x :: xs). split; [reflexivity | discriminate].
Qed.

Lemma coords_y_concrete (ms : monitors) :
  Forall is_concrete ms ->
  exists ys, coords pos_y ms = Ok ys /\ (ms <> [] -> ys <> []).
Proof.
  induction 1 as [| [k m] rest (x & y & E) _ (ys & IH & _)]; cbn.
  - exists []. split; [reflexivity | auto].
  - cbn in E. rewrite E. cbn. rewrite IH. cbn.
    exists (y :: ys). split; [reflexivity | discriminate].
Qed.

(** X22. On a mapping in which every display has a concrete position, the
    normalisation completes. *)
Lemma normalize_concrete (ms : monitors) :
  Forall is_concrete ms -> ms <> [] -> exists ms', normalize ms = Ok ms'.
Proof.
  intros HF Hne. unfold normalize, min_coord.
  destruct (coords_x_concrete HF) as (xs & -> & Hx).
  destruct (coords_y_concrete HF) as (ys & -> & Hy).
  cbn [bind].
  destruct xs as [| x xs]; [now destruct (Hx Hne) |].
  destruct ys as [| y ys]; [now destruct (Hy Hne) |].
  cbn [py_min bind].
  destruct (fold_left Z.min xs x <? 0).
  - rewrite (shift_by_concrete _ _ HF). cbn [bind].
    destruct (fold_left Z.min ys y <? 0); [| eauto].
    rewrite shift_by_concrete; [eauto |].
    now apply Forall_is_concrete_shift.
  - cbn [bind]. destruct (fold_left Z.min ys y <? 0); [| eauto].
    rewrite (shift_by_concrete _ _ HF). eauto.
Qed.

(** ** The traversal *)

Lemma skeleton_update_pos (k : string) (p : position_t) (ms : monitors) :
  skeleton (update k (set_pos p) ms) = skeleton ms.
Proof.
  unfold skeleton, update. rewrite map_map. apply map_ext.
  intros [k' m]. cbn [fst snd]. destruct (String.eqb k' k); reflexivity.
Qed.

Lemma get_skeleton (k : string) (ms : monitors) :
  get k (skeleton ms) = option_map (set_pos PosUnset) (get k ms).
Proof.
  induction ms as [| [k' m'] rest IH]; cbn; [reflexivity |].
  destruct (String.eqb k' k); [reflexivity | exact IH].
Qed.

(** Two mappings with the same skeleton hold, under every key, records that
    agree outside their position. *)
Lemma skeleton_get (ms1 ms2 : monitors) (k : string) (m1 : Monitor) :
  skeleton ms1 = skeleton ms2 -> get k ms1 = Some m1 ->
  exists m2, get k ms2 = Some m2 /\
             set_pos PosUnset m1 = set_pos PosUnset m2.
Proof.
  intros Hs Hg.
  assert (H : get k (skeleton ms2) = Some (set_pos PosUnset m1))
    by (rewrite <- Hs, get_skeleton, Hg; reflexivity).
  rewrite get_skeleton in H. destruct (get k ms2) as [m2 |];
    [| discriminate].
  cbn [option_map] in H. injection H as H.
  exists m2. split; [reflexivity | unfold set_pos; congruence].
Qed.

Lemma core_right (m1 m2 : Monitor) :
  set_pos PosUnset m1 = set_pos PosUnset m2 -> right m1 = right m2.
Proof. intros H. apply (f_equal right) in H. exact H. Qed.

Lemma core_below (m1 m2 : Monitor) :
  set_pos PosUnset m1 = set_pos PosUnset m2 -> below m1 = below m2.
Proof. intros H. apply (f_equal below) in H. exact H. Qed.

Lemma core_resolution (m1 m2 : Monitor) :
  set_pos PosUnset m1 = set_pos PosUnset m2 ->
  resolution m1 = resolution m2.
Proof. intros H. apply (f_equal resolution) in H. exact H. Qed.

Lemma core_align (m1 m2 : Monitor) :
  set_pos PosUnset m1 = set_pos PosUnset m2 -> align m1 = align m2.
Proof. intros H. apply (f_equal align) in H. exact H. Qed.

Lemma next_right_core (m1 m2 r1 r2 : Monitor) (pos : Z * Z) :
  set_pos PosUnset m1 = set_pos PosUnset m2 ->
  set_pos PosUnset r1 = set_pos PosUnset r2 ->
  next_right m1 r1 pos = next_right m2 r2 pos.
Proof.
  intros Hm Hr. unfold next_right.
  now rewrite (@core_resolution m1 m2 Hm), (@core_resolution r1 r2 Hr),
    (@core_align r1 r2 Hr).
Qed.

Lemma next_below_core (m1 m2 b1 b2 : Monitor) (pos : Z * Z) :
  set_pos PosUnset m1 = set_pos PosUnset m2 ->
  set_pos PosUnset b1 = set_pos PosUnset b2 ->
  next_below m1 b1 pos = next_below m2 b2 pos.
Proof.
  intros Hm Hb. unfold next_below.
  now rewrite (@core_resolution m1 m2 Hm), (@core_resolution b1 b2 Hb),
    (@core_align b1 b2 Hb).
Qed.

Lemma apply_trace_app (t1 t2 : trace) (ms : monitors) :
  apply_trace (t1 ++ t2)%list ms = apply_trace t2 (apply_trace t1 ms).
Proof. unfold apply_trace. apply fold_left_app. Qed.

Lemma skeleton_apply_trace (t : trace) (ms : monitors) :
  skeleton (apply_trace t ms) = skeleton ms.
Proof.
  revert ms. induction t as [| a t IH]; intros ms; cbn; [reflexivity |].
  unfold apply_trace in IH. rewrite IH. apply skeleton_update_pos.
Qed.

Lemma getitem_Ok (k : string) (ms : monitors) (m : Monitor) :
  getitem k ms = Ok m -> get k ms = Some m.
Proof. unfold getitem. destruct (get k ms); congruence. Qed.

Lemma getitem_skeleton (ms1 ms2 : monitors) (k : string) (m1 : Monitor) :
  skeleton ms1 = skeleton ms2 -> getitem k ms1 = Ok m1 ->
  exists m2, getitem k ms2 = Ok m2 /\
             set_pos PosUnset m1 = set_pos PosUnset m2.
Proof.
  intros Hs Hg. apply getitem_Ok in Hg.
  destruct (@skeleton_get ms1 ms2 k m1 Hs Hg) as [m2 [Hg2 Hc]].
  exists m2. split; [| exact Hc]. unfold getitem. now rewrite Hg2.
Qed.

(** A traversal that completes is a sequence of assignments, and the
    sequence is the same from any mapping with the same skeleton. *)
Lemma set_position_trace (fuel : nat) :
  forall (ms1 ms2 : monitors) (k : string) (pos : Z * Z) (ms1' : monitors),
    skeleton ms1 = skeleton ms2 ->
    set_position fuel ms1 k pos = Ok ms1' ->
    exists t, ms1' = apply_trace t ms1 /\
              set_position fuel ms2 k pos = Ok (apply_trace t ms2).
Proof.
  induction fuel as [| fuel IH]; intros ms1 ms2 k pos ms1' Hs H;
    [discriminate |].
  cbn [set_position] in H |- *.
  set (p := PosXY (fst pos) (snd pos)) in *.
  assert (Hs0 : skeleton (update k (set_pos p) ms1) =
                skeleton (update k (set_pos p) ms2))
    by (now rewrite !skeleton_update_pos).
  destruct (getitem k (update k (set_pos p) ms1)) as [mon1 |] eqn:G1;
    cbn [bind] in H; [| discriminate].
  destruct (@getitem_skeleton _ _ k mon1 Hs0 G1) as [mon2 [G2 Hc]].
  rewrite G2. cbn [bind]. rewrite <- (@core_right mon1 mon2 Hc).
  (* the right neighbour *)
  assert (HR : exists t1 s1,
             (if truthy (right mon1)
              then match right mon1 with
                   | Some r =>
                       right_monitor <- getitem r (update k (set_pos p) ms1) ;;
                       next_position <- next_right mon1 right_monitor pos ;;
                       set_position fuel (update k (set_pos p) ms1) r
                         next_position
                   | None => Ok (update k (set_pos p) ms1)
                   end
              else Ok (update k (set_pos p) ms1)) = Ok s1 /\
             s1 = apply_trace ((k, pos) :: t1) ms1 /\
             (if truthy (right mon1)
              then match right mon1 with
                   | Some r =>
                       right_monitor <- getitem r (update k (set_pos p) ms2) ;;
                       next_position <- next_right mon2 right_monitor pos ;;
                       set_position fuel (update k (set_pos p) ms2) r
                         next_position
                   | None => Ok (update k (set_pos p) ms2)
                   end
              else Ok (update k (set_pos p) ms2)) =
             Ok (apply_trace ((k, pos) :: t1) ms2)).
  { destruct (truthy (right mon1)); [| exists []; eexists; repeat split;
                                       inv_bind H; eauto].
    destruct (right mon1) as [r |]; [| exists []; eexists; repeat split;
                                        inv_bind H; eauto].
    destruct (getitem r (update k (set_pos p) ms1)) as [rm1 |] eqn:GR1;
      cbn [bind] in H |- *; [| discriminate].
    destruct (@getitem_skeleton _ _ r rm1 Hs0 GR1) as [rm2 [GR2 Hcr]].
    rewrite GR2. cbn [bind].
    rewrite <- (@next_right_core mon1 mon2 rm1 rm2 pos Hc Hcr).
    destruct (next_right mon1 rm1 pos) as [np |]; cbn [bind] in H |- *;
      [| discriminate].
    destruct (set_position fuel (update k (set_pos p) ms1) r np)
      as [s1 |] eqn:E1; cbn [bind] in H; [| discriminate].
    destruct (IH _ _ _ _ _ Hs0 E1) as [t1 [-> E2]].
    exists t1. eexists. split; [reflexivity |]. split; [reflexivity |].
    exact E2. }
  destruct HR as (t1 & s1 & HR1 & -> & HR2).
  rewrite HR1 in H. rewrite HR2. cbn [bind] in H |- *.
  set (s1 := apply_trace ((k, pos) :: t1) ms1) in *.
  set (s2 := apply_trace ((k, pos) :: t1) ms2) in *.
  assert (Hs1 : skeleton s1 = skeleton s2)
    by (unfold s1, s2; now rewrite !skeleton_apply_trace).
  destruct (getitem k s1) as [mon1' |] eqn:G1'; cbn [bind] in H;
    [| discriminate].
  destruct (@getitem_skeleton _ _ k mon1' Hs1 G1') as [mon2' [G2' Hc']].
  rewrite G2'. cbn [bind]. rewrite <- (@core_below mon1' mon2' Hc').
  destruct (truthy (below mon1'));
    [| injection H as <-; exists ((k, pos) :: t1); split; reflexivity].
  destruct (below mon1') as [b |];
    [| injection H as <-; exists ((k, pos) :: t1); split; reflexivity].
  destruct (getitem b s1) as [bm1 |] eqn:GB1; cbn [bind] in H |- *;
    [| discriminate].
  destruct (@getitem_skeleton _ _ b bm1 Hs1 GB1) as [bm2 [GB2 Hcb]].
  rewrite GB2. cbn [bind].
  rewrite <- (@next_below_core mon1' mon2' bm1 bm2 pos Hc' Hcb).
  destruct (next_below mon1' bm1 pos) as [np |]; cbn [bind] in H |- *;
    [| discriminate].
  destruct (IH _ _ _ _ _ Hs1 H) as [t2 [-> E2]].
  exists (((k, pos) :: t1) ++ t2)%list. rewrite !apply_trace_app.
  split; [reflexivity | exact E2].
Qed.

Lemma set_pos_set_pos (p q : position_t) (m : Monitor) :
  set_pos p (set_pos q m) = set_pos p m.
Proof. reflexivity. Qed.

Lemma position_set_pos (p : position_t) (m : Monitor) :
  position (set_pos p m) = p.
Proof. reflexivity. Qed.

Lemma apply_trace_map (t : trace) (ms : monitors) :
  apply_trace t ms = map (entry_after t) ms.
Proof.
  revert ms. induction t as [| a t IH]; intros ms.
  - cbn. unfold entry_after. cbn. induction ms as [| [k m] rest IHm];
      cbn; [reflexivity | now rewrite <- IHm].
  - change (apply_trace (a :: t) ms) with (apply_trace t (assign a ms)).
    rewrite IH. unfold assign, update. rewrite map_map. apply map_ext.
    intros [k m]. unfold entry_after. cbn [fst snd last_pos].
    destruct (String.eqb k (fst a)); cbn [fst snd];
      destruct (last_pos t k); reflexivity.
Qed.

Lemma skeleton_map_shift_entry (dx dy : Z) (ms : monitors) :
  skeleton (map (shift_entry dx dy) ms) = skeleton ms.
Proof.
  unfold skeleton. rewrite map_map. apply map_ext.
  intros [k m]. unfold shift_entry. cbn [fst snd].
  destruct (position m); reflexivity.
Qed.

(** Placing again, from the positions a completed resolution has left,
    rebuilds the placement of the first run. *)
Lemma replace_after_normalize (t : trace) (dx dy : Z) (ms : monitors) :
  fresh ms ->
  (forall k m, In (k, m) (apply_trace t ms) -> position m <> PosUnset) ->
  apply_trace t (map (shift_entry dx dy) (apply_trace t ms)) =
  apply_trace t ms.
Proof.
  intros Hf Hu. rewrite !apply_trace_map in *. rewrite !map_map.
  apply map_ext_in. intros [k m] Hin.
  assert (Hfr : position m = PosUnset \/ position m = PosAuto).
  { unfold fresh in Hf. rewrite Forall_forall in Hf. apply (Hf _ Hin). }
  specialize (Hu k (snd (entry_after t (k, m)))).
  unfold entry_after, shift_entry in *. cbn [fst snd] in *.
  destruct (last_pos t k) as [p |] eqn:E.
  - rewrite position_set_pos. destruct p; cbn [fst snd]; rewrite ?E;
      reflexivity.
  - assert (Hn : position m <> PosUnset).
    { apply Hu. apply in_map_iff. exists (k, m). cbn [fst snd].
      rewrite ?E. auto. }
    destruct Hfr as [Hp | Hp]; [contradiction |].
    rewrite Hp. cbn [fst snd]. rewrite ?E. reflexivity.
Qed.

(** A resolution that completes is a fixed point of resolving again from
    the same anchor. *)
Lemma resolve_from_idempotent (fuel : nat) (ms ms' : monitors)
  (anchor : option string) :
  fresh ms ->
  resolve_from fuel ms anchor = Ok ms' ->
  resolve_from fuel ms' anchor = Ok ms'.
Proof.
  intros Hf H. destruct anchor as [k |]; [| discriminate].
  cbn [resolve_from] in H |- *.
  destruct (set_position fuel ms k (0, 0)) as [s1 |] eqn:E1;
    cbn [bind] in H; [| discriminate].
  pose proof H as Hn. apply normalize_map in Hn.
  destruct Hn as (mx & my & Hx & _ & Hms' & _).
  assert (Hsk : skeleton ms = skeleton ms').
  { destruct (@set_position_trace fuel ms ms k (0, 0) s1 eq_refl E1)
      as [t [-> _]].
    rewrite Hms', skeleton_map_shift_entry, skeleton_apply_trace.
    reflexivity. }
  destruct (@set_position_trace fuel ms ms' k (0, 0) s1 Hsk E1)
    as [t [-> E2]].
  rewrite E2. cbn [bind].
  rewrite Hms' at 1.
  rewrite replace_after_normalize; [exact H | exact Hf |].
  intros k' m' Hin. unfold min_coord in Hx. inv_bind Hx.
  eapply coords_x_no_unset; eauto.
Qed.

(** ** Invariants of the graph builder *)

Lemma fresh_update (k : string) (f : Monitor -> Monitor) (ms : monitors) :
  (forall m, position (f m) = position m \/ position (f m) = PosAuto) ->
  fresh ms -> fresh (update k f ms).
Proof.
  intros Hf. unfold fresh, update. induction 1 as [| [k' m] rest Hm _ IH];
    cbn [map]; constructor; [| exact IH].
  cbn [fst snd] in *. destruct (String.eqb k' k); cbn [fst snd]; [| exact Hm].
  destruct (Hf m) as [-> | ->]; auto.
Qed.

Lemma fresh_setitem (k : string) (v : Monitor) (ms : monitors) :
  position v = PosUnset -> fresh ms -> fresh (setitem k v ms).
Proof.
  intros Hv. unfold fresh. induction 1 as [| [k' m] rest Hm HF IH]; cbn.
  - constructor; [now left | constructor].
  - destruct (String.eqb k' k); constructor; auto; now left.
Qed.

Lemma match_monitors_fresh (ds : list display) (cfg : config)
  (ms0 ms : monitors) :
  match_monitors ds cfg ms0 = Ok ms -> fresh ms0 -> fresh ms.
Proof.
  revert ms0. induction cfg as [| [monitor mc] rest IH]; intros ms0; simpl.
  - now intros [= ->].
  - destruct (c_match mc) as [mt |]; [| discriminate].
    destruct (select_monitors ds mt) as [[d |] | e']; simpl;
      [| apply IH | discriminate].
    destruct (match c_align mc with Some a => set_align a _ | None => _ end)
      as [m' | e'] eqn:Ha; simpl; [| discriminate].
    intros H Hf. apply (IH _ H). apply fresh_setitem; [| exact Hf].
    destruct (c_align mc) as [a |].
    + apply set_align_Ok in Ha. 
      destruct Ha as (_ & _ & _ & _ & _ & _ & _ & _ & Hp & _).
      rewrite Hp. reflexivity.
    + injection Ha as <-. reflexivity.
Qed.

Lemma wire_position_fresh (monitor directive : string) (ms ms' : monitors) :
  wire_position monitor directive ms = Ok ms' -> fresh ms -> fresh ms'.
Proof.
  unfold wire_position. intros H Hf. inv_bind H.
  destruct (negb (mem a ms)); [discriminate |].
  unfold wire_same_as in H.
  assert (Hd : fresh (wire_right_of monitor a directive
                        (wire_left_of monitor a directive
                           (wire_below monitor a directive
                              (wire_above monitor a directive ms))))).
  { unfold wire_right_of, wire_left_of, wire_below, wire_above.
    repeat match goal with
           | |- fresh (if ?c then _ else _) => destruct c
           | |- fresh (update _ _ _) => apply fresh_update; [now left |]
           end; exact Hf. }
  destruct (contains "same-as" directive); [| now injection H as <-].
  inv_bind H. injection H as <-.
  repeat (apply fresh_update; [intros m; cbn; auto |]). exact Hd.
Qed.

Lemma organize_one_fresh (monitor : string) (mc : monitor_config)
  (ms ms' : monitors) :
  organize_one monitor mc ms = Ok ms' -> fresh ms -> fresh ms'.
Proof.
  unfold organize_one. intros H Hf. inv_bind H. injection H as <-.
  assert (Hfa : fresh a).
  { destruct (c_position mc) as [directive |].
    - eapply wire_position_fresh; eauto.
    - now injection Ha as <-. }
  destruct (c_scale mc); [apply fresh_update; [now left |] |]; exact Hfa.
Qed.

Lemma organize_monitors_fresh (cfg : config) (ms ms' : monitors) :
  organize_monitors cfg ms = Ok ms' -> fresh ms -> fresh ms'.
Proof.
  revert ms. induction cfg as [| [monitor mc] rest IH]; intros ms; simpl.
  - now intros [= ->].
  - destruct (mem monitor ms); cbn [negb]; [| apply IH].
    intros H Hf. inv_bind H. apply (IH _ H).
    eapply organize_one_fresh; eauto.
Qed.

(** The builder leaves every position unset or [auto]. *)
Lemma build_graph_fresh (cfg : config) (ds : list display) (ms : monitors) :
  build_graph cfg ds = Ok ms -> fresh ms.
Proof.
  unfold build_graph. intros H. inv_bind H.
  eapply organize_monitors_fresh; [exact H |].
  eapply match_monitors_fresh; [exact Ha | constructor].
Qed.

(** ** Claims on layout resolution *)

(** C8. On the mapping the builder produces, a resolution that completes is
    idempotent: resolving the resolved mapping again, from the same anchor,
    returns every display at the position it already has. *)
Theorem resolution_idempotent (fuel : nat) (cfg : config) (ds : list display)
  (ms ms' : monitors) (anchor : option string) :
  build_graph cfg ds = Ok ms ->
  resolve_from fuel ms anchor = Ok ms' ->
  resolve_from fuel ms' anchor = Ok ms'.
Proof.
  intros Hb H.
  apply (@resolve_from_idempotent fuel ms ms' anchor); [| exact H].
  eapply build_graph_fresh; eauto.
Qed.

(** ** Displays the traversal cannot place *)

Lemma set_position_skeleton (fuel : nat) (ms ms' : monitors) (k : string)
  (pos : Z * Z) :
  set_position fuel ms k pos = Ok ms' -> skeleton ms' = skeleton ms.
Proof.
  intros H.
  destruct (@set_position_trace fuel ms ms k pos ms' eq_refl H) as [t [-> _]].
  apply skeleton_apply_trace.
Qed.

Lemma has_right_skeleton (ms1 ms2 : monitors) (a b : string) :
  skeleton ms1 = skeleton ms2 -> has_right ms1 a b -> has_right ms2 a b.
Proof.
  intros Hs (m & Hg & Hr & Hb).
  destruct (@skeleton_get ms1 ms2 a m Hs Hg) as [m2 [Hg2 Hc]].
  exists m2. repeat split; auto. rewrite <- (@core_right m m2 Hc). exact Hr.
Qed.

Lemma truthy_Some (b : string) : b <> "" -> truthy (Some b) = true.
Proof.
  intros Hb. cbn. destruct (String.eqb_spec b ""); [contradiction | easy].
Qed.

(** Started on a display of a two-cycle of right links, the traversal never
    returns a mapping. *)
Lemma set_position_cycle_Err (fuel : nat) :
  forall (ms : monitors) (a b : string) (pos : Z * Z),
    has_right ms a b -> has_right ms b a ->
    exists e, set_position fuel ms a pos = Err e.
Proof.
  induction fuel as [| fuel IH]; intros ms a b pos Hab Hba.
  - exists RecursionError. reflexivity.
  - cbn [set_position].
    set (ms0 := update a (set_pos (PosXY (fst pos) (snd pos))) ms).
    assert (Hs : skeleton ms = skeleton ms0)
      by (unfold ms0; now rewrite skeleton_update_pos).
    pose proof (@has_right_skeleton ms ms0 a b Hs Hab) as Hab0.
    pose proof (@has_right_skeleton ms ms0 b a Hs Hba) as Hba0.
    destruct Hab0 as (m & Hg & Hr & Hb).
    unfold getitem at 1. rewrite Hg. cbn [bind].
    rewrite Hr, (@truthy_Some b Hb).
    destruct Hba0 as (mb & Hgb & Hrb & Ha).
    unfold getitem at 1. rewrite Hgb. cbn [bind].
    destruct (next_right m mb pos) as [np | e]; cbn [bind]; [| eauto].
    destruct (IH ms0 b a np) as [e He].
    + exists mb. auto.
    + exists m. auto.
    + rewrite He. cbn [bind]. eauto.
Qed.

(** A traversal that completes has not touched the two displays of such a
    cycle. *)
Lemma set_position_cycle_untouched (fuel : nat) :
  forall (ms ms' : monitors) (k a b : string) (pos : Z * Z),
    has_right ms a b -> has_right ms b a ->
    set_position fuel ms k pos = Ok ms' ->
    get a ms' = get a ms /\ get b ms' = get b ms.
Proof.
  induction fuel as [| fuel IH]; intros ms ms' k a b pos Hab Hba H;
    [discriminate |].
  assert (Hka : k <> a).
  { intros ->. destruct (@set_position_cycle_Err (S fuel) ms a b pos Hab Hba)
      as [e He]. congruence. }
  assert (Hkb : k <> b).
  { intros ->. destruct (@set_position_cycle_Err (S fuel) ms b a pos Hba Hab)
      as [e He]. congruence. }
  cbn [set_position] in H.
  set (ms0 := update k (set_pos (PosXY (fst pos) (snd pos))) ms) in *.
  assert (H0 : get a ms0 = get a ms /\ get b ms0 = get b ms).
  { unfold ms0. split; apply get_update_other; congruence. }
  assert (Hs0 : skeleton ms = skeleton ms0)
    by (unfold ms0; now rewrite skeleton_update_pos).
  bind_inv H as mon Hmon. bind_inv H as ms1 Hright.
  assert (H1 : (get a ms1 = get a ms0 /\ get b ms1 = get b ms0) /\
               skeleton ms = skeleton ms1).
  { destruct (truthy (right mon)); [| now injection Hright as <-].
    destruct (right mon) as [r |]; [| now injection Hright as <-].
    bind_inv Hright as rm Hrm. bind_inv Hright as np Hnp. split.
    - eapply IH; [| | exact Hright]; eapply has_right_skeleton; eauto.
    - rewrite Hs0. symmetry. eapply set_position_skeleton; eauto. }
  destruct H1 as [H1 Hs1].
  assert (H2 : get a ms' = get a ms1 /\ get b ms' = get b ms1).
  { bind_inv H as mon' Hmon'.
    destruct (truthy (below mon')); [| now injection H as <-].
    destruct (below mon') as [bl |]; [| now injection H as <-].
    bind_inv H as bm Hbm. bind_inv H as np Hnp.
    eapply IH; [| | exact H]; eapply has_right_skeleton; eauto. }
  destruct H0, H1, H2. split; congruence.
Qed.

Lemma res_w_exception (r : resolution_t) (e : pyerr) :
  res_w r = Err e -> uncaught_exception e.
Proof. destruct r; cbn; intros [= <-]; exact I. Qed.

Lemma res_h_exception (r : resolution_t) (e : pyerr) :
  res_h r = Err e -> uncaught_exception e.
Proof. destruct r; cbn; intros [= <-]; exact I. Qed.

Lemma getitem_exception (k : string) (ms : monitors) (e : pyerr) :
  getitem k ms = Err e -> uncaught_exception e.
Proof. unfold getitem. destruct (get k ms); intros [= <-]; exact I. Qed.

Lemma bind_exception {A B : Type} (r : result A) (f : A -> result B)
  (e : pyerr) :
  bind r f = Err e ->
  (forall e', r = Err e' -> uncaught_exception e') ->
  (forall a e', r = Ok a -> f a = Err e' -> uncaught_exception e') ->
  uncaught_exception e.
Proof.
  destruct r as [a | e']; cbn; intros H H1 H2.
  - eapply H2; eauto.
  - injection H as <-. auto.
Qed.

Lemma next_right_exception (m r : Monitor) (pos : Z * Z) (e : pyerr) :
  next_right m r pos = Err e -> uncaught_exception e.
Proof.
  unfold next_right.
  destruct (res_w (resolution m)) eqn:E1; cbn [bind];
    [| intros [= <-]; eapply res_w_exception; eauto].
  destruct (String.eqb (align r) "top"); cbn [bind]; [discriminate |].
  destruct (res_h (resolution m)) eqn:E2; cbn [bind];
    [| destruct (String.eqb (align r) "bottom"); cbn [bind];
       intros [= <-]; eapply res_h_exception; eauto].
  destruct (res_h (resolution r)) eqn:E3; cbn [bind];
    [destruct (String.eqb (align r) "bottom"); discriminate |].
  destruct (String.eqb (align r) "bottom"); cbn [bind];
    intros [= <-]; eapply res_h_exception; eauto.
Qed.

Lemma next_below_exception (m b : Monitor) (pos : Z * Z) (e : pyerr) :
  next_below m b pos = Err e -> uncaught_exception e.
Proof.
  unfold next_below.
  assert (Hx : forall e',
             (if String.eqb (align b) "left" then Ok (fst pos)
              else if String.eqb (align b) "right"
                   then w <- res_w (resolution m) ;;
                        bw <- res_w (resolution b) ;; Ok (w - bw)
                   else w <- res_w (resolution m) ;;
                        bw <- res_w (resolution b) ;; Ok ((w - bw) / 2))
             = Err e' -> uncaught_exception e').
  { intros e'. destruct (String.eqb (align b) "left"); [discriminate |].
    destruct (res_w (resolution m)) eqn:E2; cbn [bind];
      [| destruct (String.eqb (align b) "right"); cbn [bind];
         intros [= <-]; eapply res_w_exception; eauto].
    destruct (res_w (resolution b)) eqn:E3; cbn [bind];
      [destruct (String.eqb (align b) "right"); discriminate |].
    destruct (String.eqb (align b) "right"); cbn [bind];
      intros [= <-]; eapply res_w_exception; eauto. }
  intros H. eapply bind_exception; [exact H | auto |].
  intros x e' _ H'. cbn beta in H'.
  destruct (res_h (resolution m)) eqn:E; cbn [bind] in H'; [discriminate |].
  injection H' as <-. eapply res_h_exception; eauto.
Qed.

Lemma set_position_exception (fuel : nat) :
  forall (ms : monitors) (k : string) (pos : Z * Z) (e : pyerr),
    set_position fuel ms k pos = Err e -> uncaught_exception e.
Proof.
  induction fuel as [| fuel IH]; intros ms k pos e H.
  - injection H as <-. exact I.
  - cbn [set_position] in H.
    eapply bind_exception; [exact H | apply getitem_exception |].
    clear H. intros mon e1 _ H. cbn beta in H.
    eapply bind_exception; [exact H | |].
    + clear H. intros e2 H.
      destruct (truthy (right mon)); [| discriminate].
      destruct (right mon) as [r |]; [| discriminate].
      eapply bind_exception; [exact H | apply getitem_exception |].
      clear H. intros rm e3 _ H. cbn beta in H.
      eapply bind_exception; [exact H | apply next_right_exception |].
      clear H. intros np e4 _ H. cbn beta in H. eapply IH; eauto.
    + clear H. intros ms1 e2 _ H. cbn beta in H.
      eapply bind_exception; [exact H | apply getitem_exception |].
      clear H. intros mon' e3 _ H. cbn beta in H.
      destruct (truthy (below mon')); [| discriminate].
      destruct (below mon') as [b |]; [| discriminate].
      eapply bind_exception; [exact H | apply getitem_exception |].
      clear H. intros bm e4 _ H. cbn beta in H.
      eapply bind_exception; [exact H | apply next_below_exception |].
      clear H. intros np e5 _ H. cbn beta in H. eapply IH; eauto.
Qed.

Lemma coords_exception (rd : position_t -> result Z) (ms : monitors)
  (e : pyerr) :
  (forall p e', rd p = Err e' -> uncaught_exception e') ->
  coords rd ms = Err e -> uncaught_exception e.
Proof.
  intros Hrd. induction ms as [| [k m] rest IH]; cbn; [discriminate |].
  destruct (is_auto (position m)); [exact IH |].
  destruct (rd (position m)) eqn:E; cbn [bind];
    [| intros [= <-]; eapply Hrd; eauto].
  destruct (coords rd rest); cbn [bind]; [discriminate |].
  intros [= <-]. auto.
Qed.

Lemma pos_x_exception (p : position_t) (e : pyerr) :
  pos_x p = Err e -> uncaught_exception e.
Proof. destruct p; cbn; intros [= <-]; exact I. Qed.

Lemma pos_y_exception (p : position_t) (e : pyerr) :
  pos_y p = Err e -> uncaught_exception e.
Proof. destruct p; cbn; intros [= <-]; exact I. Qed.

Lemma min_coord_exception (rd : position_t -> result Z) (ms : monitors)
  (e : pyerr) :
  (forall p e', rd p = Err e' -> uncaught_exception e') ->
  min_coord rd ms = Err e -> uncaught_exception e.
Proof.
  intros Hrd. unfold min_coord.
  destruct (coords rd ms) as [l |] eqn:E; cbn [bind].
  - destruct l; cbn; [intros [= <-]; exact I | discriminate].
  - intros [= <-]. eapply coords_exception; eauto.
Qed.

Lemma shift_by_exception (dx dy : Z) (ms : monitors) (e : pyerr) :
  shift_by dx dy ms = Err e -> uncaught_exception e.
Proof.
  induction ms as [| [k m] rest IH]; cbn; [discriminate |].
  destruct (position m); cbn; try (intros [= <-]; exact I).
  destruct (shift_by dx dy rest); cbn; [discriminate |].
  intros [= <-]. auto.
Qed.

Lemma normalize_exception (ms : monitors) (e : pyerr) :
  normalize ms = Err e -> uncaught_exception e.
Proof.
  unfold normalize.
  destruct (min_coord pos_x ms) as [mx |] eqn:Ex; cbn [bind];
    [| intros [= <-]; eapply min_coord_exception;
       [apply pos_x_exception | eauto]].
  destruct (min_coord pos_y ms) as [my |] eqn:Ey; cbn [bind];
    [| intros [= <-]; eapply min_coord_exception;
       [apply pos_y_exception | eauto]].
  destruct (mx <? 0).
  - destruct (shift_by mx 0 ms) as [ms1 |] eqn:E1; cbn [bind];
      [| intros [= <-]; eapply shift_by_exception; eauto].
    destruct (my <? 0); [apply shift_by_exception | discriminate].
  - cbn [bind]. destruct (my <? 0); [apply shift_by_exception | discriminate].
Qed.

(** The layout resolver never ends a pass with [sys.exit(1)]. *)
Lemma resolve_exception (fuel : nat) (ms : monitors) (e : pyerr) :
  resolve fuel ms = Err e -> uncaught_exception e.
Proof.
  unfold resolve, resolve_from.
  destruct (get_upmost_leftmost_monitor ms) as [k |];
    [| intros [= <-]; exact I].
  destruct (set_position fuel ms k (0, 0)) eqn:E; cbn [bind].
  - apply normalize_exception.
  - intros [= <-]. eapply set_position_exception; eauto.
Qed.

(** With an unset position left in the mapping, the normalisation fails on
    reading it. *)
Lemma normalize_unset (ms : monitors) (k : string) (m : Monitor) :
  In (k, m) ms -> position m = PosUnset -> normalize ms = Err AttributeError.
Proof.
  intros Hin Hp. unfold normalize, min_coord.
  now rewrite (@coords_x_unset ms k m Hin Hp).
Qed.

(** C7, as amended. When the built graph still holds the two-cycle (each of
    the two displays is the right neighbour of the other) and one of them has
    no position, the pass never produces a layout. It ends with an uncaught
    exception, not with a reported configuration error, and nothing is
    applied. *)
Theorem two_cycle_never_resolves (fuel : nat) (cfg : config)
  (ds : list display) (ms : monitors) (a b : string) (ma mb : Monitor) :
  build_graph cfg ds = Ok ms ->
  get a ms = Some ma -> right ma = Some b -> b <> "" ->
  get b ms = Some mb -> right mb = Some a -> a <> "" ->
  position ma = PosUnset ->
  exists e, setup_monitors fuel cfg ds = Err e /\ uncaught_exception e.
Proof.
  intros Hb Hga Hra Hbn Hgb Hrb Han Hpa.
  unfold setup_monitors. rewrite Hb. cbn [bind].
  assert (Hab : has_right ms a b) by (exists ma; auto).
  assert (Hba : has_right ms b a) by (exists mb; auto).
  destruct (resolve fuel ms) as [ms' | e] eqn:E.
  - exfalso. unfold resolve, resolve_from in E.
    destruct (get_upmost_leftmost_monitor ms) as [k |]; [| discriminate].
    inv_bind E. rename a0 into ms1.
    destruct (@set_position_cycle_untouched fuel ms ms1 k a b (0, 0)
                Hab Hba Ha) as [H1 _].
    rewrite Hga in H1. apply get_In in H1.
    rewrite (@normalize_unset ms1 a ma H1 Hpa) in E. discriminate.
  - exists e. split; [reflexivity |]. eapply resolve_exception; eauto.
Qed.

(** ** Anchor discovery and the candidates it passes over *)

Lemma get_upmost_leftmost_monitor_first (pre post : monitors) (c : string)
  (m : Monitor) :
  Forall (fun e => is_candidate (snd e) = false) pre ->
  is_candidate m = true ->
  get_upmost_leftmost_monitor (pre ++ (c, m) :: post)%list = Some c.
Proof.
  intros Hpre Hm. induction Hpre as [| [k' m'] rest Hk _ IH]; cbn.
  - unfold is_candidate in Hm.
    destruct (is_auto (position m)); [discriminate |]. cbn in Hm.
    now rewrite Hm.
  - cbn in Hk. unfold is_candidate in Hk.
    destruct (is_auto (position m')); [exact IH |]. cbn in Hk.
    now rewrite Hk.
Qed.

Lemma get_upmost_leftmost_monitor_None (ms : monitors) :
  Forall (fun e => is_candidate (snd e) = false) ms ->
  get_upmost_leftmost_monitor ms = None.
Proof.
  induction 1 as [| [k' m'] rest Hk _ IH]; cbn; [reflexivity |].
  cbn in Hk. unfold is_candidate in Hk.
  destruct (is_auto (position m')); [exact IH |]. cbn in Hk.
  now rewrite Hk.
Qed.

Lemma no_pred_skeleton (ms1 ms2 : monitors) (c : string) :
  skeleton ms1 = skeleton ms2 -> no_pred c ms1 -> no_pred c ms2.
Proof.
  intros Hs Hn p mp Hg.
  destruct (@skeleton_get ms2 ms1 p mp (eq_sym Hs) Hg) as [m1 [Hg1 Hc]].
  destruct (Hn p m1 Hg1) as [H1 H2].
  rewrite (@core_right mp m1 Hc), (@core_below mp m1 Hc). auto.
Qed.

(** The traversal does not touch a display that is nobody's right or below
    neighbour, unless it starts there. *)
Lemma set_position_untouched (fuel : nat) :
  forall (ms ms' : monitors) (k c : string) (pos : Z * Z),
    no_pred c ms -> c <> k ->
    set_position fuel ms k pos = Ok ms' ->
    get c ms' = get c ms.
Proof.
  induction fuel as [| fuel IH]; intros ms ms' k c pos Hn Hck H;
    [discriminate |].
  cbn [set_position] in H.
  set (ms0 := update k (set_pos (PosXY (fst pos) (snd pos))) ms) in *.
  assert (H0 : get c ms0 = get c ms)
    by (unfold ms0; now apply get_update_other).
  assert (Hs0 : skeleton ms = skeleton ms0)
    by (unfold ms0; now rewrite skeleton_update_pos).
  pose proof (@no_pred_skeleton ms ms0 c Hs0 Hn) as Hn0.
  bind_inv H as mon Hmon. bind_inv H as ms1 Hright.
  assert (H1 : get c ms1 = get c ms0 /\ skeleton ms0 = skeleton ms1).
  { destruct (truthy (right mon)); [| now injection Hright as <-].
    destruct (right mon) as [r |] eqn:Hr; [| now injection Hright as <-].
    bind_inv Hright as rm Hrm. bind_inv Hright as np Hnp.
    apply getitem_Ok in Hmon. destruct (Hn0 k mon Hmon) as [Hc _].
    split.
    - eapply IH; [exact Hn0 | | exact Hright]. congruence.
    - symmetry. eapply set_position_skeleton; eauto. }
  destruct H1 as [H1 Hs1].
  pose proof (@no_pred_skeleton ms0 ms1 c Hs1 Hn0) as Hn1.
  assert (H2 : get c ms' = get c ms1).
  { bind_inv H as mon' Hmon'.
    destruct (truthy (below mon')); [| now injection H as <-].
    destruct (below mon') as [bl |] eqn:Hbl; [| now injection H as <-].
    bind_inv H as bm Hbm. bind_inv H as np Hnp.
    apply getitem_Ok in Hmon'. destruct (Hn1 k mon' Hmon') as [_ Hc].
    eapply IH; [exact Hn1 | | exact H]. congruence. }
  congruence.
Qed.

Lemma candidate_no_pred (ms : monitors) (c : string) (mc : Monitor) :
  links_ok ms -> get c ms = Some mc -> is_candidate mc = true ->
  no_pred c ms.
Proof.
  intros Hl Hg Hc p mp Hp. destruct (Hl p mp c Hp) as [Hr Hb].
  unfold is_candidate in Hc.
  apply andb_true_iff in Hc. destruct Hc as [Hc Hleft].
  apply andb_true_iff in Hc. destruct Hc as [_ Habove].
  split; intros E.
  - destruct (Hr E) as [mc' [Hg' Ht]]. rewrite Hg in Hg'.
    injection Hg' as <-. rewrite Ht in Hleft. discriminate.
  - destruct (Hb E) as [mc' [Hg' Ht]]. rewrite Hg in Hg'.
    injection Hg' as <-. rewrite Ht in Habove. discriminate.
Qed.

(** On a mapping with unique keys, fresh positions and consistent links, a
    candidate other than the anchor keeps its unset position through a
    traversal that completes, and the normalisation then fails on it. *)
Lemma later_candidate_unset (fuel : nat) (ms ms1 : monitors)
  (c1 c2 : string) (m2 : Monitor) :
  fresh ms -> links_ok ms ->
  get c2 ms = Some m2 -> is_candidate m2 = true -> c2 <> c1 ->
  set_position fuel ms c1 (0, 0) = Ok ms1 ->
  get c2 ms1 = Some m2 /\ position m2 = PosUnset /\
  normalize ms1 = Err AttributeError.
Proof.
  intros Hf Hl Hg Hc Hne H.
  assert (Hp : position m2 = PosUnset).
  { apply get_In in Hg. unfold fresh in Hf. rewrite Forall_forall in Hf.
    destruct (Hf _ Hg) as [Hp | Hp]; [exact Hp |].
    cbn in Hp. unfold is_candidate in Hc. rewrite Hp in Hc. discriminate. }
  assert (Hg1 : get c2 ms1 = Some m2).
  { rewrite <- Hg. eapply set_position_untouched; [| exact Hne | exact H].
    eapply candidate_no_pred; eauto. }
  split; [exact Hg1 |]. split; [exact Hp |].
  eapply normalize_unset; [apply get_In; exact Hg1 | exact Hp].
Qed.

(** ** The links the builder wires *)

Lemma split_from_nonempty (s cur : string) :
  Forall (fun t => t <> "") (split_from cur s).
Proof.
  revert cur. induction s as [| c s IH]; intros cur; cbn.
  - destruct (String.eqb_spec cur ""); constructor; auto.
  - destruct (is_space c); [| apply IH].
    destruct (String.eqb_spec cur ""); [apply IH |].
    constructor; [assumption | apply IH].
Qed.

Lemma py_index_split_nonempty (s t : string) (i : nat) :
  py_index (py_split s) i = Ok t -> t <> "".
Proof.
  unfold py_index, py_split.
  destruct (nth_error (split_from "" s) i) as [t' |] eqn:E; [| discriminate].
  intros [= <-]. apply nth_error_In in E.
  pose proof (split_from_nonempty s "") as HF.
  rewrite Forall_forall in HF. now apply HF.
Qed.

Lemma directions_effect_empty (monitor relative_to k : string)
  (m : Monitor) :
  directions_effect monitor relative_to "" k m = m.
Proof. reflexivity. Qed.

Lemma right_directions_effect (monitor r d k c : string) (m : Monitor) :
  right (directions_effect monitor r d k m) = Some c ->
  (c = monitor /\ k = r /\ contains "right-of" d = true) \/
  (c = r /\ k = monitor /\ contains "left-of" d = true) \/
  right m = Some c.
Proof.
  unfold directions_effect, pair_effect.
  destruct (contains "right-of" d), (contains "left-of" d),
    (contains "below" d), (contains "above" d),
    (String.eqb_spec k monitor), (String.eqb_spec k r); cbn;
    intros H; try (injection H as <-); auto.
Qed.

Lemma below_directions_effect (monitor r d k c : string) (m : Monitor) :
  below (directions_effect monitor r d k m) = Some c ->
  (c = monitor /\ k = r /\ contains "below" d = true) \/
  (c = r /\ k = monitor /\ contains "above" d = true) \/
  below m = Some c.
Proof.
  unfold directions_effect, pair_effect.
  destruct (contains "right-of" d), (contains "left-of" d),
    (contains "below" d), (contains "above" d),
    (String.eqb_spec k monitor), (String.eqb_spec k r); cbn;
    intros H; try (injection H as <-); auto.
Qed.

Lemma left_directions_effect_monitor (monitor r d : string) (m : Monitor) :
  contains "right-of" d = true ->
  left (directions_effect monitor r d monitor m) = Some r.
Proof.
  intros Hc. unfold directions_effect, pair_effect.
  rewrite Hc, String.eqb_refl.
  destruct (contains "left-of" d), (contains "below" d),
    (contains "above" d), (String.eqb monitor r); reflexivity.
Qed.

Lemma left_directions_effect_relative (monitor r d : string) (m : Monitor) :
  contains "left-of" d = true ->
  left (directions_effect monitor r d r m) = Some monitor \/
  left (directions_effect monitor r d r m) = Some r.
Proof.
  intros Hc. unfold directions_effect, pair_effect.
  rewrite Hc, String.eqb_refl.
  destruct (contains "right-of" d), (contains "below" d),
    (contains "above" d), (String.eqb r monitor); cbn; auto.
Qed.

Lemma above_directions_effect_monitor (monitor r d : string) (m : Monitor) :
  contains "below" d = true ->
  above (directions_effect monitor r d monitor m) = Some r.
Proof.
  intros Hc. unfold directions_effect, pair_effect.
  rewrite Hc, String.eqb_refl.
  destruct (contains "right-of" d), (contains "left-of" d),
    (contains "above" d), (String.eqb monitor r); reflexivity.
Qed.

Lemma above_directions_effect_relative (monitor r d : string) (m : Monitor) :
  contains "above" d = true ->
  above (directions_effect monitor r d r m) = Some monitor \/
  above (directions_effect monitor r d r m) = Some r.
Proof.
  intros Hc. unfold directions_effect, pair_effect.
  rewrite Hc, String.eqb_refl.
  destruct (contains "right-of" d), (contains "left-of" d),
    (contains "below" d), (String.eqb r monitor); cbn; auto.
Qed.

Lemma left_directions_effect_truthy (monitor r d k : string) (m : Monitor) :
  monitor <> "" -> d = "" \/ r <> "" ->
  truthy (left m) = true ->
  truthy (left (directions_effect monitor r d k m)) = true.
Proof.
  intros Hm [-> | Hr] Ht; [exact Ht |].
  pose proof (@truthy_Some monitor Hm) as T1.
  pose proof (@truthy_Some r Hr) as T2.
  unfold directions_effect, pair_effect.
  destruct (contains "right-of" d), (contains "left-of" d),
    (contains "below" d), (contains "above" d),
    (String.eqb k monitor), (String.eqb k r); cbn [left set_left set_right
      set_above set_below]; assumption.
Qed.

Lemma above_directions_effect_truthy (monitor r d k : string) (m : Monitor) :
  monitor <> "" -> d = "" \/ r <> "" ->
  truthy (above m) = true ->
  truthy (above (directions_effect monitor r d k m)) = true.
Proof.
  intros Hm [-> | Hr] Ht; [exact Ht |].
  pose proof (@truthy_Some monitor Hm) as T1.
  pose proof (@truthy_Some r Hr) as T2.
  unfold directions_effect, pair_effect.
  destruct (contains "right-of" d), (contains "left-of" d),
    (contains "below" d), (contains "above" d),
    (String.eqb k monitor), (String.eqb k r); cbn [above set_left set_right
      set_above set_below]; assumption.
Qed.

(** The links after one iteration of the second loop are those of the four
    directional blocks. *)
Lemma organize_one_links (monitor : string) (mc : monitor_config)
  (ms ms' : monitors) :
  organize_one monitor mc ms = Ok ms' ->
  exists d r,
    (d = "" \/ (r <> "" /\ mem r ms = true)) /\
    forall k, exists G,
      get k ms' = option_map G (get k ms) /\
      forall m, same_links (G m) (directions_effect monitor r d k m).
Proof.
  unfold organize_one. intros H. bind_inv H as ms1 H1. injection H as <-.
  assert (Hs : forall k (G : Monitor -> Monitor) (s : monitors),
             get k (match c_scale mc with
                    | Some v => update monitor (set_scale v) s
                    | None => s
                    end) =
             option_map (fun m => match c_scale mc with
                                  | Some v =>
                                      if String.eqb k monitor
                                      then set_scale v m else m
                                  | None => m
                                  end) (get k s)).
  { intros k _ s. destruct (c_scale mc) as [v |].
    - rewrite get_update. destruct (String.eqb k monitor), (get k s);
        reflexivity.
    - now destruct (get k s). }
  destruct (c_position mc) as [d |].
  - apply wire_position_inv in H1.
    destruct H1 as (r & r0 & Hidx & Hr0 & Hget).
    exists d, r. split.
    + right. split; [eapply py_index_split_nonempty; eauto |].
      apply mem_get. eauto.
    + intros k. eexists. split.
      * rewrite (Hs k (fun m => m)), Hget.
        destruct (get k ms); cbn [option_map]; reflexivity.
      * intros m. unfold same_as_effect, same_links.
        destruct (c_scale mc), (contains "same-as" d && String.eqb k monitor),
          (String.eqb k monitor); cbn; auto.
  - injection H1 as <-. exists "", "". split; [now left |].
    intros k. eexists. split; [apply (Hs k (fun m => m)) |].
    intros m. rewrite directions_effect_empty. unfold same_links.
    destruct (c_scale mc), (String.eqb k monitor); cbn; auto.
Qed.

Lemma contains_empty (sub : string) : sub <> "" -> contains sub "" = false.
Proof. destruct sub; [contradiction | reflexivity]. Qed.

Lemma organize_one_links_ok (monitor : string) (mc : monitor_config)
  (ms ms' : monitors) :
  monitor <> "" -> mem monitor ms = true -> links_ok ms ->
  organize_one monitor mc ms = Ok ms' -> links_ok ms'.
Proof.
  intros Hm Hmem Hl H.
  destruct (@organize_one_links monitor mc ms ms' H) as (d & r & Hd & HG).
  apply mem_get in Hmem. destruct Hmem as [m0 Hm0].
  assert (Hr : d = "" \/ r <> "") by tauto.
  assert (Hstep : forall c mc0, get c ms = Some mc0 ->
            exists mc', get c ms' = Some mc' /\
                        same_links mc' (directions_effect monitor r d c mc0)).
  { intros c mc0 Hc. destruct (HG c) as (G & HgG & HGl).
    rewrite Hc in HgG. eexists. split; [exact HgG | apply HGl]. }
  intros p mp' c Hp.
  destruct (HG p) as (G & HgG & HGl). rewrite Hp in HgG.
  destruct (get p ms) as [mp |] eqn:Hpm; [| discriminate].
  cbn [option_map] in HgG. injection HgG as ->.
  destruct (HGl mp) as (La & Lb & Ll & Lr).
  destruct (Hl p mp c Hpm) as [Hold_r Hold_b].
  split; intros E.
  - rewrite Lr in E. apply right_directions_effect in E.
    destruct E as [(-> & -> & Hc) | [(-> & -> & Hc) | E]].
    + destruct (Hstep monitor m0 Hm0) as (m' & Hg' & (_ & _ & Ll' & _)).
      exists m'. split; [exact Hg' |]. rewrite Ll'.
      rewrite (@left_directions_effect_monitor monitor r d m0 Hc).
      apply truthy_Some.
      destruct Hd as [-> | [Hrn _]]; [discriminate | exact Hrn].
    + destruct Hd as [-> | [Hrn Hrm]]; [discriminate |].
      apply mem_get in Hrm. destruct Hrm as [r0 Hr0].
      destruct (Hstep r r0 Hr0) as (m' & Hg' & (_ & _ & Ll' & _)).
      exists m'. split; [exact Hg' |]. rewrite Ll'.
      destruct (@left_directions_effect_relative monitor r d r0 Hc)
        as [-> | ->]; now apply truthy_Some.
    + destruct (Hold_r E) as (mc0 & Hc0 & Ht).
      destruct (Hstep c mc0 Hc0) as (m' & Hg' & (_ & _ & Ll' & _)).
      exists m'. split; [exact Hg' |]. rewrite Ll'.
      now apply left_directions_effect_truthy.
  - rewrite Lb in E. apply below_directions_effect in E.
    destruct E as [(-> & -> & Hc) | [(-> & -> & Hc) | E]].
    + destruct (Hstep monitor m0 Hm0) as (m' & Hg' & (La' & _)).
      exists m'. split; [exact Hg' |]. rewrite La'.
      rewrite (@above_directions_effect_monitor monitor r d m0 Hc).
      apply truthy_Some.
      destruct Hd as [-> | [Hrn _]]; [discriminate | exact Hrn].
    + destruct Hd as [-> | [Hrn Hrm]]; [discriminate |].
      apply mem_get in Hrm. destruct Hrm as [r0 Hr0].
      destruct (Hstep r r0 Hr0) as (m' & Hg' & (La' & _)).
      exists m'. split; [exact Hg' |]. rewrite La'.
      destruct (@above_directions_effect_relative monitor r d r0 Hc)
        as [-> | ->]; now apply truthy_Some.
    + destruct (Hold_b E) as (mc0 & Hc0 & Ht).
      destruct (Hstep c mc0 Hc0) as (m' & Hg' & (La' & _)).
      exists m'. split; [exact Hg' |]. rewrite La'.
      now apply above_directions_effect_truthy.
Qed.

Lemma organize_monitors_links_ok (cfg : config) (ms ms' : monitors) :
  (forall k mc, In (k, mc) cfg -> k <> "") ->
  links_ok ms -> organize_monitors cfg ms = Ok ms' -> links_ok ms'.
Proof.
  revert ms. induction cfg as [| [monitor mc] rest IH]; intros ms Hne Hl;
    simpl.
  - now intros [= <-].
  - assert (Hne' : forall k mc0, In (k, mc0) rest -> k <> "")
      by (intros k mc0 Hin; apply (Hne k mc0); now right).
    destruct (mem monitor ms) eqn:Hmem; cbn [negb]; [| now apply IH].
    intros H. bind_inv H as ms1 H1. apply (IH ms1 Hne'); [| exact H].
    eapply organize_one_links_ok; [| exact Hmem | exact Hl | exact H1].
    apply (Hne monitor mc). now left.
Qed.

Lemma match_monitors_links_ok (ds : list display) (cfg : config)
  (ms : monitors) :
  match_monitors ds cfg [] = Ok ms -> links_ok ms.
Proof.
  intros H p mp c Hp.
  destruct (@match_monitors_get ds cfg [] ms p mp H Hp)
    as [H0 | (mc & mt & d & _ & _ & _ & HR)]; [discriminate |].
  destruct HR as (_ & _ & _ & Hb & _ & Hr & _).
  rewrite Hb, Hr. split; discriminate.
Qed.

(** With non-empty logical names, the built graph has consistent links. *)
Lemma build_graph_links_ok (cfg : config) (ds : list display)
  (ms : monitors) :
  (forall k mc, In (k, mc) cfg -> k <> "") ->
  build_graph cfg ds = Ok ms -> links_ok ms.
Proof.
  unfold build_graph. intros Hne H. bind_inv H as ms0 H0.
  eapply organize_monitors_links_ok; [exact Hne | | exact H].
  eapply match_monitors_links_ok; eauto.
Qed.

Lemma wire_position_keys (monitor directive : string) (ms ms' : monitors) :
  wire_position monitor directive ms = Ok ms' -> keys ms' = keys ms.
Proof.
  unfold wire_position. intros H. bind_inv H as r Hr.
  destruct (negb (mem r ms)); [discriminate |].
  unfold wire_same_as in H.
  assert (Hd : keys (wire_right_of monitor r directive
                       (wire_left_of monitor r directive
                          (wire_below monitor r directive
                             (wire_above monitor r directive ms)))) =
               keys ms).
  { unfold wire_right_of, wire_left_of, wire_below, wire_above.
    destruct (contains "right-of" directive),
      (contains "left-of" directive), (contains "below" directive),
      (contains "above" directive); now rewrite ?keys_update. }
  destruct (contains "same-as" directive); [| now injection H as <-].
  bind_inv H as r0 Hr0. injection H as <-.
  now rewrite !keys_update.
Qed.

Lemma organize_one_keys (monitor : string) (mc : monitor_config)
  (ms ms' : monitors) :
  organize_one monitor mc ms = Ok ms' -> keys ms' = keys ms.
Proof.
  unfold organize_one. intros H. bind_inv H as ms1 H1. injection H as <-.
  assert (Hk : keys ms1 = keys ms).
  { destruct (c_position mc) as [directive |].
    - eapply wire_position_keys; eauto.
    - now injection H1 as <-. }
  destruct (c_scale mc); [rewrite keys_update |]; exact Hk.
Qed.

Lemma organize_monitors_keys (cfg : config) (ms ms' : monitors) :
  organize_monitors cfg ms = Ok ms' -> keys ms' = keys ms.
Proof.
  revert ms. induction cfg as [| [monitor mc] rest IH]; intros ms; simpl.
  - now intros [= ->].
  - destruct (mem monitor ms); cbn [negb]; [| apply IH].
    intros H. bind_inv H as ms1 H1. rewrite (IH _ H).
    eapply organize_one_keys; eauto.
Qed.

(** The builder returns a dictionary: its keys are unique. *)
Lemma build_graph_NoDup (cfg : config) (ds : list display) (ms : monitors) :
  build_graph cfg ds = Ok ms -> NoDup (keys ms).
Proof.
  unfold build_graph. intros H. bind_inv H as ms0 H0.
  rewrite (@organize_monitors_keys cfg ms0 ms H).
  eapply match_monitors_NoDup; [exact H0 | constructor].
Qed.

Lemma NoDup_keys_app_neq (pre post : monitors) (c1 c2 : string)
  (m1 m2 : Monitor) :
  NoDup (keys (pre ++ (c1, m1) :: post)%list) -> In (c2, m2) post ->
  c2 <> c1.
Proof.
  unfold keys. rewrite map_app. cbn [map fst]. intros Hnd Hin ->.
  apply NoDup_remove_2 in Hnd. apply Hnd. apply in_or_app. right.
  change c1 with (fst (c1, m2)). now apply in_map.
Qed.

(** C9, as amended. For a configuration whose logical names are not empty,
    anchor discovery returns the first display, in the order of the
    dictionary, that is not [auto] and has neither an above nor a left
    neighbour, and does not look for a second one. A later such display is
    not visited by the traversal: when the traversal completes its position
    is still unset and the normalisation fails on reading it with
    [AttributeError]; whether the traversal completes or fails on its way,
    the pass ends with an uncaught exception instead of a reported
    configuration error. *)
Theorem later_candidates_left_unset (fuel : nat) (cfg : config)
  (ds : list display) (pre post : monitors) (c1 c2 : string)
  (m1 m2 : Monitor) :
  (forall k mc, In (k, mc) cfg -> k <> "") ->
  build_graph cfg ds = Ok (pre ++ (c1, m1) :: post)%list ->
  Forall (fun e => is_candidate (snd e) = false) pre ->
  is_candidate m1 = true ->
  In (c2, m2) post ->
  is_candidate m2 = true ->
  get_upmost_leftmost_monitor (pre ++ (c1, m1) :: post)%list = Some c1 /\
  (forall ms1,
      set_position fuel (pre ++ (c1, m1) :: post)%list c1 (0, 0) = Ok ms1 ->
      In (c2, m2) ms1 /\ position m2 = PosUnset /\
      normalize ms1 = Err AttributeError) /\
  exists e, setup_monitors fuel cfg ds = Err e /\ uncaught_exception e.
Proof.
  intros Hne Hb Hpre Hm1 Hin Hm2.
  set (ms := (pre ++ (c1, m1) :: post)%list) in *.
  pose proof (@build_graph_NoDup cfg ds ms Hb) as Hnd.
  pose proof (@build_graph_fresh cfg ds ms Hb) as Hf.
  pose proof (@build_graph_links_ok cfg ds ms Hne Hb) as Hl.
  pose proof (@NoDup_keys_app_neq pre post c1 c2 m1 m2 Hnd Hin) as Hneq.
  assert (Hg2 : get c2 ms = Some m2).
  { apply In_get; [exact Hnd |]. unfold ms. apply in_or_app. right.
    now right. }
  pose proof (@get_upmost_leftmost_monitor_first pre post c1 m1 Hpre Hm1)
    as Hanchor.
  assert (Hplace : forall ms1,
             set_position fuel ms c1 (0, 0) = Ok ms1 ->
             In (c2, m2) ms1 /\ position m2 = PosUnset /\
             normalize ms1 = Err AttributeError).
  { intros ms1 H1.
    destruct (@later_candidate_unset fuel ms ms1 c1 c2 m2 Hf Hl Hg2 Hm2
                Hneq H1) as (G & P & N).
    split; [now apply get_In | auto]. }
  split; [exact Hanchor |]. split; [exact Hplace |].
  unfold setup_monitors. rewrite Hb. cbn [bind].
  destruct (resolve fuel ms) as [ms' | e] eqn:E.
  - exfalso. unfold resolve in E. fold ms in Hanchor. rewrite Hanchor in E.
    cbn [resolve_from] in E. bind_inv E as ms1 H1.
    destruct (Hplace ms1 H1) as (_ & _ & N). congruence.
  - exists e. split; [reflexivity |]. eapply resolve_exception; eauto.
Qed.

(** ** The claims at concrete inputs *)

(** What [set_position] hands to a right neighbour: the x is the width of
    the current display, whatever the current x is. *)
Lemma next_right_value (m r : Monitor) (x y w h rw rh : Z) :
  resolution m = ResWH w h -> resolution r = ResWH rw rh ->
  next_right m r (x, y) =
  Ok (w, if String.eqb (align r) "top" then y
         else if String.eqb (align r) "bottom" then h - rh
              else (h - rh) / 2).
Proof.
  intros Hm Hr. unfold next_right. rewrite Hm, Hr. cbn.
  destruct (String.eqb (align r) "top"); [reflexivity |].
  destruct (String.eqb (align r) "bottom"); reflexivity.
Qed.

(** What [set_position] hands to the neighbour below: the y is the height
    of the current display, whatever the current y is. *)
Lemma next_below_value (m b : Monitor) (x y w h bw bh : Z) :
  resolution m = ResWH w h -> resolution b = ResWH bw bh ->
  next_below m b (x, y) =
  Ok (if String.eqb (align b) "left" then x
      else if String.eqb (align b) "right" then w - bw
           else (w - bw) / 2, h).
Proof.
  intros Hm Hb. unfold next_below. rewrite Hm, Hb. cbn.
  destruct (String.eqb (align b) "left"); [reflexivity |].
  destruct (String.eqb (align b) "right"); reflexivity.
Qed.

(** Any alignment other than [top] and [bottom], the valid [left] and
    [right] included, places a right neighbour as [center] does. *)
Lemma next_right_falls_back_to_center (m r : Monitor) (x y w h rw rh : Z) :
  resolution m = ResWH w h -> resolution r = ResWH rw rh ->
  align r <> "top" -> align r <> "bottom" ->
  next_right m r (x, y) = Ok (w, (h - rh) / 2).
Proof.
  intros Hm Hr Ht Hb. rewrite (next_right_value m r x y Hm Hr).
  destruct (String.eqb_spec (align r) "top"); [contradiction |].
  destruct (String.eqb_spec (align r) "bottom"); [contradiction |].
  reflexivity.
Qed.

(** C1, at the failing input. With three displays in a row the third one is
    placed at x = 1280, the width of the second, and y = 128; the claim puts
    it at x = 1920 + 1280 and y = 28 + 128. *)
Theorem third_in_row_ignores_offset :
  (exists ms, setup_monitors 10 cfg_row displays = Ok ms /\
              positions ms =
              [("A", PosXY 0 0); ("B", PosXY 1920 28);
               ("C", PosXY 1280 128)]) /\
  PosXY 1280 128 <> PosXY (1920 + 1280) (28 + (1024 - 768) / 2).
Proof.
  split.
  - eexists. split; [vm_compute; reflexivity | reflexivity].
  - discriminate.
Qed.

(** C2, counterexample. X matches one display, Y matches none, and the pass
    ends with [sys.exit(1)] instead of skipping X. *)
Lemma unmatched_reference_counterexample :
  select_monitors displays [("name", PyStr "DP-2")] = Ok (Some dp2) /\
  select_monitors displays [("name", PyStr "HDMI-A-1")] = Ok None /\
  setup_monitors 10 cfg_absent displays =
  Err (SysExit (MonitorNotFound "Y")) /\
  ~ (exists ms, setup_monitors 10 cfg_absent displays = Ok ms).
Proof.
  repeat split; try (vm_compute; reflexivity).
  intros [ms H]. vm_compute in H. discriminate.
Qed.

Lemma unmatched_reference_is_fatal_witness :
  exists e, setup_monitors 10 cfg_absent displays = Err e /\ build_error e.
Proof.
  apply (@unmatched_reference_is_fatal 10 cfg_absent displays "X" "Y"
           "right-of Y" (declare "DP-2" (Some "right-of Y") None None)
           [("name", PyStr "DP-2")] dp2).
  - right. left. reflexivity.
  - reflexivity.
  - vm_compute. reflexivity.
  - reflexivity.
  - vm_compute. reflexivity.
  - intros cy mt' [H | [H | []]] Hm; inversion H; subst cy;
      cbn in Hm; injection Hm as <-; vm_compute; reflexivity.
Defined.

(** C3, counterexample. A mirror that declares [scale: 2] is built with
    scale 2, not 1. *)
Lemma same_as_scale_counterexample :
  exists ms m,
    build_graph cfg_mirror_scaled displays = Ok ms /\
    get "M" ms = Some m /\
    position m = PosAuto /\ resolution m = ResPreferred /\
    extra m = Some "mirror,DP-1" /\
    scale m = PyInt 2 /\ py_eqb (scale m) (PyInt 1) = false /\
    py_eqb (scale m) (PyStr "1") = false.
Proof.
  eexists. eexists. split; [vm_compute; reflexivity |].
  split; [reflexivity |]. repeat split.
Qed.

Lemma same_as_record_witness :
  position rec_M = PosAuto /\ resolution rec_M = ResPreferred /\
  scale rec_M = PyInt 2 /\
  exists cX mtX dX,
    In ("A", cX) cfg_mirror_scaled /\ c_match cX = Some mtX /\
    select_monitors displays mtX = Ok (Some dX) /\
    extra rec_M = Some ("mirror," ++ d_name dX).
Proof.
  apply (@same_as_record cfg_mirror_scaled displays
           [("A", rec_A); ("M", rec_M)] "M" "same-as A" "A"
           (declare "DP-2" (Some "same-as A") None (Some (PyInt 2))) rec_M).
  - repeat constructor; cbn; intuition discriminate.
  - vm_compute. reflexivity.
  - right. left. reflexivity.
  - reflexivity.
  - vm_compute. reflexivity.
  - vm_compute. reflexivity.
  - reflexivity.
Defined.

(** C4, counterexample. The alignment [middle] ends the pass with
    [sys.exit(1)]; the display is not placed as if it were centred. *)
Lemma invalid_align_counterexample :
  select_monitors displays [("name", PyStr "DP-1")] = Ok (Some dp1) /\
  valid_align (PyStr "middle") = false /\
  setup_monitors 10 cfg_bad_align displays =
  Err (SysExit (InvalidAlign "A")) /\
  ~ (exists ms, setup_monitors 10 cfg_bad_align displays = Ok ms).
Proof.
  repeat split; try (vm_compute; reflexivity).
  intros [ms H]. vm_compute in H. discriminate.
Qed.

Lemma invalid_align_is_fatal_witness :
  exists why, setup_monitors 10 cfg_bad_align displays = Err (SysExit why).
Proof.
  apply (@invalid_align_is_fatal 10 cfg_bad_align displays "A"
           (declare "DP-1" None (Some (PyStr "middle")) None)
           [("name", PyStr "DP-1")] (PyStr "middle") dp1).
  - left. reflexivity.
  - reflexivity.
  - reflexivity.
  - reflexivity.
  - left. reflexivity.
  - reflexivity.
Defined.

(** C5, at the failing input. With a mirror in the mapping and a negative
    minimum y, graph construction and placement complete, the mirror is
    still [auto], and the shift loop then reads the position of the mirror
    and raises [ValueError]: the resolution does not complete. *)
Theorem negative_shift_reads_auto :
  exists ms ms1,
    build_graph cfg_tall_mirror displays = Ok ms /\
    get_upmost_leftmost_monitor ms = Some "A" /\
    set_position 10 ms "A" (0, 0) = Ok ms1 /\
    positions ms1 =
    [("A", PosXY 0 0); ("B", PosXY 1920 (-460)); ("M", PosAuto)] /\
    min_coord pos_x ms1 = Ok 0 /\ min_coord pos_y ms1 = Ok (-460) /\
    shift_by 0 (-460) ms1 = Err ValueError /\
    setup_monitors 10 cfg_tall_mirror displays = Err ValueError.
Proof.
  eexists. eexists. split; [vm_compute; reflexivity |].
  split; [reflexivity |]. split; [vm_compute; reflexivity |].
  repeat split.
Qed.

(** C6, at the failing input. The anchor A is placed at (0,0) and B has a
    negative y, so the minimum y is -460; with the mirror M in the mapping
    the normalisation raises [ValueError] in its shift loop and returns no
    mapping, where the claim has the minimum y become 0. *)
Theorem negative_minimum_not_normalized :
  exists ms ms1,
    build_graph cfg_tall_mirror displays = Ok ms /\
    set_position 10 ms "A" (0, 0) = Ok ms1 /\
    option_map position (get "A" ms1) = Some (PosXY 0 0) /\
    option_map position (get "B" ms1) = Some (PosXY 1920 (-460)) /\
    option_map position (get "M" ms1) = Some PosAuto /\
    min_coord pos_y ms1 = Ok (-460) /\
    normalize ms1 = Err ValueError /\
    ~ (exists ms', normalize ms1 = Ok ms').
Proof.
  eexists. eexists. split; [vm_compute; reflexivity |].
  split; [vm_compute; reflexivity |].
  repeat split. intros [ms' H]. vm_compute in H. discriminate.
Qed.

(** Without the mirror the same layout is normalised. *)
Example tall_is_normalized :
  normalize placed_tall = Ok resolved_tall /\
  min_coord pos_y resolved_tall = Ok 0.
Proof. split; vm_compute; reflexivity. Qed.

(** C7, counterexample. A and B are declared left of each other; Q is
    declared right of A afterwards, which re-points the right link of A, and
    P above B gives the graph an anchor. The pass completes and returns a
    layout for the four displays. *)
Lemma two_cycle_counterexample :
  In ("A", declare "DP-3" (Some "left-of B") None None) cfg_cycle_rewired /\
  In ("B", declare "DP-2" (Some "left-of A") None None) cfg_cycle_rewired /\
  exists ms,
    setup_monitors 10 cfg_cycle_rewired displays = Ok ms /\
    positions ms =
    [("A", PosXY 1280 128); ("B", PosXY 320 1080); ("Q", PosXY 1024 84);
     ("P", PosXY 0 0)].
Proof.
  split; [left; reflexivity |]. split; [right; left; reflexivity |].
  eexists. split; [vm_compute; reflexivity | reflexivity].
Qed.

Lemma two_cycle_never_resolves_witness :
  exists e, setup_monitors 10 cfg_cycle displays = Err e /\
            uncaught_exception e.
Proof.
  apply (@two_cycle_never_resolves 10 cfg_cycle displays
           [("A", cycle_A); ("B", cycle_B)] "A" "B" cycle_A cycle_B).
  - vm_compute. reflexivity.
  - reflexivity.
  - reflexivity.
  - discriminate.
  - reflexivity.
  - reflexivity.
  - discriminate.
  - reflexivity.
Defined.

Lemma resolution_idempotent_witness :
  resolve_from 10 resolved_tall (Some "A") = Ok resolved_tall.
Proof.
  apply (@resolution_idempotent 10 cfg_tall displays built_tall
           resolved_tall (Some "A")).
  - vm_compute. reflexivity.
  - vm_compute. reflexivity.
Defined.

(** C9, counterexample. With a display named by the empty string, declared
    left of B, the left link of B is the empty string and B passes the
    anchor test as a second candidate; it is the right neighbour of the
    first, the traversal places it, and the pass completes. With B left of
    its own mirror M, the candidates are B and Z, and the traversal from B
    fails on the resolution [preferred] of M with [IndexError]: the
    normalisation is never reached. *)
Lemma later_candidates_counterexample :
  (exists m0 mB ms,
      build_graph cfg_empty_name displays = Ok [("", m0); ("B", mB)] /\
      is_candidate m0 = true /\ is_candidate mB = true /\
      setup_monitors 10 cfg_empty_name displays = Ok ms /\
      positions ms = [("", PosXY 0 0); ("B", PosXY 1920 28)]) /\
  (exists mB mM mZ,
      build_graph cfg_mirror_right displays =
      Ok [("B", mB); ("M", mM); ("Z", mZ)] /\
      is_candidate mB = true /\ is_candidate mZ = true /\
      get_upmost_leftmost_monitor [("B", mB); ("M", mM); ("Z", mZ)] =
      Some "B" /\
      set_position 10 [("B", mB); ("M", mM); ("Z", mZ)] "B" (0, 0) =
      Err IndexError /\
      setup_monitors 10 cfg_mirror_right displays = Err IndexError).
Proof.
  split.
  - do 3 eexists. split; [vm_compute; reflexivity |].
    split; [reflexivity |]. split; [reflexivity |].
    split; [vm_compute; reflexivity | reflexivity].
  - do 3 eexists. split; [vm_compute; reflexivity |].
    repeat split; vm_compute; reflexivity.
Qed.

Lemma later_candidates_left_unset_witness :
  get_upmost_leftmost_monitor ([] ++ ("A", rec_A) :: [("B", rec_B)])%list =
  Some "A" /\
  (forall ms1,
      set_position 10 ([] ++ ("A", rec_A) :: [("B", rec_B)])%list "A" (0, 0)
      = Ok ms1 ->
      In ("B", rec_B) ms1 /\ position rec_B = PosUnset /\
      normalize ms1 = Err AttributeError) /\
  exists e, setup_monitors 10 cfg_two_anchors displays = Err e /\
            uncaught_exception e.
Proof.
  apply (@later_candidates_left_unset 10 cfg_two_anchors displays
           [] [("B", rec_B)] "A" "B" rec_A rec_B).
  - intros k mc [H | [H | []]]; inversion H; discriminate.
  - vm_compute. reflexivity.
  - constructor.
  - reflexivity.
  - left. reflexivity.
  - reflexivity.
Defined.

Lemma wire_position_fires_every_branch_witness :
  exists ms' m r r0,
    wire_position "B" "below DP-above" matched_keyword_name = Ok ms' /\
    get "B" ms' = Some m /\ get "DP-above" ms' = Some r /\
    get "DP-above" matched_keyword_name = Some r0 /\
    (contains "above" "below DP-above" = true ->
     below m = Some "DP-above" /\ above r = Some "B") /\
    (contains "below" "below DP-above" = true ->
     above m = Some "DP-above" /\ below r = Some "B") /\
    (contains "left-of" "below DP-above" = true ->
     right m = Some "DP-above" /\ left r = Some "B") /\
    (contains "right-of" "below DP-above" = true ->
     left m = Some "DP-above" /\ right r = Some "B") /\
    (contains "same-as" "below DP-above" = true ->
     position m = PosAuto /\ resolution m = ResPreferred /\
     scale m = PyStr "1" /\ extra m = Some ("mirror," ++ id r0)).
Proof.
  apply (@wire_position_fires_every_branch "B" "below DP-above" "DP-above"
           matched_keyword_name).
  - vm_compute. reflexivity.
  - reflexivity.
  - reflexivity.
Defined.

(** The directive [below DP-above] wires both pairs of links. *)
Example keyword_in_name_wires_two_pairs :
  contains "above" "below DP-above" = true /\
  contains "below" "below DP-above" = true /\
  exists ms,
    build_graph cfg_keyword_name displays = Ok ms /\
    option_map above (get "B" ms) = Some (Some "DP-above") /\
    option_map below (get "B" ms) = Some (Some "DP-above") /\
    option_map above (get "DP-above" ms) = Some (Some "B") /\
    option_map below (get "DP-above" ms) = Some (Some "B").
Proof.
  split; [reflexivity |]. split; [reflexivity |].
  eexists. split; [vm_compute; reflexivity |]. repeat split.
Qed.

(** Resolution of the two examples of the specification. *)
Example right_of_align_top :
  exists ms,
    setup_monitors 10
      [("A", declare "DP-1" None None None);
       ("B", declare "DP-2" (Some "right-of A") (Some (PyStr "top")) None)]
      displays = Ok ms /\
    positions ms = [("A", PosXY 0 0); ("B", PosXY 1920 0)].
Proof. eexists. split; [vm_compute; reflexivity | reflexivity]. Qed.

Example right_of_align_center :
  exists ms,
    setup_monitors 10
      [("A", declare "DP-1" None None None);
       ("B", declare "DP-2" (Some "right-of A") None None)]
      displays = Ok ms /\
    positions ms = [("A", PosXY 0 0); ("B", PosXY 1920 28)].
Proof. eexists. split; [vm_compute; reflexivity | reflexivity]. Qed.


(** * Further properties of the code *)

(** ** Strings *)

Lemma string_app_assoc (a b c : string) : (a ++ b) ++ c = a ++ (b ++ c).
Proof. induction a as [| x a IH]; cbn; [reflexivity | now rewrite IH]. Qed.

Lemma string_app_nil_r (a : string) : a ++ "" = a.
Proof. induction a as [| x a IH]; cbn; [reflexivity | now rewrite IH]. Qed.

Lemma string_length_app (a b : string) :
  String.length (a ++ b) = (String.length a + String.length b)%nat.
Proof. induction a as [| x a IH]; cbn; [reflexivity | now rewrite IH]. Qed.

Lemma prefix_app (a s : string) :
  prefix a s = true <-> exists post, s = a ++ post.
Proof.
  revert s. induction a as [| x a IH]; intros s.
  - split; [intros _; now exists s | intros _; now destruct s].
  - destruct s as [| y s]; cbn.
    + split; [discriminate | intros [p Hp]; discriminate].
    + destruct (Ascii.ascii_dec x y) as [-> | Hne].
      * rewrite IH. split; intros [p Hp]; exists p;
          [now rewrite Hp | now injection Hp].
      * split; [discriminate |]. intros [p Hp]. injection Hp as Hxy _.
        congruence.
Qed.

(** [sub in s] holds exactly when [sub] occurs in [s]. *)
Lemma contains_occurs (sub s : string) :
  contains sub s = true <-> exists pre post, s = pre ++ sub ++ post.
Proof.
  induction s as [| c s IH]; cbn [contains].
  - rewrite orb_false_r, prefix_app. split.
    + intros [post Hp]. exists "", post. exact Hp.
    + intros (pre & post & Hp). destruct pre; [now exists post | discriminate].
  - rewrite orb_true_iff, prefix_app, IH. split.
    + intros [[post Hp] | (pre & post & Hp)].
      * exists "", post. exact Hp.
      * exists (String c pre), post. cbn. now rewrite Hp.
    + intros (pre & post & Hp). destruct pre as [| x pre].
      * left. exists post. exact Hp.
      * right. cbn in Hp. injection Hp as _ Hp. now exists pre, post.
Qed.

Lemma no_space_app (a b : string) :
  no_space (a ++ b) = no_space a && no_space b.
Proof.
  induction a as [| x a IH]; cbn; [reflexivity |].
  now rewrite IH, andb_assoc.
Qed.

Lemma split_from_no_space (s cur : string) :
  no_space cur = true ->
  Forall (fun t => no_space t = true) (split_from cur s).
Proof.
  revert cur. induction s as [| c s IH]; intros cur Hc; cbn.
  - destruct (String.eqb cur ""); constructor; auto.
  - destruct (is_space c) eqn:E.
    + destruct (String.eqb cur ""); [apply IH; reflexivity |].
      constructor; [exact Hc | apply IH; reflexivity].
    + apply IH. rewrite no_space_app, Hc. cbn. now rewrite E.
Qed.

(** Reading a word: the characters of a word without white space extend the
    current run. *)
Lemma split_from_word (w cur rest : string) :
  no_space w = true ->
  split_from cur (w ++ rest) = split_from (cur ++ w) rest.
Proof.
  revert cur. induction w as [| c w IH]; intros cur Hw; cbn.
  - now rewrite string_app_nil_r.
  - cbn in Hw. apply andb_true_iff in Hw. destruct Hw as [Hc Hw].
    apply negb_true_iff in Hc. rewrite Hc.
    rewrite (IH (cur ++ String c "") Hw), string_app_assoc. reflexivity.
Qed.

Lemma eqb_empty_false (w : string) : w <> "" -> String.eqb w "" = false.
Proof. intros H. now apply String.eqb_neq. Qed.

(** X1. The display a directive refers to is its second word: for a keyword
    and a name, both without white space, the directive [<keyword> <name>]
    refers to [<name>]. *)
Theorem directive_referent (keyword display_name : string) :
  keyword <> "" -> display_name <> "" ->
  no_space keyword = true -> no_space display_name = true ->
  py_index (py_split (keyword ++ " " ++ display_name)) 1 = Ok display_name.
Proof.
  intros Hkw Hn Skw Sn. unfold py_split.
  rewrite (@split_from_word keyword "" (" " ++ display_name) Skw).
  change ("" ++ keyword) with keyword.
  change (" " ++ display_name) with (String " " display_name).
  cbn [split_from]. change (is_space " ") with true. cbn iota.
  rewrite (@eqb_empty_false keyword Hkw).
  replace (split_from "" display_name) with [display_name]; [reflexivity |].
  rewrite <- (string_app_nil_r display_name) at 2.
  rewrite (@split_from_word display_name "" "" Sn).
  change ("" ++ display_name) with display_name. cbn [split_from].
  now rewrite (@eqb_empty_false display_name Hn).
Qed.

Lemma directive_referent_witness :
  py_index (py_split ("right-of" ++ " " ++ "DP-1")) 1 = Ok "DP-1".
Proof.
  apply (@directive_referent "right-of" "DP-1");
    first [discriminate | reflexivity].
Defined.

(** X2. Whatever the directive, the word it refers to is not empty and has
    no white space: a display whose logical name contains a space, or is
    empty, cannot be the target of a directive. *)
Theorem referent_is_a_word (directive relative_to : string) :
  py_index (py_split directive) 1 = Ok relative_to ->
  relative_to <> "" /\ no_space relative_to = true.
Proof.
  intros H. split; [eapply py_index_split_nonempty; eauto |].
  unfold py_index, py_split in H.
  destruct (nth_error (split_from "" directive) 1) as [t |] eqn:E;
    [| discriminate].
  injection H as <-. apply nth_error_In in E.
  pose proof (@split_from_no_space directive "" eq_refl) as HF.
  rewrite Forall_forall in HF. now apply HF.
Qed.

Lemma referent_is_a_word_witness :
  "B" <> "" /\ no_space "B" = true.
Proof.
  apply (@referent_is_a_word "  left-of   B  and more" "B"). reflexivity.
Defined.

(** ** The event stream *)

Lemma split_line_None (buffer : string) :
  split_line buffer = None <-> no_newline buffer = true.
Proof.
  induction buffer as [| c rest IH]; cbn; [tauto |].
  destruct (Ascii.eqb c newline); cbn; [split; discriminate |].
  destruct (split_line rest) as [[d r] |]; rewrite <- IH;
    split; congruence.
Qed.

Lemma split_line_first (data rest : string) :
  no_newline data = true ->
  split_line (data ++ String newline rest) = Some (data, rest).
Proof.
  induction data as [| c data IH]; cbn; intros H.
  - reflexivity.
  - apply andb_true_iff in H. destruct H as [Hc Hd].
    apply negb_true_iff in Hc. now rewrite Hc, (IH Hd).
Qed.

Lemma split_line_Some (buffer data rest : string) :
  split_line buffer = Some (data, rest) ->
  buffer = data ++ String newline rest /\ no_newline data = true /\
  (String.length rest < String.length buffer)%nat.
Proof.
  revert data. induction buffer as [| c b IH]; intros data; cbn;
    [discriminate |].
  destruct (Ascii.eqb_spec c newline) as [-> | Hne].
  - intros [= <- <-]. cbn. repeat split. lia.
  - destruct (split_line b) as [[d r] |]; [| discriminate].
    intros [= <- <-]. destruct (IH d eq_refl) as (-> & Hd & Hl).
    cbn. rewrite Hd. repeat split.
    + destruct (Ascii.eqb_spec c newline); [contradiction | reflexivity].
    + lia.
Qed.

Lemma drain_rounds_spec (rounds : nat) :
  forall buffer,
    (String.length buffer <= rounds)%nat ->
    unsplit (fst (drain_rounds rounds buffer))
      (snd (drain_rounds rounds buffer)) = buffer /\
    Forall (fun d => no_newline d = true) (fst (drain_rounds rounds buffer)) /\
    no_newline (snd (drain_rounds rounds buffer)) = true.
Proof.
  induction rounds as [| rounds IH]; intros buffer Hlen; cbn.
  - destruct buffer; [repeat split; constructor | cbn in Hlen; lia].
  - destruct (split_line buffer) as [[data rest] |] eqn:E.
    + apply split_line_Some in E. destruct E as (-> & Hd & Hl).
      destruct (IH rest ltac:(lia)) as (H1 & H2 & H3).
      destruct (drain_rounds rounds rest) as [records left]. cbn in *.
      rewrite H1. repeat split; [constructor; assumption | exact H3].
    + cbn. repeat split; [constructor |]. now apply split_line_None.
Qed.

Lemma length_unsplit (records : list string) (left : string) :
  (String.length left <= String.length (unsplit records left))%nat.
Proof.
  induction records as [| d rest IH]; cbn; [lia |].
  rewrite string_length_app. cbn. lia.
Qed.

(** The records and the rest are determined by the bytes. *)
Lemma drain_rounds_unsplit (records : list string) :
  forall left rounds,
    Forall (fun d => no_newline d = true) records ->
    no_newline left = true ->
    (String.length (unsplit records left) <= rounds)%nat ->
    drain_rounds rounds (unsplit records left) = (records, left).
Proof.
  induction records as [| d rest IH]; intros left rounds HF Hl Hlen; cbn.
  - destruct rounds; [reflexivity |]. cbn.
    now rewrite (proj2 (split_line_None left) Hl).
  - inversion HF as [| ? ? Hd HF']; subst.
    cbn in Hlen. rewrite string_length_app in Hlen. cbn in Hlen.
    destruct rounds as [| rounds]; [lia |]. cbn.
    rewrite (@split_line_first d (unsplit rest left) Hd).
    rewrite (IH left rounds HF' Hl ltac:(lia)). reflexivity.
Qed.

Lemma drain_unsplit (records : list string) (left : string) :
  Forall (fun d => no_newline d = true) records ->
  no_newline left = true ->
  drain (unsplit records left) = (records, left).
Proof.
  intros HF Hl. unfold drain. now apply drain_rounds_unsplit.
Qed.

Lemma drain_spec (buffer : string) :
  unsplit (fst (drain buffer)) (snd (drain buffer)) = buffer /\
  Forall (fun d => no_newline d = true) (fst (drain buffer)) /\
  no_newline (snd (drain buffer)) = true.
Proof. unfold drain. now apply drain_rounds_spec. Qed.

Lemma unsplit_app_left (records : list string) (left more : string) :
  unsplit records left ++ more = unsplit records (left ++ more).
Proof.
  induction records as [| d rest IH]; cbn; [reflexivity |].
  rewrite string_app_assoc. cbn. now rewrite IH.
Qed.

Lemma unsplit_app (r1 r2 : list string) (left : string) :
  unsplit (r1 ++ r2)%list left = unsplit r1 (unsplit r2 left).
Proof.
  induction r1 as [| d rest IH]; cbn; [reflexivity | now rewrite IH].
Qed.

(** Draining after more bytes have arrived continues from what was left. *)
Lemma drain_app (buffer more : string) :
  drain (buffer ++ more) =
  ((fst (drain buffer) ++ fst (drain (snd (drain buffer) ++ more)))%list,
   snd (drain (snd (drain buffer) ++ more))).
Proof.
  destruct (drain_spec buffer) as (H1 & H2 & H3).
  destruct (drain_spec (snd (drain buffer) ++ more)) as (G1 & G2 & G3).
  remember (fst (drain buffer)) as l1.
  remember (snd (drain buffer)) as r1.
  remember (fst (drain (r1 ++ more))) as l2.
  remember (snd (drain (r1 ++ more))) as r2.
  assert (E : buffer ++ more = unsplit (l1 ++ l2)%list r2).
  { rewrite unsplit_app, G1, <- unsplit_app_left, H1. reflexivity. }
  rewrite E. apply drain_unsplit; [| exact G3].
  apply Forall_app. split; assumption.
Qed.

Lemma drain_no_newline (buffer : string) :
  no_newline buffer = true -> drain buffer = ([], buffer).
Proof. intros H. now apply (@drain_unsplit [] buffer). Qed.

(** The records read from a sequence of non-empty chunks are those of the
    bytes received. *)
Lemma read_loop_drain (chunks : list string) :
  forall buffer,
    no_newline buffer = true ->
    Forall (fun c => c <> "") chunks ->
    read_loop buffer chunks = fst (drain (buffer ++ join_chunks chunks)).
Proof.
  induction chunks as [| c rest IH]; intros buffer Hb HF; cbn.
  - rewrite string_app_nil_r, (@drain_no_newline buffer Hb). reflexivity.
  - inversion HF as [| ? ? Hc HF']; subst.
    rewrite (@eqb_empty_false c Hc).
    destruct (drain_spec (buffer ++ c)) as (_ & _ & H3).
    rewrite <- string_app_assoc, (drain_app (buffer ++ c)).
    destruct (drain (buffer ++ c)) as [records left]. cbn [fst snd] in *.
    now rewrite (IH left H3 HF').
Qed.

(** X3. The records the listener yields are the newline-terminated lines of
    the bytes received, whatever the chunks were: put back together with
    their newlines, and followed by an unterminated rest that is never
    yielded, they are the bytes received; no record contains a newline. *)
Theorem read_loop_lines (chunks : list string) :
  Forall (fun c => c <> "") chunks ->
  exists left,
    unsplit (read_loop "" chunks) left = join_chunks chunks /\
    no_newline left = true /\
    Forall (fun d => no_newline d = true) (read_loop "" chunks).
Proof.
  intros HF. rewrite (@read_loop_drain chunks "" eq_refl HF).
  change ("" ++ join_chunks chunks) with (join_chunks chunks).
  destruct (drain_spec (join_chunks chunks)) as (H1 & H2 & H3).
  exists (snd (drain (join_chunks chunks))). auto.
Qed.

Lemma read_loop_lines_witness :
  exists left,
    unsplit (read_loop "" [chunk_head; chunk_tail]) left =
    join_chunks [chunk_head; chunk_tail] /\
    no_newline left = true /\
    Forall (fun d => no_newline d = true)
      (read_loop "" [chunk_head; chunk_tail]).
Proof.
  apply (@read_loop_lines [chunk_head; chunk_tail]).
  repeat constructor; discriminate.
Defined.

(** X4. How the bytes are cut into chunks does not matter: two sequences of
    non-empty chunks that carry the same bytes make the listener yield the
    same events, whatever the decoder does. *)
Theorem start_chunking (decode : string -> option string)
  (chunks1 chunks2 : list string) :
  Forall (fun c => c <> "") chunks1 ->
  Forall (fun c => c <> "") chunks2 ->
  join_chunks chunks1 = join_chunks chunks2 ->
  start decode chunks1 = start decode chunks2.
Proof.
  intros H1 H2 Hj. unfold start.
  rewrite (@read_loop_drain chunks1 "" eq_refl H1).
  rewrite (@read_loop_drain chunks2 "" eq_refl H2).
  now rewrite Hj.
Qed.

Lemma start_chunking_witness :
  start (fun d => Some d) [chunk_head; chunk_tail] =
  start (fun d => Some d) [chunk_head ++ chunk_tail].
Proof.
  apply (@start_chunking (fun d => Some d) [chunk_head; chunk_tail]
           [chunk_head ++ chunk_tail]).
  - repeat constructor; discriminate.
  - repeat constructor; discriminate.
  - reflexivity.
Defined.

(** X5. An empty chunk ends the stream: the listener yields what it would
    have yielded had nothing arrived after it; the bytes still in the
    buffer are never yielded. *)
Theorem start_end_of_stream (decode : string -> option string)
  (chunks later : list string) :
  start decode (chunks ++ "" :: later)%list = start decode chunks.
Proof.
  assert (H : forall buffer,
             read_loop buffer (chunks ++ "" :: later)%list =
             read_loop buffer chunks).
  { induction chunks as [| c rest IH]; intros buffer; cbn.
    - reflexivity.
    - destruct (String.eqb c ""); [reflexivity |].
      destruct (drain (buffer ++ c)) as [records left]. now rewrite IH. }
  unfold start. now rewrite H.
Qed.

(** X6. An event makes the loop reconcile exactly when [monitoradded] or
    [monitorremoved] occurs somewhere in its text, in the event name or in
    the payload. *)
Theorem is_monitor_event_occurs (event : string) :
  is_monitor_event event = true <->
  exists pre post,
    event = pre ++ "monitoradded" ++ post \/
    event = pre ++ "monitorremoved" ++ post.
Proof.
  unfold is_monitor_event. cbn [existsb].
  rewrite orb_false_r, orb_true_iff, !contains_occurs. split.
  - intros [(pre & post & H) | (pre & post & H)]; exists pre, post; auto.
  - intros (pre & post & [H | H]); [left | right]; now exists pre, post.
Qed.

(** ** The configuration watcher *)

(** X7. As long as every modification time read equals the baseline, the
    watcher does not re-apply the configuration, however many reads fail in
    between; in particular a change that is undone between two polls is not
    seen. *)
Theorem watch_unchanged (last : Q) (rounds : list round) :
  (forall mtime exits,
      In (Some mtime, exits) rounds -> Qeq_bool mtime last = true) ->
  watch (Some last) rounds = [].
Proof.
  induction rounds as [| [[m |] exits] rest IH]; intros H; cbn.
  - reflexivity.
  - rewrite (H m exits (or_introl eq_refl)). cbn. apply IH.
    intros x e Hx. apply (H x e). now right.
  - apply IH. intros x e Hx. apply (H x e). now right.
Qed.

Lemma watch_unchanged_witness :
  watch (Some (5 # 1))
    [(Some (5 # 1), false); (None, false); (Some (10 # 2), true)] = [].
Proof.
  apply (@watch_unchanged (5 # 1)
           [(Some (5 # 1), false); (None, false); (Some (10 # 2), true)]).
  intros mtime exits [H | [H | [H | []]]]; inversion H; reflexivity.
Defined.

(** X8. A read of the modification time that fails changes nothing: the
    watcher re-applies at the same modification times as if only the
    rounds with a successful read had happened. *)
Theorem watch_failures_transparent (last_mtime : option Q)
  (rounds : list round) :
  watch last_mtime rounds = watch last_mtime (successful_rounds rounds).
Proof.
  revert last_mtime.
  induction rounds as [| [[m |] exits] rest IH]; intros last_mtime.
  - reflexivity.
  - cbn [successful_rounds filter fst]. cbn [watch].
    destruct (poll last_mtime (Some m)) as [l' r].
    fold (successful_rounds rest).
    destruct r; [destruct exits |]; now rewrite ?IH.
  - cbn [successful_rounds filter fst]. fold (successful_rounds rest).
    cbn [watch poll]. apply IH.
Qed.

(** X9. Started without a baseline (the file could not be read), the watcher
    takes the first modification time it can read as the baseline and does
    not re-apply for it. *)
Theorem watch_first_read (mtime : Q) (exits : bool)
  (failed rounds : list round) :
  Forall (fun r => fst r = None) failed ->
  watch None (failed ++ (Some mtime, exits) :: rounds)%list =
  watch (Some mtime) rounds.
Proof.
  induction 1 as [| [s e] rest Hs _ IH]; cbn; [reflexivity |].
  cbn in Hs. subst s. exact IH.
Qed.

Lemma watch_first_read_witness :
  watch None ([(None, false); (None, true)] ++
              (Some (7 # 1), true) :: [(Some (8 # 1), false)])%list =
  watch (Some (7 # 1)) [(Some (8 # 1), false)].
Proof.
  apply (@watch_first_read (7 # 1) true [(None, false); (None, true)]
           [(Some (8 # 1), false)]).
  repeat constructor.
Defined.

Lemma each_differs_watch (rounds : list round) :
  forall last, each_differs last (watch (Some last) rounds).
Proof.
  induction rounds as [| [[m |] exits] rest IH]; intros last; cbn.
  - exact I.
  - destruct (Qeq_bool m last) eqn:E; cbn.
    + apply IH.
    + split; [exact E |]. destruct exits; [exact I | apply IH].
  - apply IH.
Qed.

Lemma Qeq_bool_baseline (m a b : Q) :
  Qeq_bool a b = true -> Qeq_bool m a = Qeq_bool m b.
Proof.
  intros Hab. apply Qeq_bool_iff in Hab.
  destruct (Qeq_bool m a) eqn:Ea, (Qeq_bool m b) eqn:Eb; try reflexivity.
  - apply Qeq_bool_iff in Ea. apply Qeq_bool_neq in Eb.
    exfalso. apply Eb. now rewrite Ea.
  - apply Qeq_bool_iff in Eb. apply Qeq_bool_neq in Ea.
    exfalso. apply Ea. now rewrite Eb.
Qed.

(** Two baselines with the same value are the same baseline. *)
Lemma watch_baseline (rounds : list round) :
  forall a b,
    Qeq_bool a b = true -> watch (Some a) rounds = watch (Some b) rounds.
Proof.
  induction rounds as [| [[m |] exits] rest IH]; intros a b Hab; cbn.
  - reflexivity.
  - rewrite (@Qeq_bool_baseline m a b Hab).
    destruct (Qeq_bool m b); cbn; [now apply IH | reflexivity].
  - now apply IH.
Qed.

(** The rounds up to a read, then the read. *)
Lemma watch_read (mtime : Q) (exits : bool) (post pre : list round) :
  forall last,
    Forall (fun r => snd r = false) pre ->
    watch (Some last) (pre ++ (Some mtime, exits) :: post)%list =
    (watch (Some last) pre ++
     (if Qeq_bool mtime (previous_read last pre)
      then watch (Some mtime) post
      else mtime :: (if exits then [] else watch (Some mtime) post)))%list.
Proof.
  induction pre as [| [[m0 |] x] pre IH]; intros last HF.
  - cbn. destruct (Qeq_bool mtime last) eqn:E; cbn; [| reflexivity].
    apply watch_baseline. apply Qeq_bool_iff in E. apply Qeq_bool_iff.
    now symmetry.
  - inversion HF as [| ? ? Hx HF']; subst. cbn in Hx. subst x.
    cbn [app watch poll previous_read].
    destruct (Qeq_bool m0 last) eqn:E; cbn [negb].
    + rewrite (@watch_baseline (pre ++ (Some mtime, exits) :: post)%list
                 last m0).
      * rewrite (IH m0 HF'). f_equal. apply watch_baseline.
        exact E.
      * apply Qeq_bool_iff in E. apply Qeq_bool_iff. now symmetry.
    + rewrite (IH m0 HF'). reflexivity.
  - inversion HF as [| ? ? Hx HF']; subst.
    cbn [app watch poll previous_read]. now apply IH.
Qed.

(** X10. The watcher re-applies once per observed change. Every modification
    time at which it re-applies differs from the one at which it re-applied
    before, and the first from the baseline. And as long as no pass has
    ended the watcher, a round that reads a modification time different
    from the one of the last successful read (from the baseline, when there
    was none) re-applies the configuration at that time, once; a round that
    reads the same time does not re-apply; either way the watcher goes on
    from that time. *)
Theorem watch_once_per_change (last : Q) :
  (forall rounds, each_differs last (watch (Some last) rounds)) /\
  (forall pre post mtime exits,
      Forall (fun r => snd r = false) pre ->
      watch (Some last) (pre ++ (Some mtime, exits) :: post)%list =
      (watch (Some last) pre ++
       (if Qeq_bool mtime (previous_read last pre)
        then watch (Some mtime) post
        else mtime :: (if exits then [] else watch (Some mtime) post)))%list).
Proof.
  split.
  - intros rounds. apply each_differs_watch.
  - intros pre post mtime exits HF. now apply watch_read.
Qed.

Lemma watch_once_per_change_witness :
  watch (Some (5 # 1))
    ([(Some (5 # 1), false); (None, false); (Some (6 # 1), false)] ++
     (Some (7 # 1), false) :: [(Some (7 # 1), false)])%list =
  [6 # 1; 7 # 1].
Proof.
  rewrite (proj2 (@watch_once_per_change (5 # 1))
             [(Some (5 # 1), false); (None, false); (Some (6 # 1), false)]
             [(Some (7 # 1), false)] (7 # 1) false).
  - reflexivity.
  - repeat constructor.
Defined.

(** ** The graph builder *)

Lemma filter_nil_iff {A : Type} (f : A -> bool) (l : list A) :
  filter f l = [] <-> Forall (fun x => f x = false) l.
Proof.
  induction l as [| a l IH]; cbn.
  - split; [constructor | reflexivity].
  - destruct (f a) eqn:E.
    + split; [discriminate |]. intros H. inversion H; congruence.
    + rewrite IH. split; [now constructor | intros H; now inversion H].
Qed.

Lemma filter_singleton {A : Type} (f : A -> bool) (l : list A) (d : A) :
  filter f l = [d] <->
  exists pre post, l = (pre ++ d :: post)%list /\ f d = true /\
                   Forall (fun x => f x = false) pre /\
                   Forall (fun x => f x = false) post.
Proof.
  induction l as [| a l IH]; cbn.
  - split; [discriminate |]. intros (pre & post & H & _).
    destruct pre; discriminate.
  - destruct (f a) eqn:E.
    + split.
      * intros [= -> Hnil]. exists [], l. repeat split; auto.
        now apply filter_nil_iff.
      * intros (pre & post & H & Hd & Hpre & Hpost).
        destruct pre as [| p pre].
        -- cbn in H. injection H as -> ->. f_equal.
           now apply filter_nil_iff.
        -- cbn in H. injection H as -> _. inversion Hpre; congruence.
    + rewrite IH. split.
      * intros (pre & post & -> & Hd & Hpre & Hpost).
        exists (a :: pre), post. repeat split; auto.
      * intros (pre & post & H & Hd & Hpre & Hpost).
        destruct pre as [| p pre].
        -- cbn in H. injection H as -> _. congruence.
        -- cbn in H. injection H as -> ->. inversion Hpre; subst.
           exists pre, post. auto.
Qed.

(** X11. [select_monitors] returns a display exactly when it is the only one
    of the enumeration that satisfies every pair of the match; it returns
    [None] exactly when no display does. *)
Theorem select_monitors_unique (ds : list display)
  (mt : list (string * pyval)) :
  (forall d,
      select_monitors ds mt = Ok (Some d) <->
      exists pre post,
        ds = (pre ++ d :: post)%list /\ match_found mt d = true /\
        Forall (fun x => match_found mt x = false) pre /\
        Forall (fun x => match_found mt x = false) post) /\
  (select_monitors ds mt = Ok None <->
   Forall (fun x => match_found mt x = false) ds).
Proof.
  unfold select_monitors. split.
  - intros d. rewrite <- filter_singleton.
    destruct (filter (match_found mt) ds) as [| a [| b l]]; cbn.
    + split; discriminate.
    + split; intros [= ->]; reflexivity.
    + split; discriminate.
  - rewrite <- filter_nil_iff.
    destruct (filter (match_found mt) ds) as [| a [| b l]]; cbn;
      split; congruence.
Qed.

(** X12. An empty match is satisfied by every display: it selects the
    display when one is attached, nothing when none is, and is ambiguous, a
    fatal error, as soon as two are attached. *)
Theorem select_monitors_empty_match (ds : list display) :
  select_monitors ds [] =
  match ds with
  | [] => Ok None
  | [d] => Ok (Some d)
  | _ :: _ :: _ => Err (SysExit AmbiguousMatch)
  end.
Proof.
  unfold select_monitors.
  replace (filter (match_found []) ds) with ds.
  - destruct ds as [| a [| b l]]; reflexivity.
  - induction ds as [| a l IH]; cbn; [reflexivity | now rewrite <- IH].
Qed.

Lemma match_monitors_keys (ds : list display) (cfg : config) :
  forall ms0 ms,
    NoDup (map fst cfg) ->
    (forall k, In k (map fst cfg) -> mem k ms0 = false) ->
    match_monitors ds cfg ms0 = Ok ms ->
    keys ms = (keys ms0 ++ map fst (filter (is_selected ds) cfg))%list.
Proof.
  induction cfg as [| [monitor mc] rest IH]; intros ms0 ms Hnd Hfresh; simpl.
  - intros [= <-]. now rewrite app_nil_r.
  - inversion Hnd as [| ? ? Hnot Hnd']; subst.
    unfold is_selected at 1. cbn [snd].
    destruct (c_match mc) as [mt |]; [| discriminate].
    destruct (select_monitors ds mt) as [[d |] | e']; cbn [bind];
      [| | discriminate].
    + destruct (match c_align mc with Some a => set_align a _ | None => _ end)
        as [m' | e']; cbn [bind]; [| discriminate].
      intros H. cbn [map fst].
      rewrite (IH (setitem monitor m' ms0) ms Hnd'); [| | exact H].
      * rewrite keys_setitem_new by (apply Hfresh; now left).
        now rewrite <- app_assoc.
      * intros k Hk. rewrite mem_setitem.
        rewrite (Hfresh k (or_intror Hk)), orb_false_r.
        apply String.eqb_neq. intros ->. contradiction.
    + intros H. apply (IH ms0 ms Hnd'); [| exact H].
      intros k Hk. apply Hfresh. now right.
Qed.

(** X13. The built graph holds the declared displays that matched a physical
    display, and only those, in the order of their declaration. *)
Theorem build_graph_keys (cfg : config) (ds : list display) (ms : monitors) :
  NoDup (map fst cfg) ->
  build_graph cfg ds = Ok ms ->
  keys ms = map fst (filter (is_selected ds) cfg).
Proof.
  intros Hnd H. unfold build_graph in H. bind_inv H as ms0 H0.
  rewrite (@organize_monitors_keys cfg ms0 ms H).
  now rewrite (@match_monitors_keys ds cfg [] ms0 Hnd (fun _ _ => eq_refl) H0).
Qed.

Lemma build_graph_keys_witness :
  keys built_partial = map fst (filter (is_selected displays) cfg_partial).
Proof.
  apply (@build_graph_keys cfg_partial displays built_partial).
  - repeat constructor; cbn; intuition discriminate.
  - vm_compute. reflexivity.
Defined.

(** The effect of one iteration of the second loop on the record stored
    under each key. *)
Lemma organize_one_effect (monitor : string) (mc : monitor_config)
  (ms ms' : monitors) :
  organize_one monitor mc ms = Ok ms' ->
  exists d r i,
    (d = "" \/ (py_index (py_split d) 1 = Ok r /\ mem r ms = true /\
                c_position mc = Some d)) /\
    forall k,
      get k ms' =
      option_map
        (fun m => scale_effect mc monitor k
                    (same_as_effect (contains "same-as" d) monitor k i
                       (directions_effect monitor r d k m)))
        (get k ms).
Proof.
  unfold organize_one. intros H. bind_inv H as ms1 H1. injection H as <-.
  assert (Hs : forall k (s : monitors),
             get k (match c_scale mc with
                    | Some v => update monitor (set_scale v) s
                    | None => s
                    end) =
             option_map (scale_effect mc monitor k) (get k s)).
  { intros k s. unfold scale_effect. destruct (c_scale mc) as [v |].
    - rewrite get_update. destruct (String.eqb k monitor), (get k s);
        reflexivity.
    - now destruct (get k s). }
  destruct (c_position mc) as [d |].
  - apply wire_position_inv in H1.
    destruct H1 as (r & r0 & Hidx & Hr0 & Hget).
    exists d, r, (id r0). split.
    + right. repeat split; auto. apply mem_get. eauto.
    + intros k. rewrite Hs, Hget. now destruct (get k ms).
  - injection H1 as <-. exists "", "", "". split; [now left |].
    intros k. rewrite Hs. destruct (get k ms); reflexivity.
Qed.

Lemma record_of_effect (d : display) (mc : monitor_config)
  (monitor k dir r i : string) (m : Monitor) :
  record_of d k m ->
  record_of d k
    (scale_effect mc monitor k
       (same_as_effect (contains "same-as" dir) monitor k i
          (directions_effect monitor r dir k m))).
Proof.
  intros (Hid & Hname & Hal & Hpos).
  pose proof (same_core_directions_effect monitor r dir k m)
    as (C1 & C2 & C3 & C4 & C5 & C6 & C7).
  set (m1 := directions_effect monitor r dir k m) in *.
  assert (H1 : record_of d k m1).
  { unfold record_of. rewrite C1, C2, C3, C4, C5, C7. auto. }
  clear - H1.
  assert (H2 : record_of d k
                 (same_as_effect (contains "same-as" dir) monitor k i m1)).
  { unfold same_as_effect.
    destruct (contains "same-as" dir && String.eqb k monitor); [| exact H1].
    destruct H1 as (Hid & Hname & Hal & _). unfold record_of. cbn.
    repeat split; auto. right. repeat split. now exists i. }
  unfold scale_effect. destruct (c_scale mc); [| exact H2].
  destruct (String.eqb k monitor); exact H2.
Qed.

Lemma organize_monitors_record_of (cfg : config) :
  forall ms ms' k m' ,
    organize_monitors cfg ms = Ok ms' -> get k ms' = Some m' ->
    exists m, get k ms = Some m /\
              forall d, record_of d k m -> record_of d k m'.
Proof.
  induction cfg as [| [monitor mc] rest IH]; intros ms ms' k m'; simpl.
  - intros [= <-] Hg. exists m'. auto.
  - destruct (mem monitor ms); cbn [negb]; [| apply IH].
    intros H Hg. bind_inv H as ms1 H1.
    destruct (IH ms1 ms' k m' H Hg) as (m1 & Hg1 & Hr1).
    destruct (@organize_one_effect monitor mc ms ms1 H1)
      as (d0 & r & i & _ & Hget).
    rewrite Hget in Hg1. destruct (get k ms) as [m |]; [| discriminate].
    cbn [option_map] in Hg1. injection Hg1 as <-.
    exists m. split; [reflexivity |]. intros d Hd. apply Hr1.
    now apply record_of_effect.
Qed.

(** X14. Every record of the built graph comes from a declaration whose match
    selected one physical display: it carries the name of that display as
    its identifier, its own key as its name and a valid alignment; and it
    is either unplaced with the width and height of that display as its
    resolution, or a mirror with position [auto], resolution [preferred]
    and a [mirror,...] extra. *)
Theorem build_graph_records (cfg : config) (ds : list display)
  (ms : monitors) (k : string) (m : Monitor) :
  build_graph cfg ds = Ok ms ->
  get k ms = Some m ->
  exists mc mt d,
    In (k, mc) cfg /\ c_match mc = Some mt /\
    select_monitors ds mt = Ok (Some d) /\ record_of d k m.
Proof.
  intros H Hg. unfold build_graph in H. bind_inv H as ms0 H0.
  destruct (@organize_monitors_record_of cfg ms0 ms k m H Hg)
    as (m0 & Hg0 & Hrec).
  destruct (@match_monitors_get ds cfg [] ms0 k m0 H0 Hg0)
    as [Hnil | (mc & mt & d & Hin & Hmt & Hsel & HR)]; [discriminate |].
  exists mc, mt, d. split; [exact Hin |]. split; [exact Hmt |].
  split; [exact Hsel |]. apply Hrec.
  destruct HR as (R1 & R2 & _ & _ & _ & _ & R7 & R8 & _ & R10 & R11).
  unfold record_of. split; [exact R1 |]. split; [exact R2 |].
  split; [exact R11 |]. left. auto.
Qed.

Lemma build_graph_records_witness :
  exists mc mt d,
    In ("M", mc) cfg_mirror_scaled /\ c_match mc = Some mt /\
    select_monitors displays mt = Ok (Some d) /\ record_of d "M" rec_M.
Proof.
  apply (@build_graph_records cfg_mirror_scaled displays
           [("A", rec_A); ("M", rec_M)] "M" rec_M).
  - vm_compute. reflexivity.
  - reflexivity.
Defined.

Lemma error_cause_cons (entry : string * monitor_config) (cfg : config)
  (ds : list display) (e : pyerr) :
  (match e with SysExit (MonitorNotFound _) => False | _ => True end) ->
  error_cause cfg ds e -> error_cause (entry :: cfg) ds e.
Proof.
  destruct e as [[m | | m | r] | | | | |]; cbn; intros Hk H;
    try contradiction.
  - destruct H as (mc & Hin & H). exists mc. auto.
  - destruct H as (m & mc & mt & Hin & H). exists m, mc, mt. auto.
  - destruct H as (mc & mt & d & a & Hin & H). exists mc, mt, d, a. auto.
  - destruct H as (m & mc & d & Hin & H). exists m, mc, d. auto.
Qed.

Lemma set_align_Err_invalid (a : pyval) (m : Monitor) (e : pyerr) :
  set_align a m = Err e -> valid_align a = false.
Proof.
  unfold set_align, valid_align. destruct a as [| s | | |]; try reflexivity.
  destruct (existsb (String.eqb s) valid_aligns); [discriminate | reflexivity].
Qed.

Lemma select_monitors_Err_length (ds : list display)
  (mt : list (string * pyval)) (e : pyerr) :
  select_monitors ds mt = Err e ->
  e = SysExit AmbiguousMatch /\
  (2 <= List.length (filter (match_found mt) ds))%nat.
Proof.
  unfold select_monitors.
  destruct (1 <? List.length (filter (match_found mt) ds))%nat eqn:El;
    [| discriminate].
  intros [= <-]. split; [reflexivity |]. apply Nat.ltb_lt in El. lia.
Qed.

Lemma match_monitors_error_cause (ds : list display) (cfg : config) :
  forall ms e,
    match_monitors ds cfg ms = Err e ->
    error_cause cfg ds e /\
    match e with SysExit (MonitorNotFound _) => False | _ => True end.
Proof.
  induction cfg as [| [monitor mc] rest IH]; intros ms e; simpl.
  - discriminate.
  - assert (Hrest : forall ms', match_monitors ds rest ms' = Err e ->
              error_cause ((monitor, mc) :: rest) ds e /\
              match e with SysExit (MonitorNotFound _) => False | _ => True end).
    { intros ms' H. destruct (IH ms' e H) as [H1 H2].
      split; [now apply error_cause_cons | exact H2]. }
    destruct (c_match mc) as [mt |] eqn:Hmt.
    + destruct (select_monitors ds mt) as [[d |] | e'] eqn:Hs; cbn [bind].
      * destruct (c_align mc) as [a |] eqn:Hal.
        -- destruct (set_align a _) as [m' | e'] eqn:Ha; cbn [bind];
             [apply Hrest |].
           intros [= <-]. pose proof (set_align_Err_invalid _ _ Ha) as Hinv.
           apply set_align_Err in Ha. subst e'. cbn. split; [| exact I].
           exists mc, mt, d, a. repeat split; auto.
        -- cbn [bind]. apply Hrest.
      * apply Hrest.
      * intros [= <-].
        destruct (@select_monitors_Err_length ds mt e' Hs) as [-> Hlen].
        cbn. split; [| exact I]. exists monitor, mc, mt. auto.
    + intros [= <-]. cbn. split; [| exact I]. exists mc. auto.
Qed.

Lemma organize_monitors_error_cause (cfg : config) :
  forall ms e,
    organize_monitors cfg ms = Err e ->
    match e with
    | IndexError =>
        exists monitor mc directive,
          In (monitor, mc) cfg /\ c_position mc = Some directive /\
          nth_error (py_split directive) 1 = None
    | SysExit (MonitorNotFound relative_to) =>
        exists monitor mc directive,
          In (monitor, mc) cfg /\ c_position mc = Some directive /\
          py_index (py_split directive) 1 = Ok relative_to /\
          mem relative_to ms = false
    | _ => False
    end.
Proof.
  induction cfg as [| [monitor mc] rest IH]; intros ms e; simpl.
  - discriminate.
  - assert (Hrest : forall ms',
              (forall k, mem k ms' = mem k ms) ->
              organize_monitors rest ms' = Err e ->
              match e with
              | IndexError =>
                  exists monitor0 mc0 directive,
                    In (monitor0, mc0) ((monitor, mc) :: rest) /\
                    c_position mc0 = Some directive /\
                    nth_error (py_split directive) 1 = None
              | SysExit (MonitorNotFound relative_to) =>
                  exists monitor0 mc0 directive,
                    In (monitor0, mc0) ((monitor, mc) :: rest) /\
                    c_position mc0 = Some directive /\
                    py_index (py_split directive) 1 = Ok relative_to /\
                    mem relative_to ms = false
              | _ => False
              end).
    { intros ms' Hmem H. specialize (IH ms' e H).
      destruct e as [[m | | m | r] | | | | |]; cbn in IH |- *;
        try contradiction.
      - destruct IH as (m0 & mc0 & d & Hin & Hp & Hi & Hm).
        exists m0, mc0, d. rewrite <- Hmem. auto.
      - destruct IH as (m0 & mc0 & d & Hin & Hp & Hi).
        exists m0, mc0, d. auto. }
    destruct (mem monitor ms) eqn:Hm; cbn [negb]; [| now apply Hrest].
    destruct (organize_one monitor mc ms) as [ms1 | e1] eqn:H1; cbn [bind].
    + apply Hrest. intros k. eapply organize_one_mem; eauto.
    + intros [= <-]. unfold organize_one in H1.
      destruct (c_position mc) as [d |] eqn:Hp; [| discriminate].
      destruct (wire_position monitor d ms) as [ms1 | e2] eqn:Hw;
        cbn [bind] in H1; [discriminate |].
      injection H1 as <-. unfold wire_position, py_index in Hw.
      destruct (nth_error (py_split d) 1) as [r |] eqn:Hidx;
        cbn [bind] in Hw.
      * destruct (mem r ms) eqn:Hr; cbn [negb] in Hw.
        -- exfalso. apply mem_get in Hr. destruct Hr as [r0 Hr0].
           assert (Hidx' : py_index (py_split d) 1 = Ok r)
             by (unfold py_index; now rewrite Hidx).
           destruct (@wire_position_Ok monitor d r ms r0 Hidx' Hr0)
             as [ms2 [Hw2 _]].
           unfold wire_position, py_index in Hw2. rewrite Hidx in Hw2.
           cbn [bind] in Hw2.
           assert (Hmem : mem r ms = true) by (apply mem_get; eauto).
           rewrite Hmem in Hw2. cbn [negb] in Hw2. congruence.
        -- injection Hw as <-. exists monitor, mc, d.
           repeat split; auto. unfold py_index. now rewrite Hidx.
      * injection Hw as <-. exists monitor, mc, d. auto.
Qed.

(** X15. A [sys.exit(1)] of the graph builder is never spurious: each of
    its four messages is accounted for by an entry of the configuration (a
    missing match, a match that two displays satisfy, an invalid alignment
    of a matched display, a directive whose second word is not a matched
    display). *)
Theorem build_graph_exit_cause (cfg : config) (ds : list display)
  (why : fatal) :
  build_graph cfg ds = Err (SysExit why) -> exit_cause cfg ds why.
Proof.
  unfold build_graph. intros H.
  destruct (match_monitors ds cfg []) as [ms0 | e0] eqn:H0; cbn [bind] in H.
  - pose proof (@organize_monitors_error_cause cfg ms0 (SysExit why) H)
      as Hc.
    destruct why as [m | | m | r]; cbn in Hc |- *; try contradiction.
    destruct Hc as (m0 & mc0 & d & Hin & Hp & Hi & Hm).
    exists m0, mc0, d. repeat split; auto.
    intros mc' mt d' Hin' Hmt Hsel.
    assert (Hmem : mem r ms0 = true).
    { apply (@match_monitors_mem ds cfg [] ms0 r H0). right.
      exists mc', mt, d'. auto. }
    congruence.
  - injection H as ->.
    now destruct (@match_monitors_error_cause ds cfg [] (SysExit why) H0).
Qed.

Lemma build_graph_exit_cause_witness :
  exit_cause cfg_absent displays (MonitorNotFound "Y").
Proof.
  apply (@build_graph_exit_cause cfg_absent displays).
  vm_compute. reflexivity.
Defined.

(** ** Links and the traversal *)

Lemma links_directions_effect (monitor r d k c : string) (m : Monitor) :
  above (directions_effect monitor r d k m) = Some c \/
  below (directions_effect monitor r d k m) = Some c \/
  left (directions_effect monitor r d k m) = Some c \/
  right (directions_effect monitor r d k m) = Some c ->
  c = monitor \/ c = r \/
  (above m = Some c \/ below m = Some c \/ left m = Some c \/
   right m = Some c).
Proof.
  unfold directions_effect, pair_effect.
  destruct (contains "right-of" d), (contains "left-of" d),
    (contains "below" d), (contains "above" d),
    (String.eqb k monitor), (String.eqb k r); cbn;
    intros [H | [H | [H | H]]]; try (injection H as <-); tauto.
Qed.

Lemma links_effect (mc : monitor_config) (monitor r d k i : string)
  (m : Monitor) :
  same_links
    (scale_effect mc monitor k
       (same_as_effect (contains "same-as" d) monitor k i
          (directions_effect monitor r d k m)))
    (directions_effect monitor r d k m).
Proof.
  unfold scale_effect, same_as_effect, same_links.
  destruct (c_scale mc), (contains "same-as" d && String.eqb k monitor),
    (String.eqb k monitor); cbn; auto.
Qed.

Lemma organize_one_links_closed (monitor : string) (mc : monitor_config)
  (ms ms' : monitors) :
  mem monitor ms = true -> links_closed ms ->
  organize_one monitor mc ms = Ok ms' -> links_closed ms'.
Proof.
  intros Hm Hl H p mp' c Hp Hlink.
  rewrite (@organize_one_mem monitor mc ms ms' c H).
  destruct (@organize_one_effect monitor mc ms ms' H)
    as (d & r & i & Hd & Hget).
  rewrite Hget in Hp. destruct (get p ms) as [mp |] eqn:Hpm;
    [| discriminate].
  cbn [option_map] in Hp. injection Hp as <-.
  destruct (links_effect mc monitor r d p i mp) as (La & Lb & Ll & Lr).
  rewrite La, Lb, Ll, Lr in Hlink.
  destruct Hd as [-> | (Hidx & Hr & _)].
  - rewrite directions_effect_empty in Hlink. eapply Hl; eauto.
  - apply links_directions_effect in Hlink.
    destruct Hlink as [-> | [-> | Hold]]; [exact Hm | exact Hr |].
    eapply Hl; eauto.
Qed.

Lemma organize_monitors_links_closed (cfg : config) :
  forall ms ms',
    links_closed ms -> organize_monitors cfg ms = Ok ms' -> links_closed ms'.
Proof.
  induction cfg as [| [monitor mc] rest IH]; intros ms ms' Hl; simpl.
  - now intros [= <-].
  - destruct (mem monitor ms) eqn:Hm; cbn [negb]; [| now apply IH].
    intros H. bind_inv H as ms1 H1. apply (IH ms1 ms'); [| exact H].
    eapply organize_one_links_closed; eauto.
Qed.

Lemma build_graph_links_closed (cfg : config) (ds : list display)
  (ms : monitors) :
  build_graph cfg ds = Ok ms -> links_closed ms.
Proof.
  unfold build_graph. intros H. bind_inv H as ms0 H0.
  eapply organize_monitors_links_closed; [| exact H].
  intros p mp c Hp Hlink.
  destruct (@match_monitors_get ds cfg [] ms0 p mp H0 Hp)
    as [Hnil | (mc & mt & d & _ & _ & _ & HR)]; [discriminate |].
  destruct HR as (_ & _ & Ha & Hb & Hl & Hr & _).
  rewrite Ha, Hb, Hl, Hr in Hlink. intuition discriminate.
Qed.

Lemma core_above (m1 m2 : Monitor) :
  set_pos PosUnset m1 = set_pos PosUnset m2 -> above m1 = above m2.
Proof. intros H. apply (f_equal above) in H. exact H. Qed.

Lemma core_left (m1 m2 : Monitor) :
  set_pos PosUnset m1 = set_pos PosUnset m2 -> left m1 = left m2.
Proof. intros H. apply (f_equal left) in H. exact H. Qed.

Lemma mem_skeleton (ms1 ms2 : monitors) (k : string) :
  skeleton ms1 = skeleton ms2 -> mem k ms1 = mem k ms2.
Proof.
  intros Hs. unfold mem.
  destruct (get k ms1) as [m1 |] eqn:E1.
  - destruct (@skeleton_get ms1 ms2 k m1 Hs E1) as [m2 [-> _]]. reflexivity.
  - destruct (get k ms2) as [m2 |] eqn:E2; [| reflexivity].
    destruct (@skeleton_get ms2 ms1 k m2 (eq_sym Hs) E2) as [m1 [E _]].
    congruence.
Qed.

Lemma links_closed_skeleton (ms1 ms2 : monitors) :
  skeleton ms1 = skeleton ms2 -> links_closed ms1 -> links_closed ms2.
Proof.
  intros Hs Hl p mp c Hp Hlink.
  destruct (@skeleton_get ms2 ms1 p mp (eq_sym Hs) Hp) as [m1 [Hg1 Hc]].
  rewrite <- (@mem_skeleton ms1 ms2 c Hs).
  apply (Hl p m1 c Hg1).
  rewrite <- (@core_above mp m1 Hc), <- (@core_below mp m1 Hc),
    <- (@core_left mp m1 Hc), <- (@core_right mp m1 Hc). exact Hlink.
Qed.

Lemma next_right_not_KeyError (m r : Monitor) (pos : Z * Z) :
  next_right m r pos <> Err KeyError.
Proof.
  unfold next_right.
  destruct (resolution m) as [| | w h], (resolution r) as [| | rw rh];
    cbn; destruct (String.eqb (align r) "top");
    try destruct (String.eqb (align r) "bottom"); cbn; discriminate.
Qed.

Lemma next_below_not_KeyError (m b : Monitor) (pos : Z * Z) :
  next_below m b pos <> Err KeyError.
Proof.
  unfold next_below.
  destruct (resolution m) as [| | w h], (resolution b) as [| | bw bh];
    cbn; destruct (String.eqb (align b) "left");
    try destruct (String.eqb (align b) "right"); cbn; discriminate.
Qed.

Lemma getitem_mem (k : string) (ms : monitors) :
  mem k ms = true -> exists m, getitem k ms = Ok m /\ get k ms = Some m.
Proof.
  intros H. apply mem_get in H. destruct H as [m Hm].
  exists m. unfold getitem. now rewrite Hm.
Qed.

(** On a mapping whose links all name keys, the traversal from a key never
    fails on a lookup. *)
Lemma set_position_no_KeyError (fuel : nat) :
  forall ms k pos,
    links_closed ms -> mem k ms = true ->
    set_position fuel ms k pos <> Err KeyError.
Proof.
  induction fuel as [| fuel IH]; intros ms k pos Hl Hk; [discriminate |].
  cbn [set_position].
  set (ms0 := update k (set_pos (PosXY (fst pos) (snd pos))) ms).
  assert (Hs0 : skeleton ms = skeleton ms0)
    by (unfold ms0; now rewrite skeleton_update_pos).
  pose proof (@links_closed_skeleton ms ms0 Hs0 Hl) as Hl0.
  assert (Hk0 : mem k ms0 = true)
    by (now rewrite <- (@mem_skeleton ms ms0 k Hs0)).
  destruct (getitem_mem k ms0 Hk0) as (mon & -> & Hmon). cbn [bind].
  set (step1 := if truthy (right mon)
                then match right mon with
                     | Some r =>
                         right_monitor <- getitem r ms0 ;;
                         next_position <- next_right mon right_monitor pos ;;
                         set_position fuel ms0 r next_position
                     | None => Ok ms0
                     end
                else Ok ms0).
  assert (H1 : step1 <> Err KeyError /\
               forall ms1, step1 = Ok ms1 -> skeleton ms0 = skeleton ms1).
  { unfold step1. destruct (truthy (right mon));
      [| split; [discriminate | now intros ms1 [= <-]]].
    destruct (right mon) as [r |] eqn:Hr;
      [| split; [discriminate | now intros ms1 [= <-]]].
    assert (Hmr : mem r ms0 = true) by (eapply Hl0; eauto).
    destruct (getitem_mem r ms0 Hmr) as (rm & -> & _). cbn [bind].
    destruct (next_right mon rm pos) as [np | e] eqn:En; cbn [bind].
    - split; [now apply IH |]. intros ms1 H. symmetry.
      eapply set_position_skeleton; eauto.
    - split; [| discriminate]. intros [= ->].
      now apply (next_right_not_KeyError mon rm pos). }
  destruct H1 as [H1 Hs1]. destruct step1 as [ms1 | e]; cbn [bind];
    [| congruence].
  specialize (Hs1 ms1 eq_refl).
  pose proof (@links_closed_skeleton ms0 ms1 Hs1 Hl0) as Hl1.
  assert (Hk1 : mem k ms1 = true)
    by (now rewrite <- (@mem_skeleton ms0 ms1 k Hs1)).
  destruct (getitem_mem k ms1 Hk1) as (mon' & -> & Hmon'). cbn [bind].
  destruct (truthy (below mon')); [| discriminate].
  destruct (below mon') as [b |] eqn:Hb; [| discriminate].
  assert (Hmb : mem b ms1 = true) by (eapply Hl1; eauto).
  destruct (getitem_mem b ms1 Hmb) as (bm & -> & _). cbn [bind].
  destruct (next_below mon' bm pos) as [np | e] eqn:En; cbn [bind].
  - now apply IH.
  - intros [= ->]. now apply (next_below_not_KeyError mon' bm pos).
Qed.

Lemma get_upmost_leftmost_monitor_mem (ms : monitors) (k : string) :
  get_upmost_leftmost_monitor ms = Some k -> mem k ms = true.
Proof.
  unfold mem. induction ms as [| [k' m'] rest IH]; cbn; [discriminate |].
  destruct (String.eqb_spec k' k) as [-> | Hne]; [reflexivity |].
  destruct (is_auto (position m')); [exact IH |].
  destruct (negb (truthy (above m')) && negb (truthy (left m')));
    [intros [= ->]; contradiction | exact IH].
Qed.

Lemma normalize_not_KeyError (ms : monitors) :
  normalize ms <> Err KeyError.
Proof.
  intros H. apply normalize_exception in H as Hex.
  unfold normalize in H.
  assert (Hc : forall rd ms0,
             (forall p, rd p <> Err KeyError) ->
             coords rd ms0 <> Err KeyError).
  { intros rd ms0 Hrd. induction ms0 as [| [k m] rest IH]; cbn;
      [discriminate |].
    destruct (is_auto (position m)); [exact IH |].
    destruct (rd (position m)) as [v |] eqn:E; cbn [bind];
      [| intros [= ->]; now apply (Hrd (position m))].
    destruct (coords rd rest); cbn [bind]; [discriminate | congruence]. }
  assert (Hm : forall rd ms0,
             (forall p, rd p <> Err KeyError) ->
             min_coord rd ms0 <> Err KeyError).
  { intros rd ms0 Hrd. unfold min_coord.
    destruct (coords rd ms0) as [l |] eqn:E; cbn [bind].
    - destruct l; cbn; discriminate.
    - intros [= ->]. now apply (Hc rd ms0 Hrd). }
  assert (Hsh : forall dx dy ms0, shift_by dx dy ms0 <> Err KeyError).
  { intros dx dy ms0. induction ms0 as [| [k m] rest IH]; cbn;
      [discriminate |].
    destruct (position m); cbn; try discriminate.
    destruct (shift_by dx dy rest); cbn; [discriminate | congruence]. }
  assert (Hx : forall p, pos_x p <> Err KeyError)
    by (intros p; destruct p; discriminate).
  assert (Hy : forall p, pos_y p <> Err KeyError)
    by (intros p; destruct p; discriminate).
  destruct (min_coord pos_x ms) as [mx |] eqn:Ex; cbn [bind] in H;
    [| injection H as ->; now apply (Hm pos_x ms Hx)].
  destruct (min_coord pos_y ms) as [my |] eqn:Ey; cbn [bind] in H;
    [| injection H as ->; now apply (Hm pos_y ms Hy)].
  destruct (mx <? 0).
  - destruct (shift_by mx 0 ms) as [ms1 |] eqn:E1; cbn [bind] in H;
      [| injection H as ->; now apply (Hsh mx 0 ms)].
    destruct (my <? 0); [now apply (Hsh 0 my ms1) | discriminate].
  - cbn [bind] in H.
    destruct (my <? 0); [now apply (Hsh 0 my ms) | discriminate].
Qed.

(** X16. Every link of a built graph names a display of the graph, so the
    lookups of the traversal, [monitors[monitor.right]] and
    [monitors[monitor.below]], always find their display: from the built
    graph on, anchor discovery, traversal and normalisation do not raise
    [KeyError]. *)
Theorem built_graph_lookups (fuel : nat) (cfg : config) (ds : list display)
  (ms : monitors) :
  build_graph cfg ds = Ok ms ->
  links_closed ms /\ resolve fuel ms <> Err KeyError.
Proof.
  intros Hb.
  pose proof (@build_graph_links_closed cfg ds ms Hb) as Hl.
  split; [exact Hl |].
  unfold resolve, resolve_from.
  destruct (get_upmost_leftmost_monitor ms) as [k |] eqn:Ha;
    [| discriminate].
  destruct (set_position fuel ms k (0, 0)) as [ms1 | e] eqn:E; cbn [bind].
  - apply normalize_not_KeyError.
  - intros [= ->]. revert E. apply set_position_no_KeyError.
    + exact Hl.
    + now apply get_upmost_leftmost_monitor_mem.
Qed.

Lemma built_graph_lookups_witness :
  links_closed built_tall /\ resolve 10 built_tall <> Err KeyError.
Proof.
  apply (@built_graph_lookups 10 cfg_tall displays built_tall).
  vm_compute. reflexivity.
Defined.

Lemma last_pos_concrete (t : trace) (k : string) (p : position_t) :
  last_pos t k = Some p -> exists x y, p = PosXY x y.
Proof.
  induction t as [| a t IH]; cbn; [discriminate |].
  destruct (last_pos t k) as [q |].
  - intros [= <-]. now apply IH.
  - destruct (String.eqb k (fst a)); [| discriminate].
    intros [= <-]. eauto.
Qed.

Lemma get_map_entry_after (t : trace) (k : string) (ms : monitors) :
  get k (map (entry_after t) ms) =
  option_map (fun m => snd (entry_after t (k, m))) (get k ms).
Proof.
  induction ms as [| [k' m'] rest IH]; cbn; [reflexivity |].
  destruct (String.eqb_spec k' k) as [-> | Hne]; [reflexivity | exact IH].
Qed.

Lemma keys_skeleton (ms : monitors) : keys (skeleton ms) = keys ms.
Proof.
  unfold keys, skeleton. rewrite map_map. now apply map_ext.
Qed.

(** X17. A traversal that completes changes positions only: the mapping
    keeps its keys and their order, and each record is either the record it
    was or that record with a concrete position; identifiers, resolutions,
    alignments, scales, extras and links are untouched. *)
Theorem set_position_frame (fuel : nat) (ms ms' : monitors) (k : string)
  (pos : Z * Z) :
  set_position fuel ms k pos = Ok ms' ->
  keys ms' = keys ms /\
  forall k' m',
    get k' ms' = Some m' ->
    exists m, get k' ms = Some m /\
              (m' = m \/ exists x y, m' = set_pos (PosXY x y) m).
Proof.
  intros H. split.
  - rewrite <- (keys_skeleton ms'), <- (keys_skeleton ms).
    now rewrite (@set_position_skeleton fuel ms ms' k pos H).
  - destruct (@set_position_trace fuel ms ms k pos ms' eq_refl H)
      as [t [-> _]].
    intros k' m' Hg. rewrite apply_trace_map, get_map_entry_after in Hg.
    destruct (get k' ms) as [m |]; [| discriminate].
    cbn in Hg. injection Hg as <-. exists m. split; [reflexivity |].
    destruct (last_pos t k') as [p |] eqn:E; [| now left].
    right. destruct (@last_pos_concrete t k' p E) as (x & y & ->). eauto.
Qed.

Lemma set_position_frame_witness :
  keys placed_tall = keys built_tall /\
  forall k' m',
    get k' placed_tall = Some m' ->
    exists m, get k' built_tall = Some m /\
              (m' = m \/ exists x y, m' = set_pos (PosXY x y) m).
Proof.
  apply (@set_position_frame 10 built_tall placed_tall "A" (0, 0)).
  vm_compute. reflexivity.
Defined.

(** The recursion bound does not shape the result: a traversal that
    completes under one bound completes with the same mapping under every
    larger one. *)
Lemma set_position_more_fuel (fuel fuel' : nat) (ms ms' : monitors)
  (k : string) (pos : Z * Z) :
  (fuel <= fuel')%nat ->
  set_position fuel ms k pos = Ok ms' ->
  set_position fuel' ms k pos = Ok ms'.
Proof.
  revert fuel' ms ms' k pos.
  induction fuel as [| fuel IH]; intros fuel' ms ms' k pos Hle H;
    [discriminate |].
  destruct fuel' as [| fuel']; [lia |].
  assert (Hle' : (fuel <= fuel')%nat) by lia.
  cbn [set_position] in H |- *.
  destruct (getitem k _) as [mon |]; cbn [bind] in H |- *; [| discriminate].
  bind_inv H as ms1 H1.
  assert (H1' :
            (if truthy (right mon)
             then match right mon with
                  | Some r =>
                      right_monitor <-
                        getitem r
                          (update k (set_pos (PosXY (fst pos) (snd pos))) ms) ;;
                      next_position <- next_right mon right_monitor pos ;;
                      set_position fuel'
                        (update k (set_pos (PosXY (fst pos) (snd pos))) ms)
                        r next_position
                  | None =>
                      Ok (update k (set_pos (PosXY (fst pos) (snd pos))) ms)
                  end
             else Ok (update k (set_pos (PosXY (fst pos) (snd pos))) ms))
            = Ok ms1).
  { destruct (truthy (right mon)); [| exact H1].
    destruct (right mon) as [r |]; [| exact H1].
    destruct (getitem r _) as [rm |]; cbn [bind] in H1 |- *;
      [| discriminate].
    destruct (next_right mon rm pos) as [np |]; cbn [bind] in H1 |- *;
      [| discriminate].
    now apply (IH fuel'). }
  rewrite H1'. cbn [bind].
  destruct (getitem k ms1) as [mon' |]; cbn [bind] in H |- *;
    [| discriminate].
  destruct (truthy (below mon')); [| exact H].
  destruct (below mon') as [b |]; [| exact H].
  destruct (getitem b ms1) as [bm |]; cbn [bind] in H |- *; [| discriminate].
  destruct (next_below mon' bm pos) as [np |]; cbn [bind] in H |- *;
    [| discriminate].
  now apply (IH fuel').
Qed.

(** A display without neighbours to the right and below is given its
    position, and nothing else happens. *)
Lemma set_position_leaf (fuel : nat) (ms : monitors) (k : string)
  (m : Monitor) (pos : Z * Z) :
  get k ms = Some m ->
  truthy (right m) = false -> truthy (below m) = false ->
  set_position (S fuel) ms k pos =
  Ok (update k (set_pos (PosXY (fst pos) (snd pos))) ms).
Proof.
  intros Hg Hr Hb. cbn [set_position]. unfold getitem.
  rewrite get_update_same, Hg. cbn [option_map bind].
  change (right (set_pos _ m)) with (right m). rewrite Hr. cbn [bind].
  rewrite get_update_same, Hg. cbn [option_map bind].
  change (below (set_pos _ m)) with (below m). now rewrite Hb.
Qed.

(** X18. Where the code puts the neighbours of a display placed at (x, y):
    the right neighbour at x = the width of the display (not x + width)
    and, by its alignment, y = y for [top], height - its height for
    [bottom], half of that otherwise; the neighbour below at y = the height
    of the display and x = x for [left], width - its width for [right], half
    of that otherwise. *)
Theorem set_position_neighbours (fuel : nat) (ms : monitors)
  (k r b : string) (m mr mb : Monitor) (x y w h rw rh bw bh : Z) :
  get k ms = Some m -> right m = Some r -> below m = Some b ->
  r <> "" -> b <> "" -> r <> k -> b <> k -> r <> b ->
  get r ms = Some mr ->
  truthy (right mr) = false -> truthy (below mr) = false ->
  get b ms = Some mb ->
  truthy (right mb) = false -> truthy (below mb) = false ->
  resolution m = ResWH w h -> resolution mr = ResWH rw rh ->
  resolution mb = ResWH bw bh ->
  set_position (S (S fuel)) ms k (x, y) =
  Ok (update b
        (set_pos (PosXY (if String.eqb (align mb) "left" then x
                         else if String.eqb (align mb) "right" then w - bw
                              else (w - bw) / 2) h))
        (update r
           (set_pos (PosXY w (if String.eqb (align mr) "top" then y
                              else if String.eqb (align mr) "bottom"
                                   then h - rh
                                   else (h - rh) / 2)))
           (update k (set_pos (PosXY x y)) ms))).
Proof.
  intros Hk Hr Hb Hrn Hbn Hrk Hbk Hrb Hgr Hrr Hrb' Hgb Hbr Hbb Hm Hmr Hmb.
  remember (S fuel) as f1 eqn:Ef. cbn [set_position fst snd].
  set (ms0 := update k (set_pos (PosXY x y)) ms).
  assert (G0k : get k ms0 = Some (set_pos (PosXY x y) m))
    by (unfold ms0; now rewrite get_update_same, Hk).
  assert (G0r : get r ms0 = Some mr)
    by (unfold ms0; now rewrite get_update_other).
  unfold getitem at 1. rewrite G0k. cbn [bind].
  change (right (set_pos (PosXY x y) m)) with (right m).
  rewrite Hr, (@truthy_Some r Hrn).
  unfold getitem at 1. rewrite G0r. cbn [bind].
  rewrite (@next_right_value (set_pos (PosXY x y) m) mr x y w h rw rh Hm Hmr).
  cbn [bind]. subst f1.
  rewrite (@set_position_leaf fuel ms0 r mr _ G0r Hrr Hrb'). cbn [bind fst snd].
  set (ry := if String.eqb (align mr) "top" then y
             else if String.eqb (align mr) "bottom" then h - rh
                  else (h - rh) / 2).
  set (ms1 := update r (set_pos (PosXY w ry)) ms0).
  assert (G1k : get k ms1 = Some (set_pos (PosXY x y) m)).
  { unfold ms1. rewrite get_update_other; [exact G0k | congruence]. }
  assert (G1b : get b ms1 = Some mb).
  { unfold ms1, ms0. rewrite !get_update_other; congruence. }
  unfold getitem at 1. rewrite G1k. cbn [bind].
  change (below (set_pos (PosXY x y) m)) with (below m).
  rewrite Hb, (@truthy_Some b Hbn).
  unfold getitem at 1. rewrite G1b. cbn [bind].
  rewrite (@next_below_value (set_pos (PosXY x y) m) mb x y w h bw bh Hm Hmb).
  cbn [bind].
  rewrite (@set_position_leaf fuel ms1 b mb _ G1b Hbr Hbb). reflexivity.
Qed.

Lemma set_position_neighbours_witness :
  set_position (S (S 0)) corner "A" (0, 0) =
  Ok (update "C" (set_pos (PosXY 448 1080))
        (update "B" (set_pos (PosXY 1920 28))
           (update "A" (set_pos (PosXY 0 0)) corner))).
Proof.
  apply (@set_position_neighbours 0 corner "A" "B" "C"
           (set_below "C" (set_right "B" rec_A)) (set_left "A" rec_B)
           (set_above "A"
              (set_resolution (ResWH 1024 768) (new_Monitor "DP-3" "C")))
           0 0 1920 1080 1280 1024 1024 768);
    first [reflexivity | discriminate].
Defined.

(** X19. After a normalisation that completes no position is unset, and no
    coordinate is negative: every display is [auto] or at x >= 0, y >= 0. *)
Theorem normalize_on_screen (ms ms' : monitors) (k : string) (m : Monitor) :
  normalize ms = Ok ms' -> In (k, m) ms' -> on_screen (position m).
Proof.
  intros H Hin. apply normalize_map in H.
  destruct H as (mx & my & Hx & Hy & -> & _).
  apply in_map_iff in Hin. destruct Hin as ([k0 m0] & Heq & Hin0).
  unfold shift_entry in Heq. cbn [fst snd] in Heq.
  unfold min_coord in Hx, Hy.
  bind_inv Hx as xs Hxs. bind_inv Hy as ys Hys.
  apply py_min_spec in Hx. destruct Hx as [_ Hxall].
  apply py_min_spec in Hy. destruct Hy as [_ Hyall].
  rewrite Forall_forall in Hxall, Hyall.
  pose proof (@coords_x_no_unset ms xs k0 m0 Hxs Hin0) as Hnu.
  destruct (position m0) as [| | x y] eqn:Hp.
  - contradiction.
  - injection Heq as _ <-. rewrite Hp. exact I.
  - injection Heq as _ <-. rewrite position_set_pos. cbn.
    pose proof (Hxall x (@coords_x_In ms xs k0 m0 x y Hxs Hin0 Hp)).
    pose proof (Hyall y (@coords_y_In ms ys k0 m0 x y Hys Hin0 Hp)).
    lia.
Qed.

Lemma normalize_on_screen_witness :
  on_screen (position (set_pos (PosXY 0 460) tall_A)).
Proof.
  apply (@normalize_on_screen placed_tall resolved_tall "A").
  - vm_compute. reflexivity.
  - left. reflexivity.
Defined.

(** X20. The normalisation is idempotent: applied to a mapping it has
    produced, it completes and changes nothing. *)
Theorem normalize_idempotent (ms ms' : monitors) :
  normalize ms = Ok ms' -> normalize ms' = Ok ms'.
Proof.
  intros H. apply normalize_map in H.
  destruct H as (mx & my & Hx & Hy & -> & _).
  unfold normalize.
  rewrite (@min_coord_x_shift (Z.min mx 0) (Z.min my 0) ms mx Hx).
  rewrite (@min_coord_y_shift (Z.min mx 0) (Z.min my 0) ms my Hy).
  cbn [bind].
  destruct (Z.ltb_spec (mx - Z.min mx 0) 0) as [Hl | _]; [lia |].
  cbn [bind].
  destruct (Z.ltb_spec (my - Z.min my 0) 0) as [Hl | _]; [lia |].
  reflexivity.
Qed.

Lemma normalize_idempotent_witness :
  normalize resolved_tall = Ok resolved_tall.
Proof.
  apply (@normalize_idempotent placed_tall resolved_tall).
  vm_compute. reflexivity.
Defined.

Lemma normalize_zero_based_witness :
  ((exists k m x y, In (k, m) placed_tall /\ position m = PosXY x y /\ x < 0) ->
   min_coord pos_x resolved_tall = Ok 0) /\
  ((exists k m x y, In (k, m) placed_tall /\ position m = PosXY x y /\ y < 0) ->
   min_coord pos_y resolved_tall = Ok 0) /\
  (exists mx my,
     min_coord pos_x placed_tall = Ok mx /\
     min_coord pos_y placed_tall = Ok my /\
     forall k m x y,
       get k placed_tall = Some m -> position m = PosXY x y ->
       exists m', get k resolved_tall = Some m' /\
                  position m' = PosXY (x - Z.min mx 0) (y - Z.min my 0)) /\
  (forall k1 k2 m1 m2 x1 y1 x2 y2,
      get k1 placed_tall = Some m1 -> position m1 = PosXY x1 y1 ->
      get k2 placed_tall = Some m2 -> position m2 = PosXY x2 y2 ->
      exists m1' m2' x1' y1' x2' y2',
        get k1 resolved_tall = Some m1' /\ position m1' = PosXY x1' y1' /\
        get k2 resolved_tall = Some m2' /\ position m2' = PosXY x2' y2' /\
        x1' - x2' = x1 - x2 /\ y1' - y2' = y1 - y2).
Proof.
  apply (@normalize_zero_based placed_tall resolved_tall).
  vm_compute. reflexivity.
Defined.

Lemma normalize_concrete_witness :
  exists ms', normalize placed_tall = Ok ms'.
Proof.
  apply (@normalize_concrete placed_tall).
  - repeat (constructor; [do 2 eexists; reflexivity |]). constructor.
  - discriminate.
Defined.

Lemma applied_names_map (f : string * Monitor -> string * Monitor)
  (ms : monitors) :
  (forall e, name (snd (f e)) = name (snd e)) ->
  applied_names (map f ms) = applied_names ms.
Proof.
  intros Hf. unfold applied_names. rewrite map_map. apply map_ext.
  intros e. apply Hf.
Qed.

Lemma name_entry_after (t : trace) (e : string * Monitor) :
  name (snd (entry_after t e)) = name (snd e).
Proof.
  unfold entry_after. cbn [snd]. now destruct (last_pos t (fst e)).
Qed.

Lemma name_shift_entry (dx dy : Z) (e : string * Monitor) :
  name (snd (shift_entry dx dy e)) = name (snd e).
Proof.
  unfold shift_entry. cbn [snd]. now destruct (position (snd e)).
Qed.

Lemma keys_map_shift_entry (dx dy : Z) (ms : monitors) :
  keys (map (shift_entry dx dy) ms) = keys ms.
Proof.
  unfold keys. rewrite map_map. now apply map_ext.
Qed.

Lemma applied_names_keys (ms : monitors) :
  (forall k m, In (k, m) ms -> name m = k) -> applied_names ms = keys ms.
Proof.
  intros H. unfold applied_names, keys. apply map_ext_in.
  intros [k m] Hin. cbn [fst snd]. now apply H.
Qed.

(** The builder stores each record under the name it carries. *)
Lemma build_graph_name (cfg : config) (ds : list display) (ms : monitors)
  (k : string) (m : Monitor) :
  build_graph cfg ds = Ok ms -> In (k, m) ms -> name m = k.
Proof.
  intros H Hin.
  pose proof (@In_get k ms m (@build_graph_NoDup cfg ds ms H) Hin) as Hg.
  unfold build_graph in H. bind_inv H as ms0 H0.
  destruct (@organize_monitors_record_of cfg ms0 ms k m H Hg)
    as (m0 & Hg0 & Hrec).
  destruct (@match_monitors_get ds cfg [] ms0 k m0 H0 Hg0)
    as [Hnil | (mc & mt & d & _ & _ & _ & HR)]; [discriminate |].
  assert (R : record_of d k m0).
  { destruct HR as (R1 & R2 & _ & _ & _ & _ & R7 & R8 & _ & R10 & R11).
    unfold record_of. split; [exact R1 |]. split; [exact R2 |].
    split; [exact R11 |]. left. auto. }
  destruct (Hrec d R) as (_ & Hn & _). exact Hn.
Qed.

Lemma get_upmost_leftmost_monitor_In (ms : monitors) (k : string) :
  get_upmost_leftmost_monitor ms = Some k ->
  exists m, In (k, m) ms /\ is_candidate m = true.
Proof.
  induction ms as [| [k' m'] rest IH]; cbn; [discriminate |].
  unfold is_candidate.
  destruct (is_auto (position m')) eqn:Ea.
  - intros H. destruct (IH H) as (m & Hin & Hc). eauto.
  - destruct (negb (truthy (above m')) && negb (truthy (left m'))) eqn:Ec.
    + intros [= <-]. exists m'. split; [now left |].
      rewrite Ea. cbn [negb andb].
      apply andb_true_iff in Ec. destruct Ec as [-> ->]. reflexivity.
    + intros H. destruct (IH H) as (m & Hin & Hc). eauto.
Qed.

(** X23. What a pass that completes has applied: the declared displays whose
    match selected a connected display, each once and in the order of their
    declaration; the list is not empty, so a notification naming them is
    always sent. *)
Theorem setup_monitors_applied (fuel : nat) (cfg : config)
  (ds : list display) (ms : monitors) :
  NoDup (map fst cfg) ->
  setup_monitors fuel cfg ds = Ok ms ->
  applied_names ms = map fst (filter (is_selected ds) cfg) /\
  applied_names ms <> [] /\
  notification ms =
  Some ("Applied configuration for monitors: " ++
        join_names (map fst (filter (is_selected ds) cfg))).
Proof.
  intros Hnd H. unfold setup_monitors in H. bind_inv H as g Hg.
  unfold resolve, resolve_from in H.
  destruct (get_upmost_leftmost_monitor g) as [k |] eqn:Ek;
    [| discriminate].
  bind_inv H as s1 H1.
  destruct (@set_position_trace fuel g g k (0, 0) s1 eq_refl H1)
    as [t [-> _]].
  apply normalize_map in H. destruct H as (mx & my & _ & _ & -> & _).
  assert (Hk : keys g = map fst (filter (is_selected ds) cfg)).
  { unfold build_graph in Hg. bind_inv Hg as ms0 H0.
    rewrite (@organize_monitors_keys cfg ms0 g Hg).
    now rewrite (@match_monitors_keys ds cfg [] ms0 Hnd
                   (fun _ _ => eq_refl) H0). }
  assert (Ha : applied_names
                 (map (shift_entry (Z.min mx 0) (Z.min my 0))
                    (apply_trace t g)) =
               map fst (filter (is_selected ds) cfg)).
  { rewrite (@applied_names_map _ _ (name_shift_entry _ _)).
    rewrite apply_trace_map.
    rewrite (@applied_names_map _ _ (name_entry_after t)).
    rewrite <- Hk. apply applied_names_keys.
    intros k' m'. now apply (@build_graph_name cfg ds g). }
  assert (Hne : map fst (filter (is_selected ds) cfg) <> []).
  { rewrite <- Hk.
    destruct (@get_upmost_leftmost_monitor_In g k Ek) as (m & Hin & _).
    destruct g; [contradiction | discriminate]. }
  split; [exact Ha |]. split; [now rewrite Ha |].
  unfold notification. rewrite Ha.
  destruct (map fst (filter (is_selected ds) cfg)); [contradiction |].
  reflexivity.
Qed.

Lemma setup_monitors_applied_witness :
  applied_names resolved_tall = map fst (filter (is_selected displays) cfg_tall) /\
  applied_names resolved_tall <> [] /\
  notification resolved_tall =
  Some ("Applied configuration for monitors: " ++
        join_names (map fst (filter (is_selected displays) cfg_tall))).
Proof.
  apply (@setup_monitors_applied 10 cfg_tall displays resolved_tall).
  - repeat constructor; cbn; intuition discriminate.
  - vm_compute. reflexivity.
Defined.

(** X24. The pass ends with [sys.exit(1)] exactly when the graph builder
    does, and with the same message: the anchor discovery, the traversal
    and the normalisation never report an error, they raise. *)
Theorem setup_monitors_exit (fuel : nat) (cfg : config) (ds : list display)
  (why : fatal) :
  setup_monitors fuel cfg ds = Err (SysExit why) <->
  build_graph cfg ds = Err (SysExit why).
Proof.
  unfold setup_monitors. split.
  - destruct (build_graph cfg ds) as [g | e]; cbn [bind]; [| auto].
    intros H. apply resolve_exception in H. contradiction.
  - intros ->. reflexivity.
Qed.

Lemma match_monitors_nothing (ds : list display) (cfg : config)
  (ms : monitors) :
  Forall (selects_nothing ds) cfg -> match_monitors ds cfg ms = Ok ms.
Proof.
  induction 1 as [| [monitor mc] rest (mt & Hmt & Hsel) _ IH]; cbn;
    [reflexivity |].
  cbn [snd] in Hmt, Hsel. now rewrite Hmt, Hsel.
Qed.

Lemma organize_monitors_nil (cfg : config) : organize_monitors cfg [] = Ok [].
Proof.
  induction cfg as [| [monitor mc] rest IH]; cbn; [reflexivity | exact IH].
Qed.

(** X25. When no declaration selects a connected display (an empty
    configuration included), the pass does not return an empty layout: the
    anchor discovery finds nothing, [set_position] is called with [None],
    and the pass ends with [AttributeError]. *)
Theorem setup_monitors_nothing_matched (fuel : nat) (cfg : config)
  (ds : list display) :
  Forall (selects_nothing ds) cfg ->
  setup_monitors fuel cfg ds = Err AttributeError.
Proof.
  intros H. unfold setup_monitors, build_graph.
  rewrite (@match_monitors_nothing ds cfg [] H). cbn [bind].
  rewrite organize_monitors_nil. reflexivity.
Qed.

Lemma setup_monitors_nothing_matched_witness :
  setup_monitors 10 cfg_unplugged displays = Err AttributeError.
Proof.
  apply (@setup_monitors_nothing_matched 10 cfg_unplugged displays).
  repeat constructor; eexists; (split; [reflexivity | vm_compute; reflexivity]).
Defined.

(** The display a traversal starts from keeps the position it is given,
    when it is nobody's right or below neighbour. *)
Lemma set_position_start_kept (fuel : nat) (ms ms' : monitors) (k : string)
  (pos : Z * Z) :
  no_pred k ms ->
  set_position fuel ms k pos = Ok ms' ->
  exists m, get k ms = Some m /\
            get k ms' = Some (set_pos (PosXY (fst pos) (snd pos)) m).
Proof.
  intros Hn H. destruct fuel as [| fuel]; [discriminate |].
  cbn [set_position] in H.
  set (ms0 := update k (set_pos (PosXY (fst pos) (snd pos))) ms) in *.
  assert (Hs0 : skeleton ms = skeleton ms0)
    by (unfold ms0; now rewrite skeleton_update_pos).
  pose proof (@no_pred_skeleton ms ms0 k Hs0 Hn) as Hn0.
  bind_inv H as mon Hmon. bind_inv H as ms1 Hright.
  apply getitem_Ok in Hmon.
  assert (H0 : exists m, get k ms = Some m /\
                         get k ms0 =
                         Some (set_pos (PosXY (fst pos) (snd pos)) m)).
  { unfold ms0 in Hmon |- *. rewrite get_update_same in Hmon |- *.
    destruct (get k ms) as [m |]; [| discriminate]. eauto. }
  destruct H0 as (m & Hgm & Hg0). exists m. split; [exact Hgm |].
  rewrite <- Hg0.
  assert (H1 : get k ms1 = get k ms0 /\ skeleton ms0 = skeleton ms1).
  { destruct (truthy (right mon)); [| now injection Hright as <-].
    destruct (right mon) as [r |] eqn:Hr; [| now injection Hright as <-].
    bind_inv Hright as rm Hrm. bind_inv Hright as np Hnp.
    destruct (Hn0 k mon Hmon) as [Hc _].
    split.
    - eapply set_position_untouched; [exact Hn0 | | exact Hright].
      congruence.
    - symmetry. eapply set_position_skeleton; eauto. }
  destruct H1 as [H1 Hs1].
  pose proof (@no_pred_skeleton ms0 ms1 k Hs1 Hn0) as Hn1.
  rewrite <- H1.
  bind_inv H as mon' Hmon'.
  destruct (truthy (below mon')); [| now injection H as <-].
  destruct (below mon') as [bl |] eqn:Hbl; [| now injection H as <-].
  bind_inv H as bm Hbm. bind_inv H as np Hnp.
  apply getitem_Ok in Hmon'. destruct (Hn1 k mon' Hmon') as [_ Hc].
  eapply set_position_untouched; [exact Hn1 | | exact H]. congruence.
Qed.

(** X26. A layout the pass returns is zero-based: over the displays that are
    not mirrors, the least x and the least y are exactly 0. The anchor is
    placed at 0x0 and no later step of the traversal moves it, so the minima
    are at most 0 before the normalisation, and 0 after it. *)
Theorem setup_monitors_zero_based (fuel : nat) (cfg : config)
  (ds : list display) (ms : monitors) :
  (forall k mc, In (k, mc) cfg -> k <> "") ->
  setup_monitors fuel cfg ds = Ok ms ->
  min_coord pos_x ms = Ok 0 /\ min_coord pos_y ms = Ok 0.
Proof.
  intros Hne H. unfold setup_monitors in H. bind_inv H as g Hg.
  unfold resolve, resolve_from in H.
  destruct (get_upmost_leftmost_monitor g) as [k |] eqn:Ek;
    [| discriminate].
  bind_inv H as s1 H1.
  destruct (@get_upmost_leftmost_monitor_In g k Ek) as (mk & Hin & Hc).
  pose proof (@In_get k g mk (@build_graph_NoDup cfg ds g Hg) Hin) as Hgk.
  pose proof (@candidate_no_pred g k mk
                (@build_graph_links_ok cfg ds g Hne Hg) Hgk Hc) as Hnp.
  destruct (@set_position_start_kept fuel g s1 k (0, 0) Hnp H1)
    as (m & Hm & Hk1).
  cbn [fst snd] in Hk1. apply get_In in Hk1.
  apply normalize_map in H.
  destruct H as (mx & my & Hx & Hy & -> & _).
  rewrite (@min_coord_x_shift (Z.min mx 0) (Z.min my 0) s1 mx Hx).
  rewrite (@min_coord_y_shift (Z.min mx 0) (Z.min my 0) s1 my Hy).
  unfold min_coord in Hx, Hy.
  bind_inv Hx as xs Hxs. bind_inv Hy as ys Hys.
  apply py_min_spec in Hx. destruct Hx as [_ Hxall].
  apply py_min_spec in Hy. destruct Hy as [_ Hyall].
  rewrite Forall_forall in Hxall, Hyall.
  pose proof (Hxall 0 (@coords_x_In s1 xs k _ 0 0 Hxs Hk1 eq_refl)).
  pose proof (Hyall 0 (@coords_y_In s1 ys k _ 0 0 Hys Hk1 eq_refl)).
  split; f_equal; lia.
Qed.

Lemma setup_monitors_zero_based_witness :
  min_coord pos_x resolved_tall = Ok 0 /\
  min_coord pos_y resolved_tall = Ok 0.
Proof.
  apply (@setup_monitors_zero_based 10 cfg_tall displays resolved_tall).
  - intros k mc [[= <- _] | [[= <- _] | []]]; discriminate.
  - vm_compute. reflexivity.
Defined.

(** ** Killing the other instances *)

Lemma In_others (current pid : Z) (pids : list Z) :
  In pid (others current pids) <-> In pid pids /\ pid <> current.
Proof.
  unfold others. rewrite filter_In, negb_true_iff, Z.eqb_neq. tauto.
Qed.

Lemma In_alive_in (probe : Z -> bool) (current pid : Z) (pids : list Z) :
  In pid (alive_in probe current pids) <->
  In pid pids /\ pid <> current /\ probe pid = true.
Proof.
  unfold alive_in. rewrite filter_In, In_others. tauto.
Qed.

Lemma last_cons_default {A : Type} (l : list A) :
  forall x d, last (x :: l) d = last l x.
Proof.
  induction l as [| y l IH]; intros x d; [reflexivity |].
  change (last (x :: y :: l) d) with (last (y :: l) d).
  now rewrite !IH.
Qed.

(** When the wait loop runs to its end, some instance was alive in every
    round, and what is left is the [alive] of the last round. *)
Lemma wait_loop_Some (probes : list (Z -> bool)) (current : Z)
  (pids : list Z) :
  forall alive0 alive,
    wait_loop probes current pids alive0 = Some alive ->
    Forall (fun probe => alive_in probe current pids <> []) probes /\
    alive = last (map (fun probe => alive_in probe current pids) probes)
              alive0.
Proof.
  induction probes as [| probe rest IH]; intros alive0 alive; cbn [wait_loop].
  - intros [= <-]. split; [constructor | reflexivity].
  - destruct (alive_in probe current pids) as [| a l] eqn:E; [discriminate |].
    intros H. destruct (IH (a :: l) alive H) as [HF ->].
    split; [constructor; [rewrite E; discriminate | exact HF] |].
    cbn [map]. rewrite E. symmetry. apply last_cons_default.
Qed.

(** X27. The function never signals its own process, whatever [pgrep]
    reports and whatever the probes answer. *)
Theorem kill_existing_instances_spares_current (query : option (list Z))
  (current : Z) (probe : nat -> Z -> bool) (sig : signal) (pid : Z) :
  In (sig, pid) (kill_existing_instances query current probe) ->
  pid <> current.
Proof.
  unfold kill_existing_instances. destruct query as [pids |]; [| contradiction].
  rewrite in_app_iff. intros [H | H].
  - apply in_map_iff in H. destruct H as (p & [= _ <-] & Hp).
    now apply In_others in Hp.
  - destruct (wait_loop (map probe (seq 0 6)) current pids [])
      as [alive |] eqn:E; [| contradiction].
    apply in_map_iff in H. destruct H as (p & [= _ <-] & Hp).
    apply wait_loop_Some in E. destruct E as [_ ->]. cbn in Hp.
    now apply In_alive_in in Hp.
Qed.

Lemma kill_existing_instances_spares_current_witness :
  In (SIGKILL, 4711)
    (kill_existing_instances (Some [100; 4711; 4712]) 100
       (fun _ pid => pid =? 4711)) /\
  4711 <> 100.
Proof.
  split; [vm_compute; auto |].
  apply (@kill_existing_instances_spares_current
           (Some [100; 4711; 4712]) 100 (fun _ pid => pid =? 4711)
           SIGKILL 4711).
  vm_compute. auto.
Defined.

(** X28. [SIGKILL] is the last resort: a process is killed only if it was
    first asked to terminate, it still answered the sixth probe, and in
    each of the six rounds some other instance was still alive; and every
    process that answers the sixth probe in such a run is killed. *)
Theorem kill_existing_instances_escalation (pids : list Z) (current : Z)
  (probe : nat -> Z -> bool) (pid : Z) :
  In (SIGKILL, pid) (kill_existing_instances (Some pids) current probe) <->
  In (SIGTERM, pid) (kill_existing_instances (Some pids) current probe) /\
  probe 5%nat pid = true /\
  forall i, (i < 6)%nat -> alive_in (probe i) current pids <> [].
Proof.
  unfold kill_existing_instances. rewrite !in_app_iff.
  assert (HT : forall p, In (SIGTERM, p) (map (pair SIGTERM)
                                            (others current pids)) <->
                         In p (others current pids)).
  { intros p. rewrite in_map_iff. split.
    - intros (q & [= <-] & Hq). exact Hq.
    - intros Hq. now exists p. }
  assert (HK : forall (p : Z) (l : list Z),
             In (SIGKILL, p) (map (pair SIGKILL) l) <-> In p l).
  { intros p l. rewrite in_map_iff. split.
    - intros (q & [= <-] & Hq). exact Hq.
    - intros Hq. now exists p. }
  assert (HTK : forall (p : Z) (l : list Z),
             ~ In (SIGTERM, p) (map (pair SIGKILL) l)).
  { intros p l H. apply in_map_iff in H. destruct H as (q & [=] & _). }
  assert (HKT : forall (p : Z) (l : list Z),
             ~ In (SIGKILL, p) (map (pair SIGTERM) l)).
  { intros p l H. apply in_map_iff in H. destruct H as (q & [=] & _). }
  destruct (wait_loop (map probe (seq 0 6)) current pids [])
    as [alive |] eqn:E.
  - apply wait_loop_Some in E. destruct E as [HF ->]. cbn [seq map last] in *.
    rewrite HK, HT, In_alive_in, In_others. split.
    + intros [H | (Hin & Hne & Hp)]; [now apply HKT in H |].
      split; [left; auto |]. split; [exact Hp |].
      intros i Hi. rewrite Forall_forall in HF. apply HF.
      do 6 (destruct i as [| i]; [cbn; tauto |]). lia.
    + intros ([[Hin Hne] | H] & Hp & _); [| now apply HTK in H]. right. auto.
  - split.
    + intros [H | []]. now apply HKT in H.
    + intros (_ & _ & Hall). exfalso.
      cbn [seq map wait_loop] in E.
      pose proof (Hall 0%nat ltac:(lia)) as H0.
      pose proof (Hall 1%nat ltac:(lia)) as H1.
      pose proof (Hall 2%nat ltac:(lia)) as H2.
      pose proof (Hall 3%nat ltac:(lia)) as H3.
      pose proof (Hall 4%nat ltac:(lia)) as H4.
      pose proof (Hall 5%nat ltac:(lia)) as H5.
      destruct (alive_in (probe 0%nat) current pids); [contradiction |].
      destruct (alive_in (probe 1%nat) current pids); [contradiction |].
      destruct (alive_in (probe 2%nat) current pids); [contradiction |].
      destruct (alive_in (probe 3%nat) current pids); [contradiction |].
      destruct (alive_in (probe 4%nat) current pids); [contradiction |].
      destruct (alive_in (probe 5%nat) current pids); [contradiction |].
      discriminate.
Qed.
